(** * GenFunc: IR generation for function types

    A shallow embedding of [lib/IRGen/GenFunc.cpp]: the lowering of
    function types to a two-pointer closure representation, the derivation
    and caching of the low-level call signatures, call emission, builtin
    lowering, and the prologue and epilogue of a function body.

    Conventions of the embedding.
    - Emission is stateful: every member function of [IRGenFunction] is a
      computation in the monad [Emit], which threads the [IRGenFunction]
      object and stops at the first failed [assert], [llvm_unreachable] or
      bad [cast] ([Fatal]).
    - The instruction builder is a logger: each operation that creates,
      erases or positions something appends one [Event] to the [Trace] of
      the function being emitted, in program order.  What the C++ queries
      from the IR under construction ([use_empty], [hasOneUse],
      [getBasicBlockList().empty()]) is computed by replaying that trace.
    - The argument iterator of the prologue is a position in the argument
      list of the function.  It is advanced without a check, as in the C++;
      what it converts to at [arg_end()] and beyond is a parameter of the
      embedding, and the one place that compares it with [arg_end()] is the
      assertion that closes the prologue.
    - Value names (the [Twine] arguments) carry no behaviour and are left
      out. *)

From stdpp Require Import base option list strings gmap.

Set Default Proof Using "Type".
Set Warnings "-register-all".

(** ** Low-level types ([llvm::Type]) *)

Inductive LType : Type :=
| VoidTy
| IntegerTy (bits : nat)
| FloatTy
| DoubleTy
| PointerTy (pointee : LType)
| StructTy (elements : list LType)
| FunctionTy (result : LType) (params : list LType) (isVarArg : bool).

(** Types are uniqued in the [LLVMContext], so that pointer equality on
    [llvm::Type*] is structural equality. *)
Fixpoint LType_eqb (a b : LType) {struct a} : bool :=
  let fix all2 (xs ys : list LType) {struct xs} : bool :=
    match xs, ys with
    | [], [] => true
    | x :: xs', y :: ys' => LType_eqb x y && all2 xs' ys'
    | _, _ => false
    end in
  match a, b with
  | VoidTy, VoidTy => true
  | IntegerTy n, IntegerTy m => Nat.eqb n m
  | FloatTy, FloatTy => true
  | DoubleTy, DoubleTy => true
  | PointerTy p, PointerTy q => LType_eqb p q
  | StructTy xs, StructTy ys => all2 xs ys
  | FunctionTy r ps v, FunctionTy r' ps' v' =>
      LType_eqb r r' && all2 ps ps' && Bool.eqb v v'
  | _, _ => false
  end.

Definition getPointerTo (T : LType) : LType := PointerTy T.

Definition isFloatingPointTy (T : LType) : bool :=
  match T with
  | FloatTy | DoubleTy => true
  | _ => false
  end.

(** [IGM.Int8PtrTy] and [IGM.Int1Ty]. *)
Definition Int8PtrTy : LType := PointerTy (IntegerTy 8).
Definition Int1Ty : LType := IntegerTy 1.

(** Element [i] of a struct, the pointee of a pointer, the return type of
    a function pointer; [VoidTy] where the builder would have been handed an
    ill-typed operand. *)
Definition getElementType (T : LType) (i : nat) : LType :=
  match T with
  | StructTy elts => default VoidTy (elts !! i)
  | _ => VoidTy
  end.

Definition getPointeeType (T : LType) : LType :=
  match T with
  | PointerTy p => p
  | _ => VoidTy
  end.

Definition getCalleeReturnType (T : LType) : LType :=
  match getPointeeType T with
  | FunctionTy r _ _ => r
  | _ => VoidTy
  end.

(** The parameter types and the return type of a function type; nothing
    and [VoidTy] on any other type. *)
Definition getParamTypes (T : LType) : list LType :=
  match T with FunctionTy _ params _ => params | _ => [] end.

Definition getReturnType (T : LType) : LType :=
  match T with FunctionTy result _ _ => result | _ => VoidTy end.

(** ** Low-level values ([llvm::Value]) *)

Inductive Value : Type :=
| Argument (ArgNo : nat) (Ty : LType)
| UndefValue (Ty : LType)
| GlobalFunction (Name : string) (Ty : LType)
| Instruction (Id : nat) (Ty : LType).

Definition getType (V : Value) : LType :=
  match V with
  | Argument _ T | UndefValue T | GlobalFunction _ T | Instruction _ T => T
  end.

Definition isa_UndefValue (V : Value) : bool :=
  match V with UndefValue _ => true | _ => false end.

Definition isa_Argument (V : Value) : bool :=
  match V with Argument _ _ => true | _ => false end.

(** ** Sizes, alignments, addresses *)

Definition Size := nat.
Definition Alignment := nat.

Record Address : Type := mkAddress {
  getAddress : Value;
  getAlignment : Alignment
}.

(** ** Instructions and the emission trace *)

Definition BasicBlock := nat.

Inductive Attribute : Type := StructRet | NoAlias.

Record AttributeWithIndex : Type := mkAttributeWithIndex {
  AttrIndex : nat;
  AttrBits : list Attribute
}.

Inductive UnaryOp : Type := Neg | Not.

Inductive BinaryOp : Type :=
| Add | FAdd | Sub | FSub | Mul | FMul
| And | Or | Xor
| FDiv | SDiv | ExactSDiv | SRem | UDiv | ExactUDiv | URem
| ICmpEQ | ICmpNE | ICmpSLE | ICmpSLT | ICmpSGE | ICmpSGT
| ICmpULE | ICmpULT | ICmpUGE | ICmpUGT
| FCmpOEQ | FCmpOGT | FCmpOGE | FCmpOLT | FCmpOLE | FCmpONE | FCmpORD
| FCmpUEQ | FCmpUGT | FCmpUGE | FCmpULT | FCmpULE | FCmpUNE | FCmpUNO.

Inductive Instr : Type :=
| Alloca (Ty : LType)
| StructGEP (Ptr : Value) (Idx : nat)
| Load (Ptr : Value) (Align : Alignment)
| Store (Val Ptr : Value) (Align : Alignment)
| BitCast (V : Value) (DestTy : LType)
| Call (Callee : Value) (Args : list Value) (Attrs : list AttributeWithIndex)
| ExtractValue (Agg : Value) (Idx : nat)
| InsertValue (Agg Val : Value) (Idx : nat)
| UnOp (Op : UnaryOp) (V : Value)
| BinOp (Op : BinaryOp) (LHS RHS : Value)
| Br (Dest : BasicBlock)
| CondBr (Cond : Value) (IfTrue IfFalse : BasicBlock)
| RetVoid
| Ret (V : Value).

(** One entry per mutation of the IR under construction.  [Insert id bb i]
    is instruction [i], numbered [id], created by the builder while its
    insertion point is [bb] ([None]: no valid insertion point);
    [ScopedAlloca] is a local slot placed at the alloca insertion point;
    [SetAttributes id attrs] is [call->setAttributes(attrs)]. *)
Inductive Event : Type :=
| Insert (Id : nat) (Parent : option BasicBlock) (I : Instr)
| ScopedAlloca (Id : nat) (Ty : LType) (Align : Alignment)
| AppendBlock (BB : BasicBlock)
| SetInsertPoint (BB : BasicBlock)
| SetAttributes (Id : nat) (Attrs : list AttributeWithIndex)
| EraseInstruction (Id : nat)
| EraseBlock (BB : BasicBlock).

(** Instructions that are in the IR after a trace, oldest first, each with
    its number and parent block. *)
Definition LiveInstr : Type := nat * option BasicBlock * Instr.

Definition replayInstr (live : list LiveInstr) (e : Event) : list LiveInstr :=
  match e with
  | Insert id bb i => live ++ [(id, bb, i)]
  | EraseInstruction id => filter (λ li, li.1.1 ≠ id) live
  | EraseBlock bb => filter (λ li, li.1.2 ≠ Some bb) live
  | _ => live
  end.

Definition liveInstrs (tr : list Event) : list LiveInstr :=
  foldl replayInstr [] tr.

Definition replayBlock (bbs : list BasicBlock) (e : Event) : list BasicBlock :=
  match e with
  | AppendBlock bb => bbs ++ [bb]
  | EraseBlock bb => filter (λ b, b ≠ bb) bbs
  | _ => bbs
  end.

(** [CurFn->getBasicBlockList()]. *)
Definition getBasicBlockList (tr : list Event) : list BasicBlock :=
  foldl replayBlock [] tr.

(** How many operands of [i] are the block [bb]. *)
Definition blockOperands (bb : BasicBlock) (i : Instr) : nat :=
  match i with
  | Br d => if decide (d = bb) then 1 else 0
  | CondBr _ t f =>
      (if decide (t = bb) then 1 else 0) + (if decide (f = bb) then 1 else 0)
  | _ => 0
  end.

(** The use list of a block: one entry per operand that refers to it. *)
Definition usesOf (bb : BasicBlock) (tr : list Event) : list LiveInstr :=
  flat_map (λ li, replicate (blockOperands bb li.2) li) (liveInstrs tr).

(** ** Results of emission

    [Fatal] is a failed [assert], an [llvm_unreachable] or a failed checked
    [cast]: compilation stops there. *)

Inductive Result (A : Type) : Type :=
| Ok (a : A)
| Fatal (msg : string).
Arguments Ok {A} a.
Arguments Fatal {A} msg.

(** ** Source-level types ([swift::Type]) *)

Inductive SwiftType : Type :=
| NamedType (Id : nat)
| TupleType (Fields : list SwiftType)
| FunctionType (Input Result : SwiftType).

Fixpoint SwiftType_eqb (a b : SwiftType) {struct a} : bool :=
  let fix all2 (xs ys : list SwiftType) {struct xs} : bool :=
    match xs, ys with
    | [], [] => true
    | x :: xs', y :: ys' => SwiftType_eqb x y && all2 xs' ys'
    | _, _ => false
    end in
  match a, b with
  | NamedType n, NamedType m => Nat.eqb n m
  | TupleType xs, TupleType ys => all2 xs ys
  | FunctionType i r, FunctionType i' r' =>
      SwiftType_eqb i i' && SwiftType_eqb r r'
  | _, _ => false
  end.

(** [Ty->getAs<TupleType>()], giving the field types. *)
Definition getAs_TupleType (T : SwiftType) : option (list SwiftType) :=
  match T with
  | TupleType Fields => Some Fields
  | _ => None
  end.

(** [Ty->getAs<FunctionType>()], giving [(Input, Result)]. *)
Definition getAs_FunctionType (T : SwiftType) : option (SwiftType * SwiftType) :=
  match T with
  | FunctionType Input Result => Some (Input, Result)
  | _ => None
  end.

(** ** R-value schemas and r-values

    Modelled from the spec: [RValue.h] is not among the sources.  A schema
    is either one aggregate passed by address or an ordered list of scalar
    types; an r-value is either an ordered list of scalars or the address
    of an aggregate.  [isScalarN s n] is the counted test [s.isScalar(n)]:
    the value is [n] scalars.  That reading is the one under which the
    uses in this file agree with each other: the epilogue returns
    [RV.getScalars()[0]] alone under [RV.isScalar(1)], returns void under
    [resultSchema.isScalar(0)], and [getFunctionType] gives a void return
    type to an empty list of scalars and the scalar's own type to a list of
    one.  The getters answer the empty list, [VoidTy] or [0] on the variant
    they do not apply to; every call in this file is guarded by the
    matching test. *)

Module RValueSchema.

Inductive t : Type :=
  | forAggregate (Ty : LType) (Align : Alignment)
  | forScalars (Tys : list LType).

Definition isAggregate (s : t) : bool :=
    match s with forAggregate _ _ => true | forScalars _ => false end.

Definition isScalar (s : t) : bool :=
    match s with forAggregate _ _ => false | forScalars _ => true end.

Definition getScalarTypes (s : t) : list LType :=
    match s with forAggregate _ _ => [] | forScalars Tys => Tys end.

Definition isScalarN (s : t) (n : nat) : bool :=
    isScalar s && Nat.eqb (length (getScalarTypes s)) n.

Definition getAggregateType (s : t) : LType :=
    match s with forAggregate Ty _ => Ty | forScalars _ => VoidTy end.

Definition getAggregateAlignment (s : t) : Alignment :=
    match s with forAggregate _ A => A | forScalars _ => 0 end.

End RValueSchema.

Module RValue.

Inductive t : Type :=
  | forScalars (Scalars : list Value)
  | forAggregate (Addr : Value).

Definition isAggregate (rv : t) : bool :=
    match rv with forAggregate _ => true | forScalars _ => false end.

Definition isScalar (rv : t) : bool :=
    match rv with forAggregate _ => false | forScalars _ => true end.

Definition getScalars (rv : t) : list Value :=
    match rv with forAggregate _ => [] | forScalars vs => vs end.

Definition isScalarN (rv : t) (n : nat) : bool :=
    isScalar rv && Nat.eqb (length (getScalars rv)) n.

Definition getAggregateAddress (rv : t) : option Value :=
    match rv with forAggregate a => Some a | forScalars _ => None end.

End RValue.

(** ** Explosions

    Modelled from the spec: [Explosion.h] is not among the sources.  An
    explosion is an ordered sequence of values that is appended to and then
    claimed from the front, one value at a time; claiming past the end is
    fatal.  [getAll] hands out the values not yet claimed without claiming
    them (at its one use below nothing has been claimed). *)

Inductive ExplosionKind : Type := Minimal | Maximal.

Module Explosion.

Record t : Type := mk {
    Kind : ExplosionKind;
    Values : list Value;
    NextValue : nat
  }.

Definition new (kind : ExplosionKind) : t := mk kind [] 0.

Definition add (vs : list Value) (e : t) : t :=
    mk (Kind e) (Values e ++ vs) (NextValue e).

Definition empty (e : t) : bool := Nat.eqb (NextValue e) (length (Values e)).

Definition getAll (e : t) : list Value := drop (NextValue e) (Values e).

Definition claimNext (e : t) : Result (Value * t) :=
    match Values e !! NextValue e with
    | Some v => Ok (v, mk (Kind e) (Values e) (S (NextValue e)))
    | None => Fatal "claimNext: explosion has no value left"
    end.

End Explosion.

(** ** Explosion schemas

    [Explosion.h] is not among the sources.  All this file does with an
    explosion schema is add scalar elements to it: it is taken to be the
    sequence of the elements added, in order. *)

Module ExplosionSchema.

Inductive Element : Type :=
  | forScalar (Ty : LType).

Definition t : Type := list Element.

Definition add (e : Element) (schema : t) : t := schema ++ [e].

End ExplosionSchema.

(** ** Declarations of the AST that call emission looks at *)

Inductive DeclContext : Type :=
| TheBuiltinModule
| ModuleContext (Id : nat)
| LocalContext (Id : nat).

Definition isLocalContext (dc : DeclContext) : bool :=
  match dc with LocalContext _ => true | _ => false end.

Definition isTheBuiltinModule (dc : DeclContext) : bool :=
  match dc with TheBuiltinModule => true | _ => false end.

Inductive DeclKind : Type := FuncDeclKind | VarDeclKind.

Record ValueDecl : Type := mkValueDecl {
  getKind : DeclKind;
  getName : string;
  getDeclContext : DeclContext
}.

Definition isa_FuncDecl (D : ValueDecl) : bool :=
  match getKind D with FuncDeclKind => true | VarDeclKind => false end.

(** A formal parameter ([ArgDecl]); [ArgDeclId] stands for the identity of
    the declaration, the key of [Locals]. *)
Record ArgDecl : Type := mkArgDecl {
  ArgDeclId : nat;
  ArgDecl_getType : SwiftType
}.

Record FuncExpr : Type := mkFuncExpr {
  FuncExpr_getType : SwiftType;
  NamedArgs : list ArgDecl
}.

Inductive BuiltinValueKind : Type :=
| BVK_None
| BVK_Neg | BVK_Not
| BVK_Add | BVK_And | BVK_FDiv | BVK_Mul | BVK_Or
| BVK_SDiv | BVK_SDivExact | BVK_SRem | BVK_Sub
| BVK_UDiv | BVK_UDivExact | BVK_URem | BVK_Xor
| BVK_CmpEQ | BVK_CmpNE | BVK_CmpSLE | BVK_CmpSLT | BVK_CmpSGE | BVK_CmpSGT
| BVK_CmpULE | BVK_CmpULT | BVK_CmpUGE | BVK_CmpUGT
| BVK_FCmpOEQ | BVK_FCmpOGT | BVK_FCmpOGE | BVK_FCmpOLT | BVK_FCmpOLE
| BVK_FCmpONE | BVK_FCmpORD
| BVK_FCmpUEQ | BVK_FCmpUGT | BVK_FCmpUGE | BVK_FCmpULT | BVK_FCmpULE
| BVK_FCmpUNE | BVK_FCmpUNO.

(** ** The function-type descriptor and the emission state *)

(** [FuncTypeInfo]: the [TypeInfo] base fields, the function type it
    describes and the two lazily filled signature caches ([None] is the
    null pointer the constructor stores). *)
Record FuncTypeInfo : Type := mkFuncTypeInfo {
  FnTy_Input : SwiftType;
  FnTy_Result : SwiftType;
  FuncTypeInfo_StorageType : LType;
  FuncTypeInfo_StorageSize : Size;
  FuncTypeInfo_StorageAlignment : Alignment;
  FunctionTypeWithData : option LType;
  FunctionTypeWithoutData : option LType
}.

(** The part of [IRGenModule] that emission changes: the descriptors of
    the function types converted so far, each with its caches, and the
    diagnostics reported by [unimplemented]. *)
Record IRGenModule : Type := mkIRGenModule {
  FuncTypeInfos : list (SwiftType * FuncTypeInfo);
  Diagnostics : list string
}.

Record IRGenFunction : Type := mkIRGenFunction {
  IGM : IRGenModule;
  CurFuncExpr : FuncExpr;
  CurFnArgs : list Value;
  CurFnReturnType : LType;
  BuilderIP : option BasicBlock;
  Trace : list Event;
  NextId : nat;
  AllocaIP : option nat;
  ReturnBB : option BasicBlock;
  ReturnSlot : option Address;
  Locals : gmap nat Address
}.

Definition withIGM (m : IRGenModule) (st : IRGenFunction) : IRGenFunction :=
  mkIRGenFunction m (CurFuncExpr st) (CurFnArgs st) (CurFnReturnType st)
    (BuilderIP st) (Trace st) (NextId st) (AllocaIP st) (ReturnBB st)
    (ReturnSlot st) (Locals st).

Definition withBuilderIP (ip : option BasicBlock) (st : IRGenFunction)
  : IRGenFunction :=
  mkIRGenFunction (IGM st) (CurFuncExpr st) (CurFnArgs st) (CurFnReturnType st)
    ip (Trace st) (NextId st) (AllocaIP st) (ReturnBB st)
    (ReturnSlot st) (Locals st).

Definition withTrace (tr : list Event) (st : IRGenFunction) : IRGenFunction :=
  mkIRGenFunction (IGM st) (CurFuncExpr st) (CurFnArgs st) (CurFnReturnType st)
    (BuilderIP st) tr (NextId st) (AllocaIP st) (ReturnBB st)
    (ReturnSlot st) (Locals st).

Definition withNextId (n : nat) (st : IRGenFunction) : IRGenFunction :=
  mkIRGenFunction (IGM st) (CurFuncExpr st) (CurFnArgs st) (CurFnReturnType st)
    (BuilderIP st) (Trace st) n (AllocaIP st) (ReturnBB st)
    (ReturnSlot st) (Locals st).

Definition withAllocaIP (a : option nat) (st : IRGenFunction) : IRGenFunction :=
  mkIRGenFunction (IGM st) (CurFuncExpr st) (CurFnArgs st) (CurFnReturnType st)
    (BuilderIP st) (Trace st) (NextId st) a (ReturnBB st)
    (ReturnSlot st) (Locals st).

Definition withReturnBB (bb : option BasicBlock) (st : IRGenFunction)
  : IRGenFunction :=
  mkIRGenFunction (IGM st) (CurFuncExpr st) (CurFnArgs st) (CurFnReturnType st)
    (BuilderIP st) (Trace st) (NextId st) (AllocaIP st) bb
    (ReturnSlot st) (Locals st).

Definition withReturnSlot (a : option Address) (st : IRGenFunction)
  : IRGenFunction :=
  mkIRGenFunction (IGM st) (CurFuncExpr st) (CurFnArgs st) (CurFnReturnType st)
    (BuilderIP st) (Trace st) (NextId st) (AllocaIP st) (ReturnBB st)
    a (Locals st).

Definition withLocals (l : gmap nat Address) (st : IRGenFunction)
  : IRGenFunction :=
  mkIRGenFunction (IGM st) (CurFuncExpr st) (CurFnArgs st) (CurFnReturnType st)
    (BuilderIP st) (Trace st) (NextId st) (AllocaIP st) (ReturnBB st)
    (ReturnSlot st) l.

(** ** The emission monad *)

Definition Emit (A : Type) : Type := IRGenFunction → Result (A * IRGenFunction).

Definition Emit_ret {A} (a : A) : Emit A := λ st, Ok (a, st).

Definition Emit_bind {A B} (m : Emit A) (k : A → Emit B) : Emit B :=
  λ st, match m st with
        | Ok (a, st') => k a st'
        | Fatal msg => Fatal msg
        end.

Definition fatal {A} (msg : string) : Emit A := λ _, Fatal msg.

(** [assert(cond && "msg")]. *)
Definition assertion (cond : bool) (msg : string) : Emit unit :=
  if cond then Emit_ret () else fatal msg.

Definition getState : Emit IRGenFunction := λ st, Ok (st, st).

Definition modifyState (f : IRGenFunction → IRGenFunction) : Emit unit :=
  λ st, Ok ((), f st).

Definition liftResult {A} (r : Result A) : Emit A :=
  λ st, match r with
        | Ok a => Ok (a, st)
        | Fatal msg => Fatal msg
        end.

Declare Scope emit_scope.
Delimit Scope emit_scope with emit.
Bind Scope emit_scope with Emit.

Notation "'let*' x ':=' c 'in' k" :=
  (Emit_bind c (λ x, k))
  (at level 10, x pattern, c at level 100, k at level 200) : emit_scope.
Notation "c ;; k" :=
  (Emit_bind c (λ _, k))
  (at level 100, k at level 200, right associativity) : emit_scope.

Local Open Scope emit_scope.

(** Run [f] over a list, left to right, threading an accumulator: the
    body of a range-[for] that updates a local variable. *)
Fixpoint forEach {A B} (f : B → A → Emit B) (xs : list A) (acc : B) : Emit B :=
  match xs with
  | [] => Emit_ret acc
  | x :: xs' => let* acc' := f acc x in forEach f xs' acc'
  end.

(** ** Builder primitives *)

Definition logEvent (e : Event) : Emit unit :=
  modifyState (λ st, withTrace (Trace st ++ [e]) st).

Definition freshId : Emit nat :=
  λ st, Ok (NextId st, withNextId (S (NextId st)) st).

(** Create instruction [i] of type [ty] at the current insertion point. *)
Definition emitInstr (i : Instr) (ty : LType) : Emit Value :=
  let* id := freshId in
  let* st := getState in
  logEvent (Insert id (BuilderIP st) i) ;;
  Emit_ret (Instruction id ty).

Definition hasValidIP : Emit bool :=
  let* st := getState in Emit_ret (bool_decide (is_Some (BuilderIP st))).

Definition Builder_SetInsertPoint (bb : BasicBlock) : Emit unit :=
  modifyState (withBuilderIP (Some bb)) ;;
  logEvent (SetInsertPoint bb).

Definition CreateAlloca (ty : LType) : Emit Value :=
  emitInstr (Alloca ty) (PointerTy ty).

Definition CreateStructGEP (addr : Value) (idx : nat) : Emit Value :=
  emitInstr (StructGEP addr idx)
    (PointerTy (getElementType (getPointeeType (getType addr)) idx)).

Definition CreateLoad (ptr : Value) (align : Alignment) : Emit Value :=
  emitInstr (Load ptr align) (getPointeeType (getType ptr)).

Definition CreateStore (val ptr : Value) (align : Alignment) : Emit unit :=
  emitInstr (Store val ptr align) VoidTy ;; Emit_ret ().

Definition CreateBitCast (v : Value) (ty : LType) : Emit Value :=
  emitInstr (BitCast v ty) ty.

Definition CreateCall (fn : Value) (args : list Value) : Emit Value :=
  emitInstr (Call fn args []) (getCalleeReturnType (getType fn)).

Definition CreateExtractValue (agg : Value) (idx : nat) : Emit Value :=
  emitInstr (ExtractValue agg idx) (getElementType (getType agg) idx).

Definition CreateInsertValue (agg val : Value) (idx : nat) : Emit Value :=
  emitInstr (InsertValue agg val idx) (getType agg).

Definition CreateUnOp (op : UnaryOp) (v : Value) : Emit Value :=
  emitInstr (UnOp op v) (getType v).

Definition isCompare (op : BinaryOp) : bool :=
  match op with
  | Add | FAdd | Sub | FSub | Mul | FMul | And | Or | Xor
  | FDiv | SDiv | ExactSDiv | SRem | UDiv | ExactUDiv | URem => false
  | _ => true
  end.

Definition CreateBinOp (op : BinaryOp) (lhs rhs : Value) : Emit Value :=
  emitInstr (BinOp op lhs rhs) (if isCompare op then Int1Ty else getType lhs).

Definition CreateBr (bb : BasicBlock) : Emit unit :=
  emitInstr (Br bb) VoidTy ;; Emit_ret ().

Definition CreateRetVoid : Emit unit :=
  emitInstr RetVoid VoidTy ;; Emit_ret ().

Definition CreateRet (v : Value) : Emit unit :=
  emitInstr (Ret v) VoidTy ;; Emit_ret ().

(** [createBasicBlock]: a new block, not yet in the function. *)
Definition createBasicBlock : Emit BasicBlock := freshId.

(** [call->setAttributes(attrs)]. *)
Definition setAttributes (call : Value) (attrs : list AttributeWithIndex)
  : Emit unit :=
  match call with
  | Instruction id _ => logEvent (SetAttributes id attrs)
  | _ => fatal "setAttributes: not a call instruction"
  end.

(** Modelled from the spec: [createScopeAlloca] and [createFullExprAlloca]
    are defined outside this file.  Scoped local-storage allocation returns
    the address of a new slot of the given type and alignment; the two
    differ in the lifetime of the slot only. *)
Definition createScopeAlloca (ty : LType) (align : Alignment) : Emit Address :=
  let* id := freshId in
  logEvent (ScopedAlloca id ty align) ;;
  Emit_ret (mkAddress (Instruction id (PointerTy ty)) align).

Definition createFullExprAlloca (ty : LType) (align : Alignment) : Emit Address :=
  createScopeAlloca ty align.

(** [unimplemented(loc, msg)] reports a diagnostic and returns. *)
Definition unimplemented (msg : string) : Emit unit :=
  modifyState (λ st,
    withIGM (mkIRGenModule (FuncTypeInfos (IGM st)) (Diagnostics (IGM st) ++ [msg]))
            st).

(** [ArrayRef::operator[]]: indexing past the end is fatal. *)
Definition at_index {A} (xs : list A) (i : nat) : Emit A :=
  match xs !! i with
  | Some x => Emit_ret x
  | None => fatal "ArrayRef: invalid index"
  end.

(** ** Type descriptors ([TypeInfo]) *)

(** The base-class fields and the virtual member functions this file
    calls. *)
Record TypeInfo : Type := mkTypeInfo {
  StorageType : LType;
  StorageSize : Size;
  StorageAlignment : Alignment;
  getSchema : RValueSchema.t;
  load : Address → Emit RValue.t;
  store : RValue.t → Address → Emit unit
}.

(** ** What the rest of the compiler provides

    The target layout, the descriptor registry, the builtin recognizer,
    the addresses of global functions and the lowering of expressions.
    [lowerExpr e kind] is what [emitExplodedRValue(e, explosion)] adds to
    an explosion of kind [kind]: expression lowering appends the values of
    the expression and claims nothing.  [pastArgEnd n] is what an argument
    iterator converts to at a position [n] that is not on an argument of
    the function, [arg_end()] or beyond it: the argument list is LLVM's,
    and nothing in this file says what is there. *)
Class Collaborators : Type := mkCollaborators {
  PointerSize : Size;
  PointerABIAlignment : Alignment;
  alignmentAtOffset : Alignment → Size → Alignment;
  getFragileTypeInfo : SwiftType → TypeInfo;
  isBuiltinValue : string → BuiltinValueKind;
  getAddrOfGlobalFunction : ValueDecl → Value;
  Expr : Type;
  Expr_getType : Expr → SwiftType;
  lowerExpr : Expr → ExplosionKind → Emit (list Value);
  pastArgEnd : nat → Value
}.

Section GenFunc.

Context `{C : Collaborators}.

Record ApplyExpr : Type := mkApplyExpr {
  getFn : Expr;
  getArg : Expr;
  ApplyExpr_getType : SwiftType;
  getCalledValue : option ValueDecl
}.

Definition emitExplodedRValue (E : Expr) (explosion : Explosion.t)
  : Emit Explosion.t :=
  let* vs := lowerExpr E (Explosion.Kind explosion) in
  Emit_ret (Explosion.add vs explosion).

(** *** [FuncTypeInfo] *)

(** [getSchema]: [getStorageType] casts the storage type to a struct
    type, and the function asserts that it has two elements.  Both hold of
    every descriptor [convertFunctionType] builds (see
    [convertFunctionType_schema]). *)
Definition FuncTypeInfo_getSchema (info : FuncTypeInfo)
  : Result RValueSchema.t :=
  match FuncTypeInfo_StorageType info with
  | StructTy elts =>
      let Ty := FuncTypeInfo_StorageType info in
      if Nat.eqb (length elts) 2 then
        Ok (RValueSchema.forScalars [getElementType Ty 0; getElementType Ty 1])
      else Fatal "Ty->getNumElements() == 2"
  | _ => Fatal "cast<llvm::StructType>: not a struct type"
  end.

Definition FuncTypeInfo_load (info : FuncTypeInfo) (address : Address)
  : Emit RValue.t :=
  let addr := getAddress address in
  (* Load the function. *)
  let* fnAddr := CreateStructGEP addr 0 in
  let* fn := CreateLoad fnAddr (getAlignment address) in
  (* Load the data. *)
  let* dataAddr := CreateStructGEP addr 1 in
  let* data :=
    CreateLoad dataAddr
      (alignmentAtOffset (getAlignment address)
                         (FuncTypeInfo_StorageAlignment info)) in
  Emit_ret (RValue.forScalars [fn; data]).

Definition FuncTypeInfo_store (info : FuncTypeInfo) (RV : RValue.t)
    (address : Address) : Emit unit :=
  assertion (RValue.isScalar RV && Nat.eqb (length (RValue.getScalars RV)) 2)
            "RV.isScalar() && RV.getScalars().size() == 2" ;;
  let addr := getAddress address in
  (* Store the function pointer. *)
  let* fnAddr := CreateStructGEP addr 0 in
  let* fn := at_index (RValue.getScalars RV) 0 in
  CreateStore fn fnAddr (getAlignment address) ;;
  (* Store the data. *)
  let* dataAddr := CreateStructGEP addr 1 in
  let* data := at_index (RValue.getScalars RV) 1 in
  CreateStore data dataAddr
    (alignmentAtOffset (getAlignment address)
                       (FuncTypeInfo_StorageAlignment info)).

Definition FuncTypeInfo_getExplosionSize (info : FuncTypeInfo)
    (kind : ExplosionKind) : nat := 2.

(** [getExplosionSchema]: [getStorageType] casts the storage type to a
    struct type, and the function asserts that it has two elements. *)
Definition FuncTypeInfo_getExplosionSchema (info : FuncTypeInfo)
    (schema : ExplosionSchema.t) : Result ExplosionSchema.t :=
  match FuncTypeInfo_StorageType info with
  | StructTy elts =>
      let Ty := FuncTypeInfo_StorageType info in
      if Nat.eqb (length elts) 2 then
        let schema :=
          ExplosionSchema.add (ExplosionSchema.forScalar (getElementType Ty 0))
                              schema in
        let schema :=
          ExplosionSchema.add (ExplosionSchema.forScalar (getElementType Ty 1))
                              schema in
        Ok schema
      else Fatal "Ty->getNumElements() == 2"
  | _ => Fatal "cast<llvm::StructType>: not a struct type"
  end.

Definition FuncTypeInfo_loadExplosion (info : FuncTypeInfo) (addr : Address)
    (e : Explosion.t) : Emit Explosion.t :=
  let* rv := FuncTypeInfo_load info addr in
  Emit_ret (Explosion.add (RValue.getScalars rv) e).

Definition FuncTypeInfo_storeExplosion (info : FuncTypeInfo) (e : Explosion.t)
    (addr : Address) : Emit Explosion.t :=
  let* (func, e) := liftResult (Explosion.claimNext e) in
  let* (data, e) := liftResult (Explosion.claimNext e) in
  FuncTypeInfo_store info (RValue.forScalars [func; data]) addr ;;
  Emit_ret e.

(** [TypeConverter::convertFunctionType]. *)
Definition convertFunctionType (Input Result : SwiftType) : FuncTypeInfo :=
  let StructSize := PointerSize * 2 in
  let StructAlign := PointerABIAlignment in
  let Elts := [Int8PtrTy; Int8PtrTy] in
  let StructType := StructTy Elts in
  mkFuncTypeInfo Input Result StructType StructSize StructAlign None None.

(** The descriptor seen through its base class, with the schema its
    [getSchema] answers: there is no such view where [getSchema] fails. *)
Definition FuncTypeInfo_asTypeInfo (info : FuncTypeInfo) : Result TypeInfo :=
  match FuncTypeInfo_getSchema info with
  | Ok schema =>
      Ok (mkTypeInfo (FuncTypeInfo_StorageType info)
                     (FuncTypeInfo_StorageSize info)
                     (FuncTypeInfo_StorageAlignment info)
                     schema
                     (FuncTypeInfo_load info) (FuncTypeInfo_store info))
  | Fatal msg => Fatal msg
  end.

Definition push_back {A} (xs : list A) (x : A) : list A := xs ++ [x].

(** Accumulate an argument of the given type. *)
Definition addArgType (Ty : SwiftType) (ArgTypes : list LType) : list LType :=
  let Schema := getSchema (getFragileTypeInfo Ty) in
  if RValueSchema.isScalar Schema then
    foldl (λ ArgTypes Arg, push_back ArgTypes Arg) ArgTypes
          (RValueSchema.getScalarTypes Schema)
  else
    push_back ArgTypes (getPointerTo (RValueSchema.getAggregateType Schema)).

Definition setFunctionTypeWithData (t : LType) (info : FuncTypeInfo)
  : FuncTypeInfo :=
  mkFuncTypeInfo (FnTy_Input info) (FnTy_Result info)
    (FuncTypeInfo_StorageType info) (FuncTypeInfo_StorageSize info)
    (FuncTypeInfo_StorageAlignment info)
    (Some t) (FunctionTypeWithoutData info).

Definition setFunctionTypeWithoutData (t : LType) (info : FuncTypeInfo)
  : FuncTypeInfo :=
  mkFuncTypeInfo (FnTy_Input info) (FnTy_Result info)
    (FuncTypeInfo_StorageType info) (FuncTypeInfo_StorageSize info)
    (FuncTypeInfo_StorageAlignment info)
    (FunctionTypeWithData info) (Some t).

(** [FuncTypeInfo::getFunctionType]: the signature and the descriptor with
    its caches as the call leaves them. *)
Definition FuncTypeInfo_getFunctionType (info : FuncTypeInfo) (NeedsData : bool)
  : LType * FuncTypeInfo :=
  match (if NeedsData then FunctionTypeWithData info else None) with
  | Some cached => (cached, info)
  | None =>
  match (if negb NeedsData then FunctionTypeWithoutData info else None) with
  | Some cached => (cached, info)
  | None =>
    let ArgTypes : list LType := [] in
    (* Compute the result-type information. *)
    let ResultSchema := getSchema (getFragileTypeInfo (FnTy_Result info)) in
    let '(ResultType, ArgTypes) :=
      (* If this is an aggregate return, return indirectly. *)
      if RValueSchema.isAggregate ResultSchema then
        (VoidTy,
         push_back ArgTypes
           (getPointerTo (RValueSchema.getAggregateType ResultSchema)))
      (* If there are no results, return void. *)
      else if bool_decide (RValueSchema.getScalarTypes ResultSchema = []) then
        (VoidTy, ArgTypes)
      (* If there is exactly one result, return it. *)
      else if Nat.eqb (length (RValueSchema.getScalarTypes ResultSchema)) 1 then
        (default VoidTy (RValueSchema.getScalarTypes ResultSchema !! 0),
         ArgTypes)
      (* Otherwise, return a first-class aggregate. *)
      else
        (StructTy (RValueSchema.getScalarTypes ResultSchema), ArgTypes) in
    (* Drill into the first level of tuple, if present. *)
    let ArgTypes :=
      match getAs_TupleType (FnTy_Input info) with
      | Some Fields =>
          foldl (λ ArgTypes Field, addArgType Field ArgTypes) ArgTypes Fields
      (* Otherwise, just add the argument type. *)
      | None => addArgType (FnTy_Input info) ArgTypes
      end in
    (* If we need a data argument, add it in last. *)
    let ArgTypes :=
      if NeedsData then push_back ArgTypes Int8PtrTy else ArgTypes in
    (* Create the appropriate LLVM type. *)
    let IRType := FunctionTy ResultType ArgTypes false in
    (* Cache the type. *)
    (IRType,
     if NeedsData then setFunctionTypeWithData IRType info
     else setFunctionTypeWithoutData IRType info)
  end
  end.

(** *** The descriptor registry, as far as function types go

    [IGM.getFragileTypeInfo(T).as<FuncTypeInfo>()]: the one descriptor of
    the function type [T], created by [convertFunctionType] the first time
    it is asked for. *)
Definition lookupFuncTypeInfo (T : SwiftType) (m : IRGenModule)
  : option FuncTypeInfo :=
  match getAs_FunctionType T with
  | None => None
  | Some (Input, Result) =>
      match find (λ p, SwiftType_eqb T p.1) (FuncTypeInfos m) with
      | Some p => Some p.2
      | None => Some (convertFunctionType Input Result)
      end
  end.

Definition storeFuncTypeInfo (T : SwiftType) (info : FuncTypeInfo)
    (m : IRGenModule) : IRGenModule :=
  mkIRGenModule
    ((T, info) :: filter (λ p, negb (SwiftType_eqb T p.1)) (FuncTypeInfos m))
    (Diagnostics m).

(** [fnTypeInfo.getFunctionType(IGM, withData)] on the descriptor of [T],
    as in [IRGenModule::getFunctionType]. *)
Definition IRGenModule_getFunctionType (T : SwiftType) (withData : bool)
  : Emit LType :=
  let* st := getState in
  match lookupFuncTypeInfo T (IGM st) with
  | None => fatal "as<FuncTypeInfo>: not a function type"
  | Some fnTypeInfo =>
      let '(IRType, fnTypeInfo') :=
        FuncTypeInfo_getFunctionType fnTypeInfo withData in
      modifyState (λ st, withIGM (storeFuncTypeInfo T fnTypeInfo' (IGM st)) st) ;;
      Emit_ret IRType
  end.

(** Form an r-value which refers to the given global function. *)
Definition emitExplodedRValueForFunction (Fn : ValueDecl)
    (explosion : Explosion.t) : Emit Explosion.t :=
  if negb (isLocalContext (getDeclContext Fn)) then
    let explosion := Explosion.add [getAddrOfGlobalFunction Fn] explosion in
    let explosion := Explosion.add [UndefValue Int8PtrTy] explosion in
    Emit_ret explosion
  else
    unimplemented "local function emission" ;;
    let undef := UndefValue Int8PtrTy in
    let explosion := Explosion.add [undef] explosion in
    let explosion := Explosion.add [undef] explosion in
    Emit_ret explosion.

(** *** Call emission *)

Record ArgList : Type := mkArgList {
  ArgList_Values : Explosion.t;
  ArgList_Attrs : list AttributeWithIndex
}.

Definition ArgList_new (kind : ExplosionKind) : ArgList :=
  mkArgList (Explosion.new kind) [].

Definition ArgList_addArg (arg : RValue.t) (args : ArgList) : ArgList :=
  match arg with
  | RValue.forScalars vs =>
      mkArgList (Explosion.add vs (ArgList_Values args)) (ArgList_Attrs args)
  | RValue.forAggregate a =>
      mkArgList (Explosion.add [a] (ArgList_Values args)) (ArgList_Attrs args)
  end.

(** The emission of a simple unary operation or predicate. *)
Definition UNARY_OPERATION (Op : UnaryOp) (args : ArgList) : Emit RValue.t :=
  let* (op, Values) := liftResult (Explosion.claimNext (ArgList_Values args)) in
  assertion (Explosion.empty Values) "wrong operands to unary operation" ;;
  let* r := CreateUnOp Op op in
  Emit_ret (RValue.forScalars [r]).

(** The emission of a simple binary operation or predicate. *)
Definition BINARY_OPERATION (Op : BinaryOp) (args : ArgList) : Emit RValue.t :=
  let* (lhs, Values) := liftResult (Explosion.claimNext (ArgList_Values args)) in
  let* (rhs, Values) := liftResult (Explosion.claimNext Values) in
  assertion (Explosion.empty Values) "wrong operands to binary operation" ;;
  let* r := CreateBinOp Op lhs rhs in
  Emit_ret (RValue.forScalars [r]).

(** The emission of a simple binary operation or predicate defined over
    both floating-point and integer types. *)
Definition BINARY_ARITHMETIC_OPERATION (IntOp FPOp : BinaryOp) (args : ArgList)
  : Emit RValue.t :=
  let* (lhs, Values) := liftResult (Explosion.claimNext (ArgList_Values args)) in
  let* (rhs, Values) := liftResult (Explosion.claimNext Values) in
  assertion (Explosion.empty Values) "wrong operands to binary operation" ;;
  if isFloatingPointTy (getType lhs) then
    let* r := CreateBinOp FPOp lhs rhs in
    Emit_ret (RValue.forScalars [r])
  else
    let* r := CreateBinOp IntOp lhs rhs in
    Emit_ret (RValue.forScalars [r]).

(** Emit a call to a builtin function. *)
Definition emitBuiltinCall (Fn : ValueDecl) (Arg : Expr) (resultType : TypeInfo)
  : Emit RValue.t :=
  assertion (RValueSchema.isScalar (getSchema resultType))
            "builtin type with agg return" ;;
  (* Emit the arguments. *)
  let args := ArgList_new Minimal in
  let* Values := emitExplodedRValue Arg (ArgList_Values args) in
  let args := mkArgList Values (ArgList_Attrs args) in
  match isBuiltinValue (getName Fn) with
  | BVK_None => fatal "not a builtin after all!"
  | BVK_Neg => UNARY_OPERATION Neg args
  | BVK_Not => UNARY_OPERATION Not args
  | BVK_Add => BINARY_ARITHMETIC_OPERATION Add FAdd args
  | BVK_And => BINARY_OPERATION And args
  | BVK_FDiv => BINARY_OPERATION FDiv args
  | BVK_Mul => BINARY_ARITHMETIC_OPERATION Mul FMul args
  | BVK_Or => BINARY_OPERATION Or args
  | BVK_SDiv => BINARY_OPERATION SDiv args
  | BVK_SDivExact => BINARY_OPERATION ExactSDiv args
  | BVK_SRem => BINARY_OPERATION SRem args
  | BVK_Sub => BINARY_ARITHMETIC_OPERATION Sub FSub args
  | BVK_UDiv => BINARY_OPERATION UDiv args
  | BVK_UDivExact => BINARY_OPERATION ExactUDiv args
  | BVK_URem => BINARY_OPERATION URem args
  | BVK_Xor => BINARY_OPERATION Xor args
  | BVK_CmpEQ => BINARY_OPERATION ICmpEQ args
  | BVK_CmpNE => BINARY_OPERATION ICmpNE args
  | BVK_CmpSLE => BINARY_OPERATION ICmpSLE args
  | BVK_CmpSLT => BINARY_OPERATION ICmpSLT args
  | BVK_CmpSGE => BINARY_OPERATION ICmpSGE args
  | BVK_CmpSGT => BINARY_OPERATION ICmpSGT args
  | BVK_CmpULE => BINARY_OPERATION ICmpULE args
  | BVK_CmpULT => BINARY_OPERATION ICmpULT args
  | BVK_CmpUGE => BINARY_OPERATION ICmpUGE args
  | BVK_CmpUGT => BINARY_OPERATION ICmpUGT args
  | BVK_FCmpOEQ => BINARY_OPERATION FCmpOEQ args
  | BVK_FCmpOGT => BINARY_OPERATION FCmpOGT args
  | BVK_FCmpOGE => BINARY_OPERATION FCmpOGE args
  | BVK_FCmpOLT => BINARY_OPERATION FCmpOLT args
  | BVK_FCmpOLE => BINARY_OPERATION FCmpOLE args
  | BVK_FCmpONE => BINARY_OPERATION FCmpONE args
  | BVK_FCmpORD => BINARY_OPERATION FCmpORD args
  | BVK_FCmpUEQ => BINARY_OPERATION FCmpUEQ args
  | BVK_FCmpUGT => BINARY_OPERATION FCmpUGT args
  | BVK_FCmpUGE => BINARY_OPERATION FCmpUGE args
  | BVK_FCmpULT => BINARY_OPERATION FCmpULT args
  | BVK_FCmpULE => BINARY_OPERATION FCmpULE args
  | BVK_FCmpUNE => BINARY_OPERATION FCmpUNE args
  | BVK_FCmpUNO => BINARY_OPERATION FCmpUNO args
  end.

(** The callee of [E] when it is a declaration of the builtin module. *)
Definition calledBuiltin (E : ApplyExpr) : option ValueDecl :=
  match getCalledValue E with
  | Some Fn =>
      if isTheBuiltinModule (getDeclContext Fn) then Some Fn else None
  | None => None
  end.

(** The general path of [emitApplyExpr]: everything after the check for a
    call to a builtin. *)
Definition emitApplyExpr_general (E : ApplyExpr) (resultType : TypeInfo)
  : Emit RValue.t :=
  let fnValues := Explosion.new Maximal in
  let* fnValues := emitExplodedRValue (getFn E) fnValues in
  let* (fn, fnValues) := liftResult (Explosion.claimNext fnValues) in
  let* (data, fnValues) := liftResult (Explosion.claimNext fnValues) in
  assertion (Explosion.empty fnValues) "fnValues.empty()" ;;
  (* Unless special-cased, calls are done with minimal explosion. *)
  let args := ArgList_new Minimal in
  (* The first argument is the implicit aggregate return slot, if
     required. *)
  let resultSchema := getSchema resultType in
  let* args :=
    if RValueSchema.isAggregate resultSchema then
      let* resultSlot :=
        createFullExprAlloca (RValueSchema.getAggregateType resultSchema)
                             (RValueSchema.getAggregateAlignment resultSchema) in
      Emit_ret
        (mkArgList
           (Explosion.add [getAddress resultSlot] (ArgList_Values args))
           (push_back (ArgList_Attrs args)
                      (mkAttributeWithIndex 1 [StructRet; NoAlias])))
    else Emit_ret args in
  (* Emit the arguments, drilling into the first level of tuple, if
     present. *)
  let* Values := emitExplodedRValue (getArg E) (ArgList_Values args) in
  let args := mkArgList Values (ArgList_Attrs args) in
  (* Don't bother passing a data argument if the r-value says it's
     undefined. *)
  let needsData := negb (isa_UndefValue data) in
  let args :=
    if needsData
    then mkArgList (Explosion.add [data] (ArgList_Values args))
                   (ArgList_Attrs args)
    else args in
  let* fnLLVMType :=
    IRGenModule_getFunctionType (Expr_getType (getFn E)) needsData in
  let* fn := CreateBitCast fn (getPointerTo fnLLVMType) in
  let* call := CreateCall fn (Explosion.getAll (ArgList_Values args)) in
  setAttributes call (ArgList_Attrs args) ;;
  (* Build an RValue result. *)
  if RValueSchema.isAggregate resultSchema then
    let* (slot, _) := liftResult (Explosion.claimNext (ArgList_Values args)) in
    Emit_ret (RValue.forAggregate slot)
  else if Nat.eqb (length (RValueSchema.getScalarTypes resultSchema)) 1 then
    Emit_ret (RValue.forScalars [call])
  else
    (* This does the right thing for void returns as well. *)
    let* result :=
      forEach (λ result I,
                 let* scalar := CreateExtractValue call I in
                 Emit_ret (push_back result scalar))
              (seq 0 (length (RValueSchema.getScalarTypes resultSchema)))
              [] in
    Emit_ret (RValue.forScalars result).

(** Emit a function call. *)
Definition emitApplyExpr (E : ApplyExpr) (resultType : TypeInfo)
  : Emit RValue.t :=
  (* Check for a call to a builtin. *)
  match calledBuiltin E with
  | Some Fn =>
      assertion (isa_FuncDecl Fn)
                "cast<FuncDecl>: not a function declaration" ;;
      emitBuiltinCall Fn (getArg E) resultType
  | None => emitApplyExpr_general E resultType
  end.

Definition tryEmitApplyAsAddress (E : ApplyExpr) (resultType : TypeInfo)
  : Emit (option Address) :=
  let resultSchema := getSchema resultType in
  if negb (RValueSchema.isAggregate resultSchema) then
    Emit_ret None
  else
    let* result := emitApplyExpr E resultType in
    assertion (RValue.isAggregate result) "result.isAggregate()" ;;
    match RValue.getAggregateAddress result with
    | Some a => Emit_ret (Some (mkAddress a (StorageAlignment resultType)))
    | None => fatal "getAggregateAddress: not an aggregate"
    end.

(** The virtual [TypeInfo::explode] is defined by the descriptors of the
    other types, outside this file: [emitExplodedApplyExpr] is given for
    any such function. *)
Section ExplodedApply.
Variable explode : TypeInfo → RValue.t → Explosion.t → Emit Explosion.t.

Definition emitExplodedApplyExpr (E : ApplyExpr) (explosion : Explosion.t)
  : Emit Explosion.t :=
  let type := getFragileTypeInfo (ApplyExpr_getType E) in
  let* rvalue := emitApplyExpr E type in
  explode type rvalue explosion.

End ExplodedApply.

(** *** Prologue and epilogue *)

(** [CurParm++] on [CurFn]'s argument list: what is under the iterator,
    and the iterator advanced.  The iterator is a position in the list and
    nothing is checked here: at [arg_end()] and beyond it the prologue goes
    on with whatever the iterator converts to there.  The one check of the
    iterator is the assertion that closes the prologue. *)
Definition nextParm (CurParm : nat) : Emit (Value * nat) :=
  let* st := getState in
  Emit_ret (default (pastArgEnd CurParm) (CurFnArgs st !! CurParm), S CurParm).

Definition instructionId (V : Value) : option nat :=
  match V with Instruction id _ => Some id | _ => None end.

(** The body of the loop over [CurFuncExpr->NamedArgs]. *)
Definition emitPrologue_parm (CurParm : nat) (Parm : ArgDecl) : Emit nat :=
  let ParmInfo := getFragileTypeInfo (ArgDecl_getType Parm) in
  let ParmSchema := getSchema ParmInfo in
  (* Make an l-value for the parameter. *)
  let* (parmAddr, CurParm) :=
    if RValueSchema.isAggregate ParmSchema then
      let* (V, CurParm) := nextParm CurParm in
      Emit_ret (mkAddress V (StorageAlignment ParmInfo), CurParm)
    else
      let* a := createScopeAlloca (StorageType ParmInfo)
                                  (StorageAlignment ParmInfo) in
      Emit_ret (a, CurParm) in
  (* If the parameter was scalar, form an r-value from the parameters and
     store that. *)
  let* CurParm :=
    if RValueSchema.isScalar ParmSchema then
      let* (Scalars, CurParm) :=
        forEach (λ '(Scalars, CurParm) ParmType,
                   let* (V, CurParm) := nextParm CurParm in
                   assertion (LType_eqb (getType V) ParmType)
                             "V->getType() == ParmType" ;;
                   Emit_ret (push_back Scalars V, CurParm))
                (RValueSchema.getScalarTypes ParmSchema)
                ([], CurParm) in
      let ParmRV := RValue.forScalars Scalars in
      store ParmInfo ParmRV parmAddr ;;
      Emit_ret CurParm
    else Emit_ret CurParm in
  let* st := getState in
  assertion (bool_decide (Locals st !! ArgDeclId Parm = None))
            "!Locals.count(Parm)" ;;
  modifyState (λ st, withLocals (<[ArgDeclId Parm := parmAddr]> (Locals st)) st) ;;
  Emit_ret CurParm.

(** The first part of the prologue: the entry block, the alloca insertion
    point and the return block. *)
Definition emitPrologue_setup : Emit unit :=
  (* Set up the IRBuilder. *)
  let* EntryBB := createBasicBlock in
  let* st := getState in
  assertion (bool_decide (getBasicBlockList (Trace st) = []))
            "prologue already emitted?" ;;
  logEvent (AppendBlock EntryBB) ;;
  Builder_SetInsertPoint EntryBB ;;
  (* Set up the alloca insertion point. *)
  let* allocaPoint := CreateAlloca Int1Ty in
  modifyState (withAllocaIP (instructionId allocaPoint)) ;;
  (* Set up the return block and insert it. *)
  let* RetBB := createBasicBlock in
  modifyState (withReturnBB (Some RetBB)) ;;
  logEvent (AppendBlock RetBB).

(** The second part: set up the result slot.  [CurParm] is the argument
    iterator, returned as the step leaves it. *)
Definition emitPrologue_resultSlot (resultType : TypeInfo) (CurParm : nat)
  : Emit nat :=
  let resultSchema := getSchema resultType in
  if RValueSchema.isAggregate resultSchema then
    let* (V, CurParm) := nextParm CurParm in
    modifyState
      (withReturnSlot (Some (mkAddress V (StorageAlignment resultType)))) ;;
    Emit_ret CurParm
  else if RValueSchema.isScalarN resultSchema 0 then
    let* st := getState in
    assertion (bool_decide (ReturnSlot st = None)) "!ReturnSlot.isValid()" ;;
    Emit_ret CurParm
  else
    let* slot := createScopeAlloca (StorageType resultType)
                                   (StorageAlignment resultType) in
    modifyState (withReturnSlot (Some slot)) ;;
    Emit_ret CurParm.

(** Emit the prologue for the function. *)
Definition emitPrologue : Emit unit :=
  emitPrologue_setup ;;
  let* st := getState in
  match getAs_FunctionType (FuncExpr_getType (CurFuncExpr st)) with
  | None => fatal "emitting a declaration that's not a function?"
  | Some (_, FnTy_Result) =>
    let CurParm := 0 in
    (* Set up the result slot. *)
    let resultType := getFragileTypeInfo FnTy_Result in
    let* CurParm := emitPrologue_resultSlot resultType CurParm in
    (* Set up the parameters. *)
    let* CurParm :=
      forEach emitPrologue_parm (NamedArgs (CurFuncExpr st)) CurParm in
    (* TODO: data pointer *)
    let* st := getState in
    assertion (Nat.eqb CurParm (length (CurFnArgs st)))
              "didn't exhaust all parameters?"
  end.

(** The control-flow resolution of the epilogue: [false] when the function
    returns early because the whole epilogue is unreachable. *)
Definition emitEpilogue_resolve (RetBB : BasicBlock) : Emit bool :=
  let* st := getState in
  let uses := usesOf RetBB (Trace st) in
  let* validIP := hasValidIP in
  (* If there are no edges to the return block, we never want to emit
     it. *)
  if bool_decide (uses = []) then
    logEvent (EraseBlock RetBB) ;;
    (* If the current IP is unreachable then so is the entire epilogue. *)
    if negb validIP then Emit_ret false else Emit_ret true
  (* Otherwise, branch to it if the current IP is reachable. *)
  else if validIP then
    CreateBr RetBB ;;
    Builder_SetInsertPoint RetBB ;;
    Emit_ret true
  (* Otherwise, if there is exactly one use of the return block, merge it
     into its predecessor. *)
  else if Nat.eqb (length uses) 1 then
    match uses with
    | (BrId, Parent, Br _) :: _ =>
        match Parent with
        | Some Pred =>
            Builder_SetInsertPoint Pred ;;
            logEvent (EraseInstruction BrId) ;;
            logEvent (EraseBlock RetBB) ;;
            Emit_ret true
        | None => fatal "Br->getParent() is null"
        end
    | _ => fatal "Br->isUnconditional()"
    end
  (* Otherwise, just move the IP to the return block. *)
  else
    Builder_SetInsertPoint RetBB ;;
    Emit_ret true.

(** The return emitted at the end of the epilogue. *)
Definition emitEpilogue_return : Emit unit :=
  let* st := getState in
  match getAs_FunctionType (FuncExpr_getType (CurFuncExpr st)) with
  | None => fatal "emitting a declaration that's not a function?"
  | Some (_, FnTy_Result) =>
    let resultType := getFragileTypeInfo FnTy_Result in
    let resultSchema := getSchema resultType in
    if RValueSchema.isAggregate resultSchema then
      assertion (from_option (λ a, isa_Argument (getAddress a)) false
                             (ReturnSlot st))
                "isa<llvm::Argument>(ReturnSlot.getAddress())" ;;
      CreateRetVoid
    else if RValueSchema.isScalarN resultSchema 0 then
      assertion (bool_decide (ReturnSlot st = None)) "!ReturnSlot.isValid()" ;;
      CreateRetVoid
    else
      match ReturnSlot st with
      | None => fatal "load from an invalid ReturnSlot"
      | Some slot =>
        let* RV := load resultType slot in
        if RValue.isScalarN RV 1 then
          let* V := at_index (RValue.getScalars RV) 0 in
          CreateRet V
        else
          let Result := UndefValue (CurFnReturnType st) in
          let* Result :=
            forEach (λ Result I,
                       let* V := at_index (RValue.getScalars RV) I in
                       CreateInsertValue Result V I)
                    (seq 0 (length (RValue.getScalars RV)))
                    Result in
          CreateRet Result
      end
  end.

(** Emit the epilogue for the function. *)
Definition emitEpilogue : Emit unit :=
  (* Destroy the alloca insertion point. *)
  let* st := getState in
  match AllocaIP st, ReturnBB st with
  | Some allocaPoint, Some RetBB =>
      logEvent (EraseInstruction allocaPoint) ;;
      let* reachable := emitEpilogue_resolve RetBB in
      if reachable then emitEpilogue_return else Emit_ret ()
  | _, _ => fatal "epilogue without a prologue"
  end.

End GenFunc.

(** ** Signatures as the descriptor's clients see them *)

Section Signatures.

Context `{C : Collaborators}.

(** The descriptor of [Input -> Result] after any history of
    [getFunctionType] calls with the given flags, oldest first. *)
Fixpoint afterCalls (info : FuncTypeInfo) (history : list bool) : FuncTypeInfo :=
  match history with
  | [] => info
  | NeedsData :: rest =>
      afterCalls (FuncTypeInfo_getFunctionType info NeedsData).2 rest
  end.

(** The cache field that belongs to a flag. *)
Definition cachedFunctionType (NeedsData : bool) (info : FuncTypeInfo)
  : option LType :=
  if NeedsData then FunctionTypeWithData info else FunctionTypeWithoutData info.

(** The low-level types one argument group contributes: its scalars in
    order, or one pointer to the aggregate. *)
Definition argGroupTypes (Ty : SwiftType) : list LType :=
  match getSchema (getFragileTypeInfo Ty) with
  | RValueSchema.forScalars Tys => Tys
  | RValueSchema.forAggregate AggTy _ => [PointerTy AggTy]
  end.

(** The argument groups of a formal input: the fields of a tuple, one
    level deep, or the input itself. *)
Definition argGroups (Input : SwiftType) : list SwiftType :=
  match Input with
  | TupleType Fields => Fields
  | _ => [Input]
  end.

Definition inputArgTypes (Input : SwiftType) : list LType :=
  flat_map argGroupTypes (argGroups Input).

(** The four-way rule for the return type, in the words of the
    specification: an aggregate result and a result of no scalars give
    void, one scalar gives its own type, more scalars give a first-class
    aggregate of them in schema order. *)
Definition returnTypeRule (ResultSchema : RValueSchema.t) : LType :=
  match ResultSchema with
  | RValueSchema.forAggregate _ _ => VoidTy
  | RValueSchema.forScalars [] => VoidTy
  | RValueSchema.forScalars [T] => T
  | RValueSchema.forScalars Ts => StructTy Ts
  end.

(** The indirect-return slot: one pointer to the aggregate when the
    result is an aggregate, nothing otherwise. *)
Definition indirectReturnSlot (ResultSchema : RValueSchema.t) : list LType :=
  match ResultSchema with
  | RValueSchema.forAggregate AggTy _ => [PointerTy AggTy]
  | RValueSchema.forScalars _ => []
  end.

(** The trailing context argument. *)
Definition contextArg (NeedsData : bool) : list LType :=
  if NeedsData then [Int8PtrTy] else [].

(** The signature of [Input -> Result] the specification describes. *)
Definition signatureRule (Input Result : SwiftType) (NeedsData : bool) : LType :=
  let ResultSchema := getSchema (getFragileTypeInfo Result) in
  FunctionTy (returnTypeRule ResultSchema)
             (indirectReturnSlot ResultSchema ++ inputArgTypes Input
                ++ contextArg NeedsData)
             false.

(** The caches hold nothing but the signatures of the descriptor's own
    function type. *)
Definition cachesAgree (info : FuncTypeInfo) : Prop :=
  ∀ NeedsData t,
    cachedFunctionType NeedsData info = Some t →
    t = signatureRule (FnTy_Input info) (FnTy_Result info) NeedsData.

(** A registry in good order: every descriptor it keeps is filed under
    its own function type and caches nothing but its own signatures. *)
Definition registryAgrees (m : IRGenModule) : Prop :=
  ∀ T info, (T, info) ∈ FuncTypeInfos m →
    T = FunctionType (FnTy_Input info) (FnTy_Result info) ∧ cachesAgree info.

End Signatures.

(** ** Vocabulary of the properties

    States reached by emission, the events particular steps add to the
    trace, and the conditions the properties below are stated under. *)

Section Vocabulary.

Context `{C : Collaborators}.

(** The state after [evs] were logged and [n] numbers handed out. *)
Definition advance (evs : list Event) (n : nat) (st : IRGenFunction)
  : IRGenFunction :=
  withNextId (NextId st + n) (withTrace (Trace st ++ evs) st).

(** The three builtins with an integer and a floating-point variant. *)
Inductive ArithmeticBuiltin : Type := ArithAdd | ArithMul | ArithSub.

Definition arithKind (a : ArithmeticBuiltin) : BuiltinValueKind :=
  match a with ArithAdd => BVK_Add | ArithMul => BVK_Mul | ArithSub => BVK_Sub end.

Definition arithIntOp (a : ArithmeticBuiltin) : BinaryOp :=
  match a with ArithAdd => Add | ArithMul => Mul | ArithSub => Sub end.

Definition arithFPOp (a : ArithmeticBuiltin) : BinaryOp :=
  match a with ArithAdd => FAdd | ArithMul => FMul | ArithSub => FSub end.

(** The result slot [emitApplyExpr] sets up between lowering the callee
    and lowering the arguments: the slot's address as the leading argument
    with its attribute and the state after the allocation, or nothing. *)
Definition resultSlot (resultType : TypeInfo) (st1 : IRGenFunction)
  : list Value * list AttributeWithIndex * IRGenFunction :=
  match getSchema resultType with
  | RValueSchema.forAggregate Ty A =>
      ([Instruction (NextId st1) (PointerTy Ty)],
       [mkAttributeWithIndex 1 [StructRet; NoAlias]],
       advance [ScopedAlloca (NextId st1) Ty A] 1 st1)
  | RValueSchema.forScalars _ => ([], [], st1)
  end.

(** The extraction of components [k], [k+1], ... of [call], from number
    [id] on. *)
Definition extractEvents (call : Value) (ip : option BasicBlock)
    (id k n : nat) : list Event :=
  map (λ j, Insert (id + j) ip (ExtractValue call (k + j))) (seq 0 n).

(** The values those extractions yield. *)
Definition extractValues (call : Value) (id k n : nat) : list Value :=
  map (λ j, Instruction (id + j) (getElementType (getType call) (k + j)))
      (seq 0 n).

(** The events of the call itself: the cast of the code pointer to the
    signature, the call on the argument list, its attributes. *)
Definition callEvents (fn : Value) (sig : LType) (callArgs : list Value)
    (attrs : list AttributeWithIndex) (ip : option BasicBlock) (id : nat)
  : list Event :=
  [Insert id ip (BitCast fn (getPointerTo sig));
   Insert (S id) ip (Call (Instruction id (getPointerTo sig)) callArgs []);
   SetAttributes (S id) attrs].

(** The value of the call instruction numbered [S id]. *)
Definition callValue (sig : LType) (id : nat) : Value :=
  Instruction (S id) (getCalleeReturnType (getPointerTo sig)).

(** A call on the general path: the callee is no builtin, it lowers to
    the two values [fn] and [data] and has a function type, whose
    descriptor is [info] when the signature is asked for, and the arguments
    lower to [argvs] once the result slot is set up. *)
Definition generalCall (E : ApplyExpr) (resultType : TypeInfo)
    (st : IRGenFunction) (fn data : Value) (argvs : list Value)
    (st1 st2 : IRGenFunction) (info : FuncTypeInfo) : Prop :=
  calledBuiltin E = None
  ∧ lowerExpr (getFn E) Maximal st = Ok ([fn; data], st1)
  ∧ lowerExpr (getArg E) Minimal (resultSlot resultType st1).2 = Ok (argvs, st2)
  ∧ lookupFuncTypeInfo (Expr_getType (getFn E)) (IGM st2) = Some info.

(** The argument lists of the calls in a trace, oldest first. *)
Definition callArguments (tr : list Event) : list (list Value) :=
  flat_map (λ e, match e with
                 | Insert _ _ (Call _ Args _) => [Args]
                 | _ => []
                 end) tr.

(** How many incoming low-level arguments a formal parameter takes: one
    pointer for an aggregate, one per scalar otherwise. *)
Definition parmSlots (Parm : ArgDecl) : nat :=
  match getSchema (getFragileTypeInfo (ArgDecl_getType Parm)) with
  | RValueSchema.forAggregate _ _ => 1
  | RValueSchema.forScalars Tys => length Tys
  end.

(** How many the result takes: the indirect-return slot of an aggregate. *)
Definition resultSlots (Result : SwiftType) : nat :=
  if RValueSchema.isAggregate (getSchema (getFragileTypeInfo Result))
  then 1 else 0.


(** What storing a parameter leaves alone: the incoming arguments and the
    return slot; it may only add to the trace. *)
Definition keepsFunctionState (st st' : IRGenFunction) : Prop :=
  CurFnArgs st' = CurFnArgs st
  ∧ ReturnSlot st' = ReturnSlot st
  ∧ ∃ evs, Trace st' = Trace st ++ evs.

(** The [store] of every parameter's descriptor is of that kind. *)
Definition wellBehavedStores (Parms : list ArgDecl) : Prop :=
  ∀ Parm RV addr st u st',
    Parm ∈ Parms →
    store (getFragileTypeInfo (ArgDecl_getType Parm)) RV addr st = Ok (u, st') →
    keepsFunctionState st st'.

(** The state the first part of the prologue leaves. *)
Definition afterSetup (st : IRGenFunction) : IRGenFunction :=
  let id := NextId st in
  withReturnBB (Some (id + 2))
    (withAllocaIP (Some (id + 1))
       (withBuilderIP (Some id)
          (advance [AppendBlock id; SetInsertPoint id;
                    Insert (id + 1) (Some id) (Alloca Int1Ty);
                    AppendBlock (id + 2)] 3 st))).

(** The alignment [FuncTypeInfo] gives the access to the data field. *)
Definition dataAlignment (info : FuncTypeInfo) (address : Address) : Alignment :=
  alignmentAtOffset (getAlignment address) (FuncTypeInfo_StorageAlignment info).

(** The address of field [Idx] of the slot, computed by instruction
    [id]. *)
Definition fieldAddress (address : Address) (id Idx : nat) : Value :=
  Instruction id
    (PointerTy (getElementType (getPointeeType (getType (getAddress address)))
                               Idx)).

(** The four instructions of [FuncTypeInfo::store] and of
    [FuncTypeInfo::load] on the slot [address], numbered from [id]. *)
Definition storeEvents (info : FuncTypeInfo) (address : Address)
    (fn data : Value) (ip : option BasicBlock) (id : nat) : list Event :=
  [Insert id ip (StructGEP (getAddress address) 0);
   Insert (id + 1) ip
     (Store fn (fieldAddress address id 0) (getAlignment address));
   Insert (id + 2) ip (StructGEP (getAddress address) 1);
   Insert (id + 3) ip
     (Store data (fieldAddress address (id + 2) 1) (dataAlignment info address))].

Definition loadEvents (info : FuncTypeInfo) (address : Address)
    (ip : option BasicBlock) (id : nat) : list Event :=
  [Insert id ip (StructGEP (getAddress address) 0);
   Insert (id + 1) ip (Load (fieldAddress address id 0) (getAlignment address));
   Insert (id + 2) ip (StructGEP (getAddress address) 1);
   Insert (id + 3) ip
     (Load (fieldAddress address (id + 2) 1) (dataAlignment info address))].

(** The value a load of field [Idx] yields. *)
Definition loadedValue (address : Address) (id Idx : nat) : Value :=
  Instruction id
    (getPointeeType (getType (fieldAddress address (id - 1) Idx))).

(** The events of the control-flow resolution, one shape per branch: the
    return block dropped; a branch into it; its one predecessor continued
    in place of it; the insertion point moved to it. *)
Definition resolutionShape (RetBB : BasicBlock) (resolution : list Event) : Prop :=
  resolution = [EraseBlock RetBB]
  ∨ (∃ id bb, resolution = [Insert id (Some bb) (Br RetBB); SetInsertPoint RetBB])
  ∨ (∃ Pred BrId,
       resolution = [SetInsertPoint Pred; EraseInstruction BrId; EraseBlock RetBB])
  ∨ resolution = [SetInsertPoint RetBB].

(** The builtins lowered by [BINARY_OPERATION] or
    [BINARY_ARITHMETIC_OPERATION]: all but negation and complement. *)
Definition isBinaryBuiltin (k : BuiltinValueKind) : bool :=
  match k with
  | BVK_None | BVK_Neg | BVK_Not => false
  | _ => true
  end.

(** An r-value that has the shape and the low-level types a schema asks
    for. *)
Definition hasSchema (schema : RValueSchema.t) (rv : RValue.t) : Prop :=
  match schema, rv with
  | RValueSchema.forScalars Tys, RValue.forScalars vs => map getType vs = Tys
  | RValueSchema.forAggregate Ty _, RValue.forAggregate a => getType a = PointerTy Ty
  | _, _ => False
  end.

(** Straight-line code: instructions other than branches, and scoped
    slots. *)
Definition isStraightLine (e : Event) : bool :=
  match e with
  | Insert _ _ (Br _) | Insert _ _ (CondBr _ _ _) => false
  | Insert _ _ _ | ScopedAlloca _ _ _ => true
  | _ => false
  end.

(** The [store] of every parameter's descriptor only emits straight-line
    code: it adds such events to the trace, takes instruction numbers, and
    leaves the rest of the state as it was. *)
Definition emittingStores (Parms : list ArgDecl) : Prop :=
  ∀ Parm RV addr st u st',
    Parm ∈ Parms →
    store (getFragileTypeInfo (ArgDecl_getType Parm)) RV addr st = Ok (u, st') →
    ∃ evs n, st' = advance evs n st ∧ forallb isStraightLine evs = true.

(** An event that gives block [bb] no new use. *)
Definition addsNoUse (bb : BasicBlock) (e : Event) : bool :=
  match e with
  | Insert _ _ i => Nat.eqb (blockOperands bb i) 0
  | _ => true
  end.

(** The events of the first part of the prologue. *)
Definition setupEvents (id : nat) : list Event :=
  [AppendBlock id; SetInsertPoint id;
   Insert (id + 1) (Some id) (Alloca Int1Ty); AppendBlock (id + 2)].

(** The uses of a block among a list of live instructions. *)
Definition usesAmong (bb : BasicBlock) (live : list LiveInstr) : list LiveInstr :=
  flat_map (λ li, replicate (blockOperands bb li.2) li) live.

(** The aggregate under construction before component [k] is inserted:
    [first] to begin with, then the result of the previous insertion. *)
Definition aggregateBefore (first : Value) (id k : nat) : Value :=
  match k with
  | 0 => first
  | S k' => Instruction (id + k') (getType first)
  end.

(** The insertions of [vs] as the components [k], [k+1], ... of an
    aggregate that starts as [first], numbered from [id]. *)
Definition insertEvents (first : Value) (vs : list Value)
    (ip : option BasicBlock) (id k : nat) : list Event :=
  imap (λ j V, Insert (id + j) ip (InsertValue (aggregateBefore first id j) V (k + j)))
       vs.

(** What the epilogue emits to return the scalars [vs] from a function of
    return type [RetTy]: the one scalar itself, or the first-class
    aggregate built from undefined by inserting each scalar. *)
Definition returnEvents (RetTy : LType) (vs : list Value)
    (ip : option BasicBlock) (id : nat) : list Event :=
  match vs with
  | [V] => [Insert id ip (Ret V)]
  | _ =>
      insertEvents (UndefValue RetTy) vs ip id 0
      ++ [Insert (id + length vs) ip
            (Ret (aggregateBefore (UndefValue RetTy) id (length vs)))]
  end.

End Vocabulary.

(** ** Running emitted loads and stores

    What the straight-line code of [FuncTypeInfo::store] and
    [FuncTypeInfo::load] does when it runs.  A run-time value is undefined,
    the address of a sub-object (an allocation and a path of field
    indices) or any other word; memory maps addresses to the value last
    stored there.  Only field addressing, loads and stores are given a
    meaning. *)

Inductive RtValue : Type :=
| RtUndef
| RtAddress (Block : nat) (Path : list nat)
| RtWord (W : nat).

Record Machine : Type := mkMachine {
  ArgValues : nat → RtValue;
  GlobalValues : string → RtValue;
  Registers : gmap nat RtValue;
  Memory : gmap (nat * list nat) RtValue
}.

Definition evalValue (m : Machine) (V : Value) : option RtValue :=
  match V with
  | Argument n _ => Some (ArgValues m n)
  | UndefValue _ => Some RtUndef
  | GlobalFunction name _ => Some (GlobalValues m name)
  | Instruction id _ => Registers m !! id
  end.

Definition setRegister (id : nat) (x : RtValue) (m : Machine) : Machine :=
  mkMachine (ArgValues m) (GlobalValues m) (<[id := x]> (Registers m)) (Memory m).

Definition setMemory (a : nat * list nat) (x : RtValue) (m : Machine) : Machine :=
  mkMachine (ArgValues m) (GlobalValues m) (Registers m) (<[a := x]> (Memory m)).

Definition execInstr (id : nat) (i : Instr) (m : Machine) : option Machine :=
  match i with
  | StructGEP Ptr Idx =>
      match evalValue m Ptr with
      | Some (RtAddress b path) => Some (setRegister id (RtAddress b (path ++ [Idx])) m)
      | _ => None
      end
  | Store Val Ptr _ =>
      match evalValue m Val, evalValue m Ptr with
      | Some x, Some (RtAddress b path) => Some (setMemory (b, path) x m)
      | _, _ => None
      end
  | Load Ptr _ =>
      match evalValue m Ptr with
      | Some (RtAddress b path) =>
          match Memory m !! (b, path) with
          | Some x => Some (setRegister id x m)
          | None => None
          end
      | _ => None
      end
  | _ => None
  end.

Fixpoint execTrace (tr : list Event) (m : Machine) : option Machine :=
  match tr with
  | [] => Some m
  | Insert id _ i :: rest =>
      match execInstr id i m with
      | Some m' => execTrace rest m'
      | None => None
      end
  | _ :: _ => None
  end.

(** A value is defined in a state when it is not the result of an
    instruction that is yet to be created. *)
Definition definedIn (st : IRGenFunction) (V : Value) : Prop :=
  match V with
  | Instruction id _ => id < NextId st
  | _ => True
  end.

(** ** A small instance of the collaborators

    A target with 8-byte pointers and a registry of four kinds of types:
    [NamedType 0] is a 64-bit integer, [NamedType 1] a double, any other
    named type a four-word aggregate; a tuple is the scalars of its fields;
    a function type is the closure representation of this file.  An
    expression is given by its type and the values it lowers to. *)

Module Sample.

Definition Int64Ty : LType := IntegerTy 64.
Definition AggTy : LType := StructTy [Int64Ty; Int64Ty; Int64Ty; Int64Ty].

Fixpoint schemaOf (T : SwiftType) : RValueSchema.t :=
  match T with
  | NamedType 0 => RValueSchema.forScalars [Int64Ty]
  | NamedType 1 => RValueSchema.forScalars [DoubleTy]
  | NamedType _ => RValueSchema.forAggregate AggTy 8
  | TupleType Fields =>
      RValueSchema.forScalars
        (flat_map (λ F, RValueSchema.getScalarTypes (schemaOf F)) Fields)
  | FunctionType _ _ => RValueSchema.forScalars [Int8PtrTy; Int8PtrTy]
  end.

(** Field-by-field store and load of a scalar value. *)
Fixpoint storeFields (addr : Value) (align : Alignment) (I : nat)
    (vs : list Value) : Emit unit :=
  match vs with
  | [] => Emit_ret ()
  | V :: rest =>
      let* fieldAddr := CreateStructGEP addr I in
      CreateStore V fieldAddr align ;;
      storeFields addr align (S I) rest
  end.

Fixpoint loadFields (addr : Value) (align : Alignment) (I : nat)
    (tys : list LType) : Emit (list Value) :=
  match tys with
  | [] => Emit_ret []
  | _ :: rest =>
      let* fieldAddr := CreateStructGEP addr I in
      let* V := CreateLoad fieldAddr align in
      let* Vs := loadFields addr align (S I) rest in
      Emit_ret (V :: Vs)
  end.

Definition typeInfoOf (T : SwiftType) : TypeInfo :=
  let schema := schemaOf T in
  match schema with
  | RValueSchema.forScalars Tys =>
      mkTypeInfo (StructTy Tys) (8 * length Tys) 8 schema
        (λ a, let* Vs := loadFields (getAddress a) (getAlignment a) 0 Tys in
              Emit_ret (RValue.forScalars Vs))
        (λ RV a, storeFields (getAddress a) (getAlignment a) 0
                             (RValue.getScalars RV))
  | RValueSchema.forAggregate Ty Align =>
      mkTypeInfo Ty 32 Align schema
        (λ a, Emit_ret (RValue.forAggregate (getAddress a)))
        (λ RV a, fatal "aggregate copy is not part of the instance")
  end.

Definition builtinNamed (name : string) : BuiltinValueKind :=
  if String.eqb name "add" then BVK_Add
  else if String.eqb name "mul" then BVK_Mul
  else if String.eqb name "sub" then BVK_Sub
  else if String.eqb name "neg" then BVK_Neg
  else if String.eqb name "cmp_eq" then BVK_CmpEQ
  else BVK_None.

Record expr : Type := mkExpr {
  exprType : SwiftType;
  exprValues : list Value
}.

(** The layout and the other services, with the generic descriptors
    for every type. *)
Definition layout : Collaborators := {|
  PointerSize := 8;
  PointerABIAlignment := 8;
  alignmentAtOffset := λ a off, if Nat.eqb off 0 then a else Nat.gcd a off;
  getFragileTypeInfo := typeInfoOf;
  isBuiltinValue := builtinNamed;
  getAddrOfGlobalFunction := λ Fn, GlobalFunction (getName Fn) Int8PtrTy;
  Expr := expr;
  Expr_getType := exprType;
  lowerExpr := λ E _, Emit_ret (exprValues E);
  pastArgEnd := λ _, UndefValue VoidTy
|}.

(** The registry: function types get the descriptor of this file, built
    by [convertFunctionType] on the layout above. *)
Definition registry (T : SwiftType) : TypeInfo :=
  match T with
  | FunctionType Input Result =>
      match FuncTypeInfo_asTypeInfo (C := layout)
              (convertFunctionType (C := layout) Input Result) with
      | Ok info => info
      | Fatal _ => typeInfoOf T
      end
  | _ => typeInfoOf T
  end.

Definition collaborators : Collaborators := {|
  PointerSize := 8;
  PointerABIAlignment := 8;
  alignmentAtOffset := λ a off, if Nat.eqb off 0 then a else Nat.gcd a off;
  getFragileTypeInfo := registry;
  isBuiltinValue := builtinNamed;
  getAddrOfGlobalFunction := λ Fn, GlobalFunction (getName Fn) Int8PtrTy;
  Expr := expr;
  Expr_getType := exprType;
  lowerExpr := λ E _, Emit_ret (exprValues E);
  pastArgEnd := λ _, UndefValue VoidTy
|}.

(** An empty function state with the given type, formal parameters and
    incoming low-level arguments. *)
Definition newFunction (Ty : SwiftType) (Parms : list ArgDecl)
    (Args : list Value) (RetTy : LType) : IRGenFunction :=
  mkIRGenFunction (mkIRGenModule [] []) (mkFuncExpr Ty Parms) Args RetTy
                  None [] 0 None None None ∅.

Definition Int : SwiftType := NamedType 0.
Definition Double : SwiftType := NamedType 1.
Definition Big : SwiftType := NamedType 2.

(** A function type [(Int, Int) -> Int], a callee of that type that is a
    global function (no context), one that is a closure with a context,
    and an argument expression of two integers. *)
Definition binaryTy : SwiftType := FunctionType (TupleType [Int; Int]) Int.

Definition globalCallee : expr :=
  mkExpr binaryTy [GlobalFunction "f" Int8PtrTy; UndefValue Int8PtrTy].

(** A global function of type [(Int, Int) -> Big], whose result is an
    aggregate. *)
Definition aggregateCallee : expr :=
  mkExpr (FunctionType (TupleType [Int; Int]) Big)
         [GlobalFunction "g" Int8PtrTy; UndefValue Int8PtrTy].

Definition closureCallee : expr :=
  mkExpr binaryTy [Argument 2 Int8PtrTy; Argument 3 Int8PtrTy].

Definition twoInts : expr :=
  mkExpr (TupleType [Int; Int]) [Argument 0 Int64Ty; Argument 1 Int64Ty].

(** Functions whose prologue and epilogue are emitted: one of three
    parameters taking one, two and one incoming scalars with an aggregate
    result, so five incoming arguments; one from an integer to an integer;
    one from nothing to nothing. *)
Definition marshalledParms : list ArgDecl :=
  [mkArgDecl 10 Int; mkArgDecl 11 binaryTy; mkArgDecl 12 Int].

Definition marshalledArgs : list Value :=
  [Argument 0 (PointerTy AggTy); Argument 1 Int64Ty; Argument 2 Int8PtrTy;
   Argument 3 Int8PtrTy; Argument 4 Int64Ty].

Definition marshalled (Args : list Value) : IRGenFunction :=
  newFunction (FunctionType (TupleType [Int; binaryTy; Int]) Big)
              marshalledParms Args VoidTy.

Definition scalarFunction : IRGenFunction :=
  newFunction (FunctionType Int Int) [mkArgDecl 10 Int] [Argument 0 Int64Ty]
              Int64Ty.

Definition voidFunction : IRGenFunction :=
  newFunction (FunctionType (TupleType []) (TupleType [])) [] [] VoidTy.


(** A function from nothing to an aggregate, with the given incoming
    arguments. *)
Definition aggregateFunction (Args : list Value) : IRGenFunction :=
  newFunction (FunctionType (TupleType []) Big) [] Args VoidTy.

(** A closure-shaped slot, and a machine on which it is an address. *)
Definition closureSlot : Address :=
  mkAddress (Argument 0 (PointerTy (StructTy [Int8PtrTy; Int8PtrTy]))) 8.

Definition machine : Machine :=
  mkMachine (λ n, if Nat.eqb n 0 then RtAddress 0 [] else RtWord n)
            (λ _, RtWord 42) ∅ ∅.

(** The function the sample calls are emitted into. *)
Definition caller : IRGenFunction :=
  newFunction (FunctionType (TupleType []) (TupleType [])) [] [] VoidTy.

(** A function from nothing to a closure. *)
Definition closureFunction : IRGenFunction :=
  newFunction (FunctionType (TupleType []) binaryTy) [] []
              (StructTy [Int8PtrTy; Int8PtrTy]).

End Sample.

(** * Properties *)

Lemma SwiftType_eqb_refl (T : SwiftType) : SwiftType_eqb T T = true.
Proof.
  revert T. fix IH 1. intros [n|Fields|Input Result]; simpl.
  - apply Nat.eqb_refl.
  - induction Fields as [|F Fields IHF]; [done|].
    by rewrite IH, IHF.
  - by rewrite !IH.
Qed.

Section SignatureProperties.

Context `{C : Collaborators}.

(** Every descriptor [convertFunctionType] builds has the two-pointer
    storage type, so the [assert] of [getSchema] holds of it. *)
Lemma convertFunctionType_schema (Input Result : SwiftType) :
  FuncTypeInfo_StorageType (convertFunctionType Input Result)
  = StructTy [Int8PtrTy; Int8PtrTy]
  ∧ FuncTypeInfo_getSchema (convertFunctionType Input Result)
    = Ok (RValueSchema.forScalars [Int8PtrTy; Int8PtrTy]).
Proof. done. Qed.

Lemma foldl_push_back {A} (xs ys : list A) :
  foldl (λ acc y, push_back acc y) xs ys = xs ++ ys.
Proof.
  revert xs. induction ys as [|y ys IH]; intros xs; simpl.
  - by rewrite app_nil_r.
  - rewrite IH. unfold push_back. by rewrite <- app_assoc.
Qed.

Lemma addArgType_app (Ty : SwiftType) (ArgTypes : list LType) :
  addArgType Ty ArgTypes = ArgTypes ++ argGroupTypes Ty.
Proof.
  unfold addArgType, argGroupTypes.
  destruct (getSchema (getFragileTypeInfo Ty)) as [AggTy A|Tys]; simpl.
  - reflexivity.
  - apply foldl_push_back.
Qed.

Lemma foldl_addArgType (Fields : list SwiftType) (ArgTypes : list LType) :
  foldl (λ acc Field, addArgType Field acc) ArgTypes Fields
  = ArgTypes ++ flat_map argGroupTypes Fields.
Proof.
  revert ArgTypes. induction Fields as [|F Fields IH]; intros ArgTypes; simpl.
  - by rewrite app_nil_r.
  - rewrite IH, addArgType_app. by rewrite <- app_assoc.
Qed.

Lemma input_args_app (Input : SwiftType) (ArgTypes : list LType) :
  match getAs_TupleType Input with
  | Some Fields => foldl (λ acc Field, addArgType Field acc) ArgTypes Fields
  | None => addArgType Input ArgTypes
  end = ArgTypes ++ inputArgTypes Input.
Proof.
  unfold inputArgTypes, argGroups.
  destruct Input; simpl; rewrite ?foldl_addArgType, ?addArgType_app;
    simpl; by rewrite ?app_nil_r.
Qed.

(** A call that finds its cache empty computes the signature of the
    specification and stores it. *)
Lemma getFunctionType_miss (info : FuncTypeInfo) (NeedsData : bool) :
  cachedFunctionType NeedsData info = None →
  FuncTypeInfo_getFunctionType info NeedsData
  = (signatureRule (FnTy_Input info) (FnTy_Result info) NeedsData,
     if NeedsData
     then setFunctionTypeWithData
            (signatureRule (FnTy_Input info) (FnTy_Result info) true) info
     else setFunctionTypeWithoutData
            (signatureRule (FnTy_Input info) (FnTy_Result info) false) info).
Proof.
  intros Hmiss. unfold FuncTypeInfo_getFunctionType, signatureRule.
  destruct NeedsData; simpl in *; rewrite Hmiss.
  - destruct (getSchema (getFragileTypeInfo (FnTy_Result info)))
      as [AggTy A|[|T [|T' Ts]]]; simpl;
      rewrite input_args_app; unfold push_back, contextArg; simpl;
      by rewrite <- ?app_assoc.
  - destruct (getSchema (getFragileTypeInfo (FnTy_Result info)))
      as [AggTy A|[|T [|T' Ts]]]; simpl;
      rewrite input_args_app; unfold push_back, contextArg; simpl;
      by rewrite ?app_nil_r.
Qed.

(** A call that finds its cache filled returns what is there and leaves
    the descriptor alone. *)
Lemma getFunctionType_hit (info : FuncTypeInfo) (NeedsData : bool) (t : LType) :
  cachedFunctionType NeedsData info = Some t →
  FuncTypeInfo_getFunctionType info NeedsData = (t, info).
Proof.
  intros Hhit. unfold FuncTypeInfo_getFunctionType.
  destruct NeedsData; simpl in *; by rewrite Hhit.
Qed.

Lemma convertFunctionType_cachesAgree (Input Result : SwiftType) :
  cachesAgree (convertFunctionType Input Result).
Proof. intros [] t; simpl; discriminate. Qed.

Lemma getFunctionType_FnTy (info : FuncTypeInfo) (NeedsData : bool) :
  FnTy_Input (FuncTypeInfo_getFunctionType info NeedsData).2 = FnTy_Input info
  ∧ FnTy_Result (FuncTypeInfo_getFunctionType info NeedsData).2
    = FnTy_Result info.
Proof.
  destruct (cachedFunctionType NeedsData info) as [t|] eqn:Hc.
  - by rewrite (getFunctionType_hit _ _ _ Hc).
  - rewrite (getFunctionType_miss _ _ Hc). by destruct NeedsData.
Qed.

Lemma getFunctionType_cachesAgree (info : FuncTypeInfo) (NeedsData : bool) :
  cachesAgree info →
  cachesAgree (FuncTypeInfo_getFunctionType info NeedsData).2.
Proof.
  intros Hok. destruct (cachedFunctionType NeedsData info) as [t|] eqn:Hc.
  - by rewrite (getFunctionType_hit _ _ _ Hc).
  - rewrite (getFunctionType_miss _ _ Hc).
    intros b t Hb. destruct NeedsData, b; simpl in *;
      try (injection Hb as <-; reflexivity);
      [exact (Hok false t Hb) | exact (Hok true t Hb)].
Qed.

Lemma getFunctionType_signature (info : FuncTypeInfo) (NeedsData : bool) :
  cachesAgree info →
  (FuncTypeInfo_getFunctionType info NeedsData).1
  = signatureRule (FnTy_Input info) (FnTy_Result info) NeedsData.
Proof.
  intros Hok. destruct (cachedFunctionType NeedsData info) as [t|] eqn:Hc.
  - rewrite (getFunctionType_hit _ _ _ Hc). simpl. by apply Hok.
  - by rewrite (getFunctionType_miss _ _ Hc).
Qed.

Lemma afterCalls_inv (info : FuncTypeInfo) (history : list bool) :
  cachesAgree info →
  cachesAgree (afterCalls info history)
  ∧ FnTy_Input (afterCalls info history) = FnTy_Input info
  ∧ FnTy_Result (afterCalls info history) = FnTy_Result info.
Proof.
  revert info. induction history as [|b history IH]; intros info Hok; simpl.
  - done.
  - destruct (IH _ (getFunctionType_cachesAgree info b Hok)) as (H1 & H2 & H3).
    destruct (getFunctionType_FnTy info b) as [E1 E2].
    split; [done|]. by rewrite H2, H3.
Qed.

(** C1.  For every function type [Input -> Result], whatever calls its
    descriptor has served before and whichever flag is asked for, the
    signature [getFunctionType] returns follows the four-way rule on the
    schema of the result type: an aggregate result gives a void return type
    and a pointer to the aggregate type as the first parameter; no scalars
    give void; one scalar gives that scalar's type; more than one give a
    first-class aggregate of them in schema order.  The parameters that
    follow are those of the input, and the context pointer comes last when
    asked for. *)
Theorem getFunctionType_four_way_rule
    (Input Result : SwiftType) (history : list bool) (NeedsData : bool) :
  let info := afterCalls (convertFunctionType Input Result) history in
  let ResultSchema := getSchema (getFragileTypeInfo Result) in
  (FuncTypeInfo_getFunctionType info NeedsData).1
  = FunctionTy
      (match ResultSchema with
       | RValueSchema.forAggregate _ _ => VoidTy
       | RValueSchema.forScalars [] => VoidTy
       | RValueSchema.forScalars [T] => T
       | RValueSchema.forScalars Ts => StructTy Ts
       end)
      (match ResultSchema with
       | RValueSchema.forAggregate AggTy _ => [PointerTy AggTy]
       | RValueSchema.forScalars _ => []
       end ++ inputArgTypes Input ++ (if NeedsData then [Int8PtrTy] else []))
      false.
Proof.
  intros info ResultSchema.
  destruct (afterCalls_inv (convertFunctionType Input Result) history
              (convertFunctionType_cachesAgree Input Result))
    as (Hok & Hin & Hres).
  fold info in Hok, Hin, Hres.
  rewrite (getFunctionType_signature info NeedsData Hok), Hin, Hres.
  reflexivity.
Qed.

(** C4.  Calling [getFunctionType] twice with the same flag returns the
    same signature both times, the second time from the cache and without
    touching the descriptor; and a signature cached for one flag survives
    the computation of the other: it stays in its field, and the next call
    for it returns that very object, whatever it is, and computes nothing. *)
Theorem getFunctionType_memoized (info : FuncTypeInfo) (NeedsData : bool) :
  let first := FuncTypeInfo_getFunctionType info NeedsData in
  let second := FuncTypeInfo_getFunctionType first.2 NeedsData in
  cachedFunctionType NeedsData first.2 = Some first.1
  ∧ second = (first.1, first.2)
  ∧ (∀ cached,
       cachedFunctionType (negb NeedsData) info = Some cached →
       cachedFunctionType (negb NeedsData) first.2 = Some cached
       ∧ FuncTypeInfo_getFunctionType first.2 (negb NeedsData)
         = (cached, first.2)).
Proof.
  intros first second.
  assert (Hfirst : cachedFunctionType NeedsData first.2 = Some first.1).
  { subst first. destruct (cachedFunctionType NeedsData info) as [t|] eqn:Hc.
    - by rewrite (getFunctionType_hit _ _ _ Hc).
    - rewrite (getFunctionType_miss _ _ Hc). by destruct NeedsData. }
  split; [exact Hfirst|]. split.
  - subst second. by apply getFunctionType_hit.
  - intros cached Hother.
    assert (Hkept : cachedFunctionType (negb NeedsData) first.2 = Some cached).
    { subst first. destruct (cachedFunctionType NeedsData info) as [t|] eqn:Hc.
      - by rewrite (getFunctionType_hit _ _ _ Hc).
      - rewrite (getFunctionType_miss _ _ Hc). by destruct NeedsData. }
    split; [exact Hkept|]. by apply getFunctionType_hit.
Qed.

End SignatureProperties.

(** ** Running the builder *)

Lemma advance_nil (st : IRGenFunction) : advance [] 0 st = st.
Proof.
  destruct st. unfold advance, withNextId, withTrace. simpl.
  by rewrite app_nil_r, Nat.add_0_r.
Qed.

Lemma advance_advance (evs evs' : list Event) (n n' : nat) (st : IRGenFunction) :
  advance evs' n' (advance evs n st) = advance (evs ++ evs') (n + n') st.
Proof.
  destruct st. unfold advance, withNextId, withTrace. simpl.
  by rewrite app_assoc, Nat.add_assoc.
Qed.

Lemma emitInstr_run (i : Instr) (ty : LType) (st : IRGenFunction) :
  emitInstr i ty st
  = Ok (Instruction (NextId st) ty,
        advance [Insert (NextId st) (BuilderIP st) i] 1 st).
Proof.
  destruct st. unfold emitInstr, advance, withNextId, withTrace. simpl.
  by rewrite Nat.add_1_r.
Qed.

Lemma freshId_run (st : IRGenFunction) :
  freshId st = Ok (NextId st, advance [] 1 st).
Proof.
  destruct st. unfold freshId, advance, withNextId, withTrace. simpl.
  by rewrite app_nil_r, Nat.add_1_r.
Qed.

Lemma createScopeAlloca_run (ty : LType) (align : Alignment) (st : IRGenFunction) :
  createScopeAlloca ty align st
  = Ok (mkAddress (Instruction (NextId st) (PointerTy ty)) align,
        advance [ScopedAlloca (NextId st) ty align] 1 st).
Proof.
  destruct st. unfold createScopeAlloca, advance, withNextId, withTrace. simpl.
  by rewrite Nat.add_1_r.
Qed.

Lemma logEvent_run (e : Event) (st : IRGenFunction) :
  logEvent e st = Ok ((), advance [e] 0 st).
Proof.
  destruct st. unfold logEvent, advance, withNextId, withTrace. simpl.
  by rewrite Nat.add_0_r.
Qed.

Lemma NextId_advance evs n st : NextId (advance evs n st) = NextId st + n.
Proof. by destruct st. Qed.

Lemma BuilderIP_advance evs n st : BuilderIP (advance evs n st) = BuilderIP st.
Proof. by destruct st. Qed.

Lemma Trace_advance evs n st : Trace (advance evs n st) = Trace st ++ evs.
Proof. by destruct st. Qed.

Lemma IGM_advance evs n st : IGM (advance evs n st) = IGM st.
Proof. by destruct st. Qed.

(** *** The algebra of states

    Field updates commute with [advance], and the projections of an
    updated or advanced state that the proofs meet are known. *)

Lemma withBuilderIP_advance x evs n st :
  withBuilderIP x (advance evs n st) = advance evs n (withBuilderIP x st).
Proof. by destruct st. Qed.

Lemma NextId_withBuilderIP x st :
  NextId (withBuilderIP x st) = NextId st.
Proof. by destruct st. Qed.

Lemma BuilderIP_withBuilderIP x st :
  BuilderIP (withBuilderIP x st) = x.
Proof. by destruct st. Qed.

Lemma Trace_withBuilderIP x st :
  Trace (withBuilderIP x st) = Trace st.
Proof. by destruct st. Qed.

Lemma withAllocaIP_advance x evs n st :
  withAllocaIP x (advance evs n st) = advance evs n (withAllocaIP x st).
Proof. by destruct st. Qed.

Lemma NextId_withAllocaIP x st :
  NextId (withAllocaIP x st) = NextId st.
Proof. by destruct st. Qed.

Lemma BuilderIP_withAllocaIP x st :
  BuilderIP (withAllocaIP x st) = BuilderIP st.
Proof. by destruct st. Qed.

Lemma Trace_withAllocaIP x st :
  Trace (withAllocaIP x st) = Trace st.
Proof. by destruct st. Qed.

Lemma withReturnBB_advance x evs n st :
  withReturnBB x (advance evs n st) = advance evs n (withReturnBB x st).
Proof. by destruct st. Qed.

Lemma NextId_withReturnBB x st :
  NextId (withReturnBB x st) = NextId st.
Proof. by destruct st. Qed.

Lemma BuilderIP_withReturnBB x st :
  BuilderIP (withReturnBB x st) = BuilderIP st.
Proof. by destruct st. Qed.

Lemma Trace_withReturnBB x st :
  Trace (withReturnBB x st) = Trace st.
Proof. by destruct st. Qed.

Lemma CurFnArgs_withReturnSlot x st :
  CurFnArgs (withReturnSlot x st) = CurFnArgs st.
Proof. by destruct st. Qed.

Lemma Trace_withReturnSlot x st :
  Trace (withReturnSlot x st) = Trace st.
Proof. by destruct st. Qed.

Lemma ReturnSlot_withReturnSlot x st :
  ReturnSlot (withReturnSlot x st) = x.
Proof. by destruct st. Qed.

Lemma CurFnArgs_advance evs n st :
  CurFnArgs (advance evs n st) = CurFnArgs st.
Proof. by destruct st. Qed.

Create Rewrite HintDb emit_state.
#[global] Hint Rewrite withBuilderIP_advance NextId_withBuilderIP BuilderIP_withBuilderIP
  : emit_state.
#[global] Hint Rewrite Trace_withBuilderIP withAllocaIP_advance NextId_withAllocaIP
  : emit_state.
#[global] Hint Rewrite BuilderIP_withAllocaIP Trace_withAllocaIP withReturnBB_advance
  : emit_state.
#[global] Hint Rewrite NextId_withReturnBB BuilderIP_withReturnBB Trace_withReturnBB
  : emit_state.
#[global] Hint Rewrite CurFnArgs_withReturnSlot Trace_withReturnSlot ReturnSlot_withReturnSlot
  : emit_state.
#[global] Hint Rewrite CurFnArgs_advance advance_advance NextId_advance
  : emit_state.
#[global] Hint Rewrite BuilderIP_advance Trace_advance IGM_advance
  : emit_state.

(** Bring a state built by successive builder steps to the form
    [advance evs n st], with the field updates innermost. *)
Ltac norm_state :=
  autorewrite with emit_state;
  cbn [app Nat.add].

(** Close a goal that compares two results up to the way the state
    record was rebuilt. *)
Ltac emit_done :=
  unfold Emit_ret, advance, withTrace, withNextId, withIGM, withBuilderIP,
         withAllocaIP, withReturnBB, withReturnSlot, withLocals,
         Explosion.getAll, Explosion.add, Explosion.new;
  repeat match goal with st : IRGenFunction |- _ => destruct st end;
  simpl;
  rewrite ?Nat.add_1_r, ?Nat.add_0_r, ?app_nil_r;
  simpl;
  repeat (f_equal; try reflexivity; try lia).

Lemma bind_run {A B} (m : Emit A) (k : A → Emit B) (st st' : IRGenFunction) (a : A) :
  m st = Ok (a, st') → Emit_bind m k st = k a st'.
Proof. intros H. unfold Emit_bind. by rewrite H. Qed.

Lemma bind_fatal {A B} (m : Emit A) (k : A → Emit B) (st : IRGenFunction) msg :
  m st = Fatal msg → Emit_bind m k st = Fatal msg.
Proof. intros H. unfold Emit_bind. by rewrite H. Qed.

(** What a successful sequence was made of. *)
Lemma bind_inv {A B} (m : Emit A) (k : A → Emit B) (st st' : IRGenFunction) (b : B) :
  Emit_bind m k st = Ok (b, st') →
  ∃ a st1, m st = Ok (a, st1) ∧ k a st1 = Ok (b, st').
Proof.
  unfold Emit_bind. destruct (m st) as [[a st1]|msg]; [|discriminate].
  intros H. by exists a, st1.
Qed.

Lemma assertion_inv (cond : bool) (msg : string) (st st' : IRGenFunction) u :
  assertion cond msg st = Ok (u, st') → cond = true ∧ st' = st.
Proof.
  destruct cond; simpl; [|discriminate]. unfold Emit_ret. by intros [= _ <-].
Qed.

(** ** Builtin arithmetic *)

Section BuiltinProperties.

Context `{C : Collaborators}.

(** C7.  A builtin call to add, multiply or subtract whose argument lowers
    to two operands emits exactly one binary operation on them, chosen by
    the low-level type of the first operand: the floating-point variant
    ([FAdd], [FMul], [FSub]) when that type is floating-point, the integer
    variant ([Add], [Mul], [Sub]) otherwise; the result is that operation's
    value. *)
Theorem builtin_arithmetic_dispatch
    (a : ArithmeticBuiltin) (Fn : ValueDecl) (Arg : Expr) (resultType : TypeInfo)
    (lhs rhs : Value) (st st1 : IRGenFunction) :
  isBuiltinValue (getName Fn) = arithKind a →
  RValueSchema.isScalar (getSchema resultType) = true →
  lowerExpr Arg Minimal st = Ok ([lhs; rhs], st1) →
  emitBuiltinCall Fn Arg resultType st
  = Ok (RValue.forScalars [Instruction (NextId st1) (getType lhs)],
        advance
          [Insert (NextId st1) (BuilderIP st1)
             (BinOp (if isFloatingPointTy (getType lhs)
                     then arithFPOp a else arithIntOp a) lhs rhs)]
          1 st1).
Proof.
  intros Hkind Hscalar Hargs.
  unfold emitBuiltinCall. rewrite Hscalar. simpl.
  unfold emitExplodedRValue.
  rewrite (bind_run _ _ st st ()); [|reflexivity].
  rewrite (bind_run _ _ st st1 (Explosion.add [lhs; rhs] (Explosion.new Minimal)));
    [|unfold Emit_bind; simpl; by rewrite Hargs].
  rewrite Hkind.
  destruct a; simpl; unfold BINARY_ARITHMETIC_OPERATION, Emit_bind; simpl;
    destruct (isFloatingPointTy (getType lhs)); simpl; emit_done.
Qed.

End BuiltinProperties.

(** A floating-point and an integer addition on the sample target. *)
Lemma builtin_arithmetic_dispatch_witness :
  let addDecl := mkValueDecl FuncDeclKind "add" TheBuiltinModule in
  let x := Argument 0 DoubleTy in
  let y := Argument 1 DoubleTy in
  let st := Sample.newFunction (FunctionType Sample.Double Sample.Double) [] [] DoubleTy in
  emitBuiltinCall (C := Sample.collaborators) addDecl
    (Sample.mkExpr (TupleType [Sample.Double; Sample.Double]) [x; y])
    (Sample.typeInfoOf Sample.Double) st
  = Ok (RValue.forScalars [Instruction 0 DoubleTy],
        advance [Insert 0 None (BinOp FAdd x y)] 1 st).
Proof.
  intros addDecl x y st.
  exact (builtin_arithmetic_dispatch (C:=Sample.collaborators) ArithAdd addDecl
           (Sample.mkExpr (TupleType [Sample.Double; Sample.Double]) [x; y])
           (Sample.typeInfoOf Sample.Double) x y st st
           eq_refl eq_refl eq_refl).
Defined.

(** ** Call emission *)

Section CallProperties.

Context `{C : Collaborators}.

Lemma extract_loop (call : Value) (n k : nat) (acc : list Value)
    (st : IRGenFunction) :
  forEach (λ result I,
             let* scalar := CreateExtractValue call I in
             Emit_ret (push_back result scalar))
          (seq k n) acc st
  = Ok (acc ++ extractValues call (NextId st) k n,
        advance (extractEvents call (BuilderIP st) (NextId st) k n) n st).
Proof.
  revert k acc st. induction n as [|n IH]; intros k acc st.
  - simpl. unfold extractValues, extractEvents. simpl.
    by rewrite app_nil_r, advance_nil.
  - cbn [seq forEach].
    erewrite bind_run; last first.
    { unfold CreateExtractValue.
      erewrite bind_run; [|apply emitInstr_run]. reflexivity. }
    rewrite IH. unfold extractValues, extractEvents, push_back.
    rewrite advance_advance. cbn [seq map].
    rewrite <- !fmap_S_seq, <- !list_fmap_compose.
    rewrite <- app_assoc. simpl.
    rewrite !Nat.add_0_r.
    f_equal. f_equal.
    + f_equal. f_equal. apply list_fmap_ext. intros _ j _. simpl.
      f_equal; [lia | f_equal; lia].
    + f_equal. f_equal. apply list_fmap_ext. intros _ j _. simpl.
      f_equal; [lia | f_equal; lia].
Qed.

(** The general path, run: with the callee lowered to [fn] and [data] and
    the arguments to [argvs], on a callee of function type whose
    descriptor is [info]. *)
Lemma emitApplyExpr_general_run
    (E : ApplyExpr) (resultType : TypeInfo) (fn data : Value)
    (argvs : list Value) (st st1 st2 : IRGenFunction) (info : FuncTypeInfo) :
  lowerExpr (getFn E) Maximal st = Ok ([fn; data], st1) →
  lowerExpr (getArg E) Minimal (resultSlot resultType st1).2 = Ok (argvs, st2) →
  lookupFuncTypeInfo (Expr_getType (getFn E)) (IGM st2) = Some info →
  let needsData := negb (isa_UndefValue data) in
  let sig := (FuncTypeInfo_getFunctionType info needsData).1 in
  let info' := (FuncTypeInfo_getFunctionType info needsData).2 in
  let slot := (resultSlot resultType st1).1.1 in
  let attrs := (resultSlot resultType st1).1.2 in
  let callArgs := slot ++ argvs ++ (if needsData then [data] else []) in
  let id := NextId st2 in
  let ip := BuilderIP st2 in
  let call := callValue sig id in
  let st3 :=
    withIGM (storeFuncTypeInfo (Expr_getType (getFn E)) info' (IGM st2)) st2 in
  let evs := callEvents fn sig callArgs attrs ip id in
  emitApplyExpr_general E resultType st
  = match getSchema resultType with
    | RValueSchema.forAggregate Ty _ =>
        Ok (RValue.forAggregate (Instruction (NextId st1) (PointerTy Ty)),
            advance evs 2 st3)
    | RValueSchema.forScalars Tys =>
        if Nat.eqb (length Tys) 1
        then Ok (RValue.forScalars [call], advance evs 2 st3)
        else Ok (RValue.forScalars (extractValues call (S (S id)) 0 (length Tys)),
                 advance (evs ++ extractEvents call ip (S (S id)) 0 (length Tys))
                         (2 + length Tys) st3)
    end.
Proof.
  intros Hfn Harg Hinfo needsData sig info' slot attrs callArgs id ip call st3 evs.
  assert (Hsig : IRGenModule_getFunctionType (Expr_getType (getFn E)) needsData st2
                 = Ok (sig, st3)).
  { unfold IRGenModule_getFunctionType.
    erewrite bind_run; [|reflexivity]. rewrite Hinfo.
    subst sig info' st3.
    destruct (FuncTypeInfo_getFunctionType info needsData) as [s0 i0].
    reflexivity. }
  assert (Hid3 : NextId st3 = id) by reflexivity.
  assert (Hip3 : BuilderIP st3 = ip) by reflexivity.
  clearbody st3 sig info' id ip.
  unfold emitApplyExpr_general. cbv zeta.
  erewrite bind_run; last first.
  { unfold emitExplodedRValue. cbn [Explosion.Kind Explosion.new].
    erewrite bind_run; [reflexivity | exact Hfn]. }
  erewrite bind_run; [|reflexivity]. cbv beta iota.
  erewrite bind_run; [|reflexivity]. cbv beta iota.
  erewrite bind_run; [|reflexivity].
  unfold resultSlot in *.
  destruct (getSchema resultType) as [Ty A|Tys];
    cbn [RValueSchema.isAggregate RValueSchema.getAggregateType
         RValueSchema.getAggregateAlignment RValueSchema.getScalarTypes
         fst snd] in *; cbv beta iota.
  - erewrite bind_run; last first.
    { erewrite bind_run; [reflexivity|apply createScopeAlloca_run]. }
    erewrite bind_run; last first.
    { unfold emitExplodedRValue. cbn.
      erewrite bind_run; [reflexivity | exact Harg]. }
    erewrite bind_run; [|exact Hsig].
    erewrite bind_run; [|apply emitInstr_run].
    erewrite bind_run; [|apply emitInstr_run].
    cbn [ArgList_Values ArgList_Attrs ArgList_new Explosion.add Explosion.new
         Explosion.Kind Explosion.Values Explosion.NextValue push_back
         getAddress app setAttributes].
    erewrite bind_run; [|apply logEvent_run].
    norm_state. rewrite Hid3, Hip3.
    subst slot attrs callArgs call evs needsData.
    unfold callEvents, callValue.
    destruct (isa_UndefValue data); cbn; rewrite ?Nat.add_1_r, ?app_nil_r;
      reflexivity.
  - erewrite bind_run; [|reflexivity].
    erewrite bind_run; last first.
    { unfold emitExplodedRValue. cbn.
      erewrite bind_run; [reflexivity | exact Harg]. }
    erewrite bind_run; [|exact Hsig].
    erewrite bind_run; [|apply emitInstr_run].
    erewrite bind_run; [|apply emitInstr_run].
    cbn [ArgList_Values ArgList_Attrs ArgList_new Explosion.add Explosion.new
         Explosion.Kind Explosion.Values Explosion.NextValue push_back
         getAddress app setAttributes].
    erewrite bind_run; [|apply logEvent_run].
    norm_state. rewrite Hid3, Hip3.
    subst slot attrs callArgs call evs needsData.
    unfold callEvents, callValue.
    destruct (Nat.eqb (length Tys) 1) eqn:Hlen.
    + destruct (isa_UndefValue data); cbn; rewrite ?Nat.add_1_r, ?app_nil_r;
        reflexivity.
    + erewrite bind_run; [|apply extract_loop].
      norm_state. rewrite Hid3, Hip3.
      replace (id + 1) with (S id) by lia.
      replace (id + 2) with (S (S id)) by lia.
      unfold Explosion.getAll.
      destruct (isa_UndefValue data);
        cbn [negb ArgList_Values ArgList_Attrs Explosion.add Explosion.new
             Explosion.Kind Explosion.Values Explosion.NextValue app drop
             getType];
        rewrite ?app_nil_r; reflexivity.
Qed.

Lemma getFunctionType_cached (info : FuncTypeInfo) (NeedsData : bool) :
  cachedFunctionType NeedsData (FuncTypeInfo_getFunctionType info NeedsData).2
  = Some (FuncTypeInfo_getFunctionType info NeedsData).1.
Proof.
  destruct (cachedFunctionType NeedsData info) as [t|] eqn:Hc.
  - by rewrite (getFunctionType_hit _ _ _ Hc).
  - rewrite (getFunctionType_miss _ _ Hc). by destruct NeedsData.
Qed.

(** C2, amended.  For every call emitted through the general path the
    argument list of the emitted call is the address of the indirect-return
    slot, when the expected result is an aggregate, followed by exactly the
    flattened explicit arguments and then by the context: if the callee's
    second scalar is the undefined sentinel the signature asked for is the
    one without data and nothing follows the explicit arguments; for any
    other second scalar it is the one with data and exactly one argument
    follows, that scalar, placed last.  The code pointer is cast to the
    signature so selected, which is what the descriptor then caches under
    that flag. *)
Theorem context_elision
    (E : ApplyExpr) (resultType : TypeInfo) (st : IRGenFunction)
    (fn data : Value) (argvs : list Value) (st1 st2 : IRGenFunction)
    (info : FuncTypeInfo) :
  generalCall E resultType st fn data argvs st1 st2 info →
  let needsData := negb (isa_UndefValue data) in
  let sig := (FuncTypeInfo_getFunctionType info needsData).1 in
  let info' := (FuncTypeInfo_getFunctionType info needsData).2 in
  let slot := (resultSlot resultType st1).1.1 in
  let attrs := (resultSlot resultType st1).1.2 in
  let context := if isa_UndefValue data then [] else [data] in
  ∃ rv st' extracts,
    emitApplyExpr E resultType st = Ok (rv, st')
    ∧ Trace st'
      = Trace st2
        ++ callEvents fn sig (slot ++ argvs ++ context) attrs
                      (BuilderIP st2) (NextId st2)
        ++ extracts
    ∧ callArguments extracts = []
    ∧ lookupFuncTypeInfo (Expr_getType (getFn E)) (IGM st') = Some info'
    ∧ cachedFunctionType needsData info' = Some sig.
Proof.
  intros (Hgen & Hfn & Harg & Hinfo) needsData sig info' slot attrs context.
  pose proof (emitApplyExpr_general_run E resultType fn data argvs st st1 st2
                info Hfn Harg Hinfo) as Hrun.
  cbv zeta in Hrun. fold needsData sig info' slot attrs in Hrun.
  unfold emitApplyExpr. rewrite Hgen, Hrun. clear Hrun.
  assert (Hctx : (if needsData then [data] else []) = context).
  { subst needsData context. by destruct (isa_UndefValue data). }
  rewrite Hctx.
  assert (Hlook : ∀ m,
    lookupFuncTypeInfo (Expr_getType (getFn E))
      (storeFuncTypeInfo (Expr_getType (getFn E)) info' m) = Some info').
  { intros m. unfold lookupFuncTypeInfo in *.
    destruct (getAs_FunctionType (Expr_getType (getFn E))) as [[I R]|];
      [|discriminate].
    unfold storeFuncTypeInfo. simpl.
    by rewrite SwiftType_eqb_refl. }
  destruct (getSchema resultType) as [Ty A|Tys].
  - exists (RValue.forAggregate (Instruction (NextId st1) (PointerTy Ty))),
           (advance (callEvents fn sig (slot ++ argvs ++ context) attrs
                       (BuilderIP st2) (NextId st2)) 2
              (withIGM (storeFuncTypeInfo (Expr_getType (getFn E)) info'
                          (IGM st2)) st2)), [].
    rewrite Trace_advance, IGM_advance, app_nil_r. simpl.
    repeat split; try done. apply getFunctionType_cached.
  - destruct (Nat.eqb (length Tys) 1).
    + eexists _, _, []. rewrite app_nil_r.
      split; [reflexivity|]. rewrite Trace_advance, IGM_advance. simpl.
      repeat split; try done. apply getFunctionType_cached.
    + eexists _, _, _. split; [reflexivity|].
      rewrite Trace_advance, IGM_advance. simpl.
      repeat split; try done; [|apply getFunctionType_cached].
      unfold extractEvents, callArguments.
      induction (seq 0 (length Tys)) as [|j js IH]; [done|]. simpl. exact IH.
Qed.

(** C3.  On the general path the result is rebuilt from the call as the
    expected result schema says.  With [N >= 2] scalar slots the components
    of the call's aggregate return are extracted at the indices [0], [1],
    ..., [N-1], in that order and with nothing in between, and the result
    is those [N] values in the same order.  With one slot the result is the
    call's own value and nothing is extracted.  With an aggregate schema
    exactly one argument is put before the explicit ones, the address of the
    slot allocated beforehand, the call carries the struct-return and
    no-alias attributes at that parameter (index 1), and the result is the
    aggregate at that same address. *)
Theorem result_reconstruction
    (E : ApplyExpr) (resultType : TypeInfo) (st : IRGenFunction)
    (fn data : Value) (argvs : list Value) (st1 st2 : IRGenFunction)
    (info : FuncTypeInfo) :
  generalCall E resultType st fn data argvs st1 st2 info →
  let needsData := negb (isa_UndefValue data) in
  let sig := (FuncTypeInfo_getFunctionType info needsData).1 in
  let context := if needsData then [data] else [] in
  let id := NextId st2 in
  let ip := BuilderIP st2 in
  let call := callValue sig id in
  ∃ rv st',
    emitApplyExpr E resultType st = Ok (rv, st')
    ∧ match getSchema resultType with
      | RValueSchema.forScalars Tys =>
          let N := length Tys in
          (2 ≤ N →
             rv = RValue.forScalars
                    (map (λ I, Instruction (S (S id) + I)
                                 (getElementType (getType call) I))
                         (seq 0 N))
             ∧ Trace st'
               = Trace st2
                 ++ callEvents fn sig (argvs ++ context) [] ip id
                 ++ map (λ I, Insert (S (S id) + I) ip (ExtractValue call I))
                        (seq 0 N))
          ∧ (N = 1 →
             rv = RValue.forScalars [call]
             ∧ Trace st'
               = Trace st2 ++ callEvents fn sig (argvs ++ context) [] ip id)
      | RValueSchema.forAggregate Ty A =>
          let slot := Instruction (NextId st1) (PointerTy Ty) in
          createFullExprAlloca Ty A st1
          = Ok (mkAddress slot A, (resultSlot resultType st1).2)
          ∧ rv = RValue.forAggregate slot
          ∧ Trace st'
            = Trace st2
              ++ callEvents fn sig (slot :: argvs ++ context)
                   [mkAttributeWithIndex 1 [StructRet; NoAlias]] ip id
      end.
Proof.
  intros (Hgen & Hfn & Harg & Hinfo) needsData sig context id ip call.
  pose proof (emitApplyExpr_general_run E resultType fn data argvs st st1 st2
                info Hfn Harg Hinfo) as Hrun.
  cbv zeta in Hrun. fold needsData sig context id ip call in Hrun.
  unfold emitApplyExpr. rewrite Hgen, Hrun. clear Hrun.
  unfold resultSlot.
  destruct (getSchema resultType) as [Ty A|Tys]; cbn [fst snd].
  - eexists _, _. split; [reflexivity|]. cbv zeta.
    split; [apply createScopeAlloca_run|]. split; [reflexivity|].
    by rewrite Trace_advance.
  - destruct (Nat.eqb_spec (length Tys) 1) as [Hone|Hnot].
    + eexists _, _. split; [reflexivity|]. cbv zeta. split; [lia|].
      intros _. split; [reflexivity|]. by rewrite Trace_advance.
    + eexists _, _. split; [reflexivity|]. cbv zeta. split; [|lia].
      intros _. split; [reflexivity|]. rewrite Trace_advance.
      reflexivity.
Qed.

(** C10.  [tryEmitApplyAsAddress] returns [Nothing], and emits nothing,
    when the schema of the expected result type is not an aggregate.  When
    it is one, the function hands the expression to [emitApplyExpr] and
    returns the address of the aggregate that comes back, at the storage
    alignment of the result type; it fails only where [emitApplyExpr]
    fails, and it never returns [Nothing]: so [Nothing] is returned exactly
    for the schemas that are not aggregate.  On the general path the call is
    emitted and the address returned is that of the result slot. *)
Theorem tryEmitApplyAsAddress_spec
    (E : ApplyExpr) (resultType : TypeInfo) (st : IRGenFunction) :
  (RValueSchema.isAggregate (getSchema resultType) = false →
     tryEmitApplyAsAddress E resultType st = Ok (None, st))
  ∧ (RValueSchema.isAggregate (getSchema resultType) = true →
     match emitApplyExpr E resultType st with
     | Ok (rv, st') =>
         ∃ slot, rv = RValue.forAggregate slot
                 ∧ tryEmitApplyAsAddress E resultType st
                   = Ok (Some (mkAddress slot (StorageAlignment resultType)), st')
     | Fatal msg => tryEmitApplyAsAddress E resultType st = Fatal msg
     end)
  ∧ (∀ st', tryEmitApplyAsAddress E resultType st = Ok (None, st') →
            RValueSchema.isAggregate (getSchema resultType) = false)
  ∧ (∀ fn data argvs st1 st2 info,
       RValueSchema.isAggregate (getSchema resultType) = true →
       generalCall E resultType st fn data argvs st1 st2 info →
       ∃ slot st',
         (resultSlot resultType st1).1.1 = [slot]
         ∧ tryEmitApplyAsAddress E resultType st
           = Ok (Some (mkAddress slot (StorageAlignment resultType)), st')
         ∧ callArguments (drop (length (Trace st2)) (Trace st'))
           = [slot :: argvs ++ (if isa_UndefValue data then [] else [data])]).
Proof.
  assert (Hagg : RValueSchema.isAggregate (getSchema resultType) = true →
    match emitApplyExpr E resultType st with
    | Ok (rv, st') =>
        ∃ slot, rv = RValue.forAggregate slot
                ∧ tryEmitApplyAsAddress E resultType st
                  = Ok (Some (mkAddress slot (StorageAlignment resultType)), st')
    | Fatal msg => tryEmitApplyAsAddress E resultType st = Fatal msg
    end).
  { intros Hschema. unfold tryEmitApplyAsAddress. rewrite Hschema. cbn [negb].
    destruct (emitApplyExpr E resultType st) as [[rv st']|msg] eqn:Hemit.
    - assert (Hrv : ∃ slot, rv = RValue.forAggregate slot).
      { unfold emitApplyExpr in Hemit.
        destruct (calledBuiltin E) as [Fn|].
        - apply bind_inv in Hemit as (? & s1 & _ & Hemit).
          unfold emitBuiltinCall in Hemit.
          apply bind_inv in Hemit as (? & s2 & Hassert & _).
          apply assertion_inv in Hassert as [Hscalar _].
          destruct (getSchema resultType); discriminate.
        - unfold emitApplyExpr_general in Hemit. cbv zeta in Hemit.
          repeat (apply bind_inv in Hemit as (? & ? & _ & Hemit);
                  try match type of Hemit with
                      | (let (_, _) := ?p in _) _ = _ => destruct p
                      end).
          rewrite Hschema in Hemit.
          apply bind_inv in Hemit as ([slot ?] & ? & _ & Hemit).
          exists slot. unfold Emit_ret in Hemit. congruence. }
      destruct Hrv as [slot ->]. exists slot. split; [reflexivity|].
      erewrite bind_run; [|exact Hemit]. reflexivity.
    - by rewrite (bind_fatal _ _ _ _ Hemit). }
  split; [|split; [exact Hagg|split]].
  - intros Hschema. unfold tryEmitApplyAsAddress. by rewrite Hschema.
  - intros st' Hnone.
    destruct (RValueSchema.isAggregate (getSchema resultType)) eqn:Hschema;
      [|reflexivity].
    specialize (Hagg eq_refl).
    destruct (emitApplyExpr E resultType st) as [[rv st'']|msg].
    + destruct Hagg as (slot & _ & Heq). rewrite Heq in Hnone. discriminate.
    + rewrite Hagg in Hnone. discriminate.
  - intros fn data argvs st1 st2 info Hschema (Hgen & Hfn & Harg & Hinfo).
    pose proof (emitApplyExpr_general_run E resultType fn data argvs st st1 st2
                  info Hfn Harg Hinfo) as Hrun.
    cbv zeta in Hrun.
    specialize (Hagg Hschema). unfold emitApplyExpr in Hagg.
    rewrite Hgen, Hrun in Hagg. clear Hrun. unfold resultSlot in *.
    destruct (getSchema resultType) as [Ty A|Tys]; [|discriminate].
    cbn [fst snd] in *. destruct Hagg as (slot & [= <-] & Htry).
    eexists _, _. split; [reflexivity|]. split; [exact Htry|].
    rewrite Trace_advance, drop_app_length. cbn.
    by destruct (isa_UndefValue data).
Qed.

End CallProperties.

Section SampleCalls.

Local Existing Instance Sample.collaborators.

(** A call of a global function of type [(Int, Int) -> Big], with the
    aggregate [Big] as the expected result: the undefined sentinel is
    recognised, the signature without data is selected and no context is
    passed, and yet the argument list is not the explicit arguments alone,
    because the address of the result slot comes first.  The three
    arguments have the types of the three parameters of that signature. *)
Lemma context_elision_counterexample :
  let E := mkApplyExpr (C := Sample.collaborators)
             Sample.aggregateCallee Sample.twoInts Sample.Big None in
  let resultType := getFragileTypeInfo (ApplyExpr_getType E) in
  let explicit := [Argument 0 Sample.Int64Ty; Argument 1 Sample.Int64Ty] in
  let slot := Instruction 0 (PointerTy Sample.AggTy) in
  let sig :=
    signatureRule (TupleType [Sample.Int; Sample.Int]) Sample.Big false in
  Expr_getType (getFn E)
  = FunctionType (Expr_getType (getArg E)) (ApplyExpr_getType E)
  ∧ calledBuiltin E = None
  ∧ lowerExpr (getFn E) Maximal Sample.caller
    = Ok ([GlobalFunction "g" Int8PtrTy; UndefValue Int8PtrTy], Sample.caller)
  ∧ isa_UndefValue (UndefValue Int8PtrTy) = true
  ∧ lowerExpr (getArg E) Minimal (resultSlot resultType Sample.caller).2
    = Ok (explicit, (resultSlot resultType Sample.caller).2)
  ∧ ∃ rv st',
      emitApplyExpr E resultType Sample.caller = Ok (rv, st')
      ∧ Trace st' !! 2
        = Some (Insert 2 None
                  (Call (Instruction 1 (PointerTy sig)) (slot :: explicit) []))
      ∧ map getType (slot :: explicit) = getParamTypes sig
      ∧ callArguments (Trace st') = [slot :: explicit]
      ∧ callArguments (Trace st') ≠ [explicit].
Proof.
  intros E resultType explicit slot sig.
  split; [reflexivity|]. split; [reflexivity|]. split; [reflexivity|].
  split; [reflexivity|]. split; [reflexivity|].
  eexists _, _. split; [vm_compute; reflexivity|]. split; [reflexivity|].
  split; [reflexivity|]. split; [reflexivity|].
  intros H. vm_compute in H. discriminate H.
Qed.

(** A call of a closure with a context and a scalar result. *)
Lemma context_elision_witness :
  let E := mkApplyExpr (C := Sample.collaborators)
             Sample.closureCallee Sample.twoInts Sample.Int None in
  let resultType := Sample.typeInfoOf Sample.Int in
  let context := Argument 3 Int8PtrTy in
  let explicit := [Argument 0 Sample.Int64Ty; Argument 1 Sample.Int64Ty] in
  generalCall E resultType Sample.caller (Argument 2 Int8PtrTy) context explicit
              Sample.caller Sample.caller
              (convertFunctionType (TupleType [Sample.Int; Sample.Int]) Sample.Int)
  ∧ ∃ rv st',
      emitApplyExpr E resultType Sample.caller = Ok (rv, st')
      ∧ callArguments (Trace st') = [explicit ++ [context]].
Proof.
  intros E resultType context explicit.
  assert (H : generalCall E resultType Sample.caller (Argument 2 Int8PtrTy)
                context explicit Sample.caller Sample.caller
                (convertFunctionType (TupleType [Sample.Int; Sample.Int])
                                     Sample.Int))
    by (repeat split; reflexivity).
  split; [exact H|].
  destruct (context_elision (C := Sample.collaborators) E resultType
              Sample.caller (Argument 2 Int8PtrTy) context explicit
              Sample.caller Sample.caller _ H)
    as (rv & st' & extracts & Hemit & Htr & Hex & _).
  exists rv, st'. split; [exact Hemit|].
  rewrite Htr. unfold callArguments in *.
  rewrite !flat_map_app, Hex. reflexivity.
Defined.

(** A call whose expected result has three scalar slots. *)
Lemma result_reconstruction_witness :
  let resultTy := TupleType [Sample.Int; Sample.Double; Sample.Int] in
  let E := mkApplyExpr (C := Sample.collaborators)
             Sample.globalCallee Sample.twoInts resultTy None in
  let resultType := Sample.typeInfoOf resultTy in
  ∃ rv st',
    emitApplyExpr E resultType Sample.caller = Ok (rv, st')
    ∧ RValue.getScalars rv
      = [Instruction 2 VoidTy; Instruction 3 VoidTy; Instruction 4 VoidTy]
    ∧ drop 3 (Trace st')
      = [Insert 2 None (ExtractValue (Instruction 1 Sample.Int64Ty) 0);
         Insert 3 None (ExtractValue (Instruction 1 Sample.Int64Ty) 1);
         Insert 4 None (ExtractValue (Instruction 1 Sample.Int64Ty) 2)].
Proof.
  intros resultTy E resultType.
  assert (H : generalCall E resultType Sample.caller
                (GlobalFunction "f" Int8PtrTy) (UndefValue Int8PtrTy)
                [Argument 0 Sample.Int64Ty; Argument 1 Sample.Int64Ty]
                Sample.caller Sample.caller
                (convertFunctionType (TupleType [Sample.Int; Sample.Int])
                                     Sample.Int))
    by (repeat split; reflexivity).
  destruct (result_reconstruction (C := Sample.collaborators) E resultType
              Sample.caller _ _ _ Sample.caller Sample.caller _ H)
    as (rv & st' & Hemit & Hshape).
  exists rv, st'. split; [exact Hemit|].
  destruct Hshape as [Hmany _].
  destruct (Hmany ltac:(cbn; lia)) as [-> ->].
  split; reflexivity.
Defined.

End SampleCalls.

(** ** The prologue *)


Section PrologueProperties.

Context `{C : Collaborators}.

Lemma keepsFunctionState_refl st : keepsFunctionState st st.
Proof. repeat split. exists []. by rewrite app_nil_r. Qed.

Lemma keepsFunctionState_trans st1 st2 st3 :
  keepsFunctionState st1 st2 → keepsFunctionState st2 st3 →
  keepsFunctionState st1 st3.
Proof.
  intros (A1 & R1 & e1 & T1) (A2 & R2 & e2 & T2).
  repeat split; [congruence..|].
  exists (e1 ++ e2). by rewrite T2, T1, app_assoc.
Qed.

Lemma keepsFunctionState_advance evs n st :
  keepsFunctionState st (advance evs n st).
Proof. destruct st. repeat split. by exists evs. Qed.

Lemma ret_inv {A} (a b : A) (st st' : IRGenFunction) :
  Emit_ret a st = Ok (b, st') → b = a ∧ st' = st.
Proof. unfold Emit_ret. by intros [= <- <-]. Qed.

Lemma getState_inv (st a st' : IRGenFunction) :
  getState st = Ok (a, st') → a = st ∧ st' = st.
Proof. unfold getState. by intros [= <- <-]. Qed.

Lemma modifyState_inv (f : IRGenFunction → IRGenFunction) st u st' :
  modifyState f st = Ok (u, st') → st' = f st.
Proof. unfold modifyState. by intros [= <-]. Qed.

Lemma keepsFunctionState_withLocals l st :
  keepsFunctionState st (withLocals l st).
Proof. destruct st. repeat split. exists []. by rewrite app_nil_r. Qed.

Lemma logEvent_inv (e : Event) st u st' :
  logEvent e st = Ok (u, st') → st' = advance [e] 0 st.
Proof. rewrite logEvent_run. by intros [= <-]. Qed.

(** The advance of the argument iterator never fails; what it yields is an
    argument where the iterator was on one. *)
Lemma nextParm_inv CurParm st V CurParm' st' :
  nextParm CurParm st = Ok ((V, CurParm'), st') →
  CurParm' = S CurParm ∧ st' = st
  ∧ (CurParm < length (CurFnArgs st) → CurFnArgs st !! CurParm = Some V).
Proof.
  unfold nextParm, Emit_bind, getState, Emit_ret. intros [= <- <- <-].
  split; [done|]. split; [done|]. intros Hlt.
  destruct (lookup_lt_is_Some_2 _ _ Hlt) as [V HV]. by rewrite HV.
Qed.

(** The loop that claims the scalars of one parameter. *)
Lemma scalars_loop_inv (Tys : list LType) Scalars CurParm st Scalars' CurParm' st' :
  forEach (λ '(Scalars, CurParm) ParmType,
             let* (V, CurParm) := nextParm CurParm in
             assertion (LType_eqb (getType V) ParmType)
                       "V->getType() == ParmType" ;;
             Emit_ret (push_back Scalars V, CurParm))
          Tys (Scalars, CurParm) st
  = Ok ((Scalars', CurParm'), st') →
  CurParm' = CurParm + length Tys ∧ st' = st.
Proof.
  revert Scalars CurParm. induction Tys as [|T Tys IH]; intros Scalars CurParm H.
  - simpl in H. unfold Emit_ret in H. injection H as <- <- <-.
    split; [simpl; lia|done].
  - cbn [forEach] in H.
    apply bind_inv in H as ([Sc1 P1] & s1 & Hstep & Hrest).
    apply bind_inv in Hstep as ([V P] & s2 & Hnext & Hstep).
    apply nextParm_inv in Hnext as (-> & -> & _).
    apply bind_inv in Hstep as (? & s3 & Hassert & Hret).
    apply assertion_inv in Hassert as [_ ->].
    apply ret_inv in Hret as [[= -> ->] ->].
    apply IH in Hrest as (-> & ->).
    split; [simpl; lia|done].
Qed.

Lemma emitPrologue_parm_inv Parm CurParm st CurParm' st' :
  (∀ RV addr s u s',
     store (getFragileTypeInfo (ArgDecl_getType Parm)) RV addr s = Ok (u, s') →
     keepsFunctionState s s') →
  emitPrologue_parm CurParm Parm st = Ok (CurParm', st') →
  CurParm' = CurParm + parmSlots Parm
  ∧ keepsFunctionState st st'.
Proof.
  intros Hstore H. unfold emitPrologue_parm, parmSlots in *.
  cbv zeta in H.
  destruct (getSchema (getFragileTypeInfo (ArgDecl_getType Parm)))
    as [AggTy A|Tys] eqn:Hschema;
    cbn [RValueSchema.isAggregate RValueSchema.isScalar
         RValueSchema.getScalarTypes] in H.
  - apply bind_inv in H as ([parmAddr P1] & s1 & Haddr & H).
    apply bind_inv in Haddr as ([V P] & s2 & Hnext & Hret).
    apply nextParm_inv in Hnext as (-> & -> & _).
    apply ret_inv in Hret as [[= -> ->] ->].
    apply bind_inv in H as (P2 & s3 & Hret & H).
    apply ret_inv in Hret as [-> ->].
    apply bind_inv in H as (s4 & s5 & Hget & H).
    apply getState_inv in Hget as [-> ->].
    apply bind_inv in H as (? & s6 & Hassert & H).
    apply assertion_inv in Hassert as [_ ->].
    apply bind_inv in H as (? & s7 & Hmod & Hret).
    apply modifyState_inv in Hmod as ->.
    apply ret_inv in Hret as [-> ->].
    split; [lia|].
    apply keepsFunctionState_withLocals.
  - apply bind_inv in H as ([parmAddr P1] & s1 & Haddr & H).
    apply bind_inv in Haddr as (a & s2 & Halloc & Hret).
    rewrite createScopeAlloca_run in Halloc. injection Halloc as <- <-.
    apply ret_inv in Hret as [[= -> ->] ->].
    apply bind_inv in H as (P2 & s3 & Hloop & H).
    apply bind_inv in Hloop as ([Scalars P3] & s4 & Hloop & Hst).
    apply scalars_loop_inv in Hloop as (-> & ->).
    apply bind_inv in Hst as (? & s5 & Hst & Hret).
    apply ret_inv in Hret as [-> ->].
    apply Hstore in Hst.
    apply bind_inv in H as (s6 & s7 & Hget & H).
    apply getState_inv in Hget as [-> ->].
    apply bind_inv in H as (? & s8 & Hassert & H).
    apply assertion_inv in Hassert as [_ ->].
    apply bind_inv in H as (? & s9 & Hmod & Hret).
    apply modifyState_inv in Hmod as ->.
    apply ret_inv in Hret as [-> ->].
    split; [done|].
    eapply keepsFunctionState_trans; [apply keepsFunctionState_advance|].
    eapply keepsFunctionState_trans; [exact Hst|].
    apply keepsFunctionState_withLocals.
Qed.

Lemma parms_loop_inv (Parms : list ArgDecl) CurParm st CurParm' st' :
  wellBehavedStores Parms →
  forEach emitPrologue_parm Parms CurParm st = Ok (CurParm', st') →
  CurParm' = CurParm + sum_list (map parmSlots Parms)
  ∧ keepsFunctionState st st'.
Proof.
  revert CurParm st. induction Parms as [|Parm Parms IH];
    intros CurParm st Hstores H.
  - simpl in H. unfold Emit_ret in H. injection H as <- <-.
    split; [simpl; lia|apply keepsFunctionState_refl].
  - cbn [forEach] in H. apply bind_inv in H as (P1 & s1 & Hparm & Hrest).
    apply emitPrologue_parm_inv in Hparm as (-> & Hkeep).
    2:{ intros RV addr s u s' Hst. eapply Hstores; [|exact Hst]. by left. }
    apply IH in Hrest as (-> & Hkeep').
    + split; [simpl; lia|]. by eapply keepsFunctionState_trans.
    + intros P RV addr s u s' Hin. apply Hstores. by right.
Qed.

Lemma emitPrologue_setup_run st :
  getBasicBlockList (Trace st) = [] →
  emitPrologue_setup st = Ok ((), afterSetup st).
Proof.
  intros Hempty. unfold emitPrologue_setup, afterSetup, createBasicBlock.
  erewrite bind_run; [|apply freshId_run].
  erewrite bind_run; [|reflexivity].
  erewrite bind_run; last first.
  { rewrite Trace_advance, app_nil_r, Hempty. reflexivity. }
  erewrite bind_run; [|apply logEvent_run].
  erewrite bind_run; last first.
  { unfold Builder_SetInsertPoint.
    erewrite bind_run; [|reflexivity]. apply logEvent_run. }
  erewrite bind_run; [|apply emitInstr_run].
  erewrite bind_run; [|reflexivity].
  erewrite bind_run; [|apply freshId_run].
  erewrite bind_run; [|reflexivity].
  rewrite logEvent_run.
  cbn [instructionId].
  norm_state.
  replace (NextId st + 1 + 0) with (NextId st + 1) by lia.
  replace (NextId st + 1 + 1) with (NextId st + 2) by lia.
  reflexivity.
Qed.

Lemma emitPrologue_setup_inv st u s0 :
  emitPrologue_setup st = Ok (u, s0) → s0 = afterSetup st.
Proof.
  destruct (decide (getBasicBlockList (Trace st) = [])) as [Hempty|Hnot].
  - rewrite (emitPrologue_setup_run _ Hempty). congruence.
  - unfold emitPrologue_setup, createBasicBlock.
    erewrite bind_run; [|apply freshId_run].
    erewrite bind_run; [|reflexivity].
    erewrite bind_fatal; [discriminate|].
    rewrite Trace_advance, app_nil_r, bool_decide_eq_false_2 by done.
    reflexivity.
Qed.

Lemma emitPrologue_resultSlot_inv resultType s0 CurParm1 s1 :
  emitPrologue_resultSlot resultType 0 s0 = Ok (CurParm1, s1) →
  match getSchema resultType with
  | RValueSchema.forAggregate _ _ =>
      ∃ V, (0 < length (CurFnArgs s0) → CurFnArgs s0 !! 0 = Some V)
           ∧ CurParm1 = 1
           ∧ s1 = withReturnSlot
                    (Some (mkAddress V (StorageAlignment resultType))) s0
  | RValueSchema.forScalars [] =>
      ReturnSlot s0 = None ∧ CurParm1 = 0 ∧ s1 = s0
  | RValueSchema.forScalars (_ :: _) =>
      CurParm1 = 0
      ∧ s1 = withReturnSlot
               (Some (mkAddress
                        (Instruction (NextId s0)
                                     (PointerTy (StorageType resultType)))
                        (StorageAlignment resultType)))
               (advance [ScopedAlloca (NextId s0) (StorageType resultType)
                                      (StorageAlignment resultType)] 1 s0)
  end.
Proof.
  unfold emitPrologue_resultSlot. cbv zeta. intros H.
  destruct (getSchema resultType) as [AggTy A|[|T Tys]];
    cbn [RValueSchema.isAggregate RValueSchema.isScalarN RValueSchema.isScalar
         RValueSchema.getScalarTypes andb length Nat.eqb] in H.
  - apply bind_inv in H as ([V P] & s2 & Hnext & H).
    apply nextParm_inv in Hnext as (-> & -> & Harg).
    apply bind_inv in H as (? & s3 & Hmod & Hret).
    apply modifyState_inv in Hmod as ->.
    apply ret_inv in Hret as [-> ->]. by exists V.
  - apply bind_inv in H as (s2 & s3 & Hget & H).
    apply getState_inv in Hget as [-> ->].
    apply bind_inv in H as (? & s4 & Hassert & Hret).
    apply assertion_inv in Hassert as [Hnone ->].
    apply ret_inv in Hret as [-> ->].
    by apply bool_decide_eq_true in Hnone.
  - apply bind_inv in H as (slot & s2 & Halloc & H).
    rewrite createScopeAlloca_run in Halloc. injection Halloc as <- <-.
    apply bind_inv in H as (? & s3 & Hmod & Hret).
    apply modifyState_inv in Hmod as ->.
    by apply ret_inv in Hret as [-> ->].
Qed.

(** The prologue, taken apart: the state after the first part, the
    result-slot step and the loop over the parameters. *)
Lemma emitPrologue_inv st u st' :
  emitPrologue st = Ok (u, st') →
  ∃ Input Result CurParm1 s1 CurParmN,
    FuncExpr_getType (CurFuncExpr st) = FunctionType Input Result
    ∧ emitPrologue_resultSlot (getFragileTypeInfo Result) 0 (afterSetup st)
      = Ok (CurParm1, s1)
    ∧ forEach emitPrologue_parm (NamedArgs (CurFuncExpr st)) CurParm1 s1
      = Ok (CurParmN, st')
    ∧ CurParmN = length (CurFnArgs st').
Proof.
  unfold emitPrologue. intros H.
  apply bind_inv in H as (? & s0 & Hsetup & H).
  apply emitPrologue_setup_inv in Hsetup as ->.
  apply bind_inv in H as (s2 & s3 & Hget & H).
  apply getState_inv in Hget as [-> ->].
  assert (Hfe : CurFuncExpr (afterSetup st) = CurFuncExpr st) by (by destruct st).
  rewrite Hfe in H.
  destruct (FuncExpr_getType (CurFuncExpr st)) as [n|Fields|Input Result];
    cbn [getAs_FunctionType] in H; try discriminate.
  cbv zeta in H.
  apply bind_inv in H as (CurParm1 & s1 & Hres & H).
  apply bind_inv in H as (CurParmN & s4 & Hloop & H).
  apply bind_inv in H as (s5 & s6 & Hget & H).
  apply getState_inv in Hget as [-> ->].
  apply assertion_inv in H as [Heq ->].
  apply Nat.eqb_eq in Heq.
  by exists Input, Result, CurParm1, s1, CurParmN.
Qed.

Lemma afterSetup_keeps st : keepsFunctionState st (afterSetup st).
Proof. destruct st. repeat split. by eexists. Qed.

(** A prologue that completes never took the argument iterator beyond
    [arg_end()]: the iterator only moves forward, by the slots of the result
    and of the parameters, and the closing assertion finds it at
    [arg_end()]. *)
Lemma emitPrologue_inv_args st u st' :
  wellBehavedStores (NamedArgs (CurFuncExpr st)) →
  emitPrologue st = Ok (u, st') →
  ∃ Input Result s1,
    FuncExpr_getType (CurFuncExpr st) = FunctionType Input Result
    ∧ emitPrologue_resultSlot (getFragileTypeInfo Result) 0 (afterSetup st)
      = Ok (resultSlots Result, s1)
    ∧ forEach emitPrologue_parm (NamedArgs (CurFuncExpr st))
              (resultSlots Result) s1
      = Ok (length (CurFnArgs st), st')
    ∧ CurFnArgs s1 = CurFnArgs st
    ∧ CurFnArgs st' = CurFnArgs st
    ∧ length (CurFnArgs st)
      = resultSlots Result
        + sum_list (map parmSlots (NamedArgs (CurFuncExpr st))).
Proof.
  intros Hstores H.
  apply emitPrologue_inv in H
    as (Input & Result & P1 & s1 & PN & Hty & Hres & Hloop & HPN).
  pose proof (proj1 (afterSetup_keeps st)) as Hargs0.
  assert (Hs1 : CurFnArgs s1 = CurFnArgs st ∧ P1 = resultSlots Result).
  { pose proof (emitPrologue_resultSlot_inv _ _ _ _ Hres) as Hinv.
    unfold resultSlots.
    destruct (getSchema (getFragileTypeInfo Result)) as [AggTy A|[|T Tys]].
    - destruct Hinv as (V & _ & -> & ->).
      by rewrite CurFnArgs_withReturnSlot.
    - by destruct Hinv as (_ & -> & ->).
    - destruct Hinv as (-> & ->).
      by rewrite CurFnArgs_withReturnSlot, CurFnArgs_advance. }
  destruct Hs1 as (Hargs1 & ->).
  pose proof (parms_loop_inv _ _ _ _ _ Hstores Hloop) as (HP & HargsN & _).
  rewrite HargsN, Hargs1 in HPN. subst PN.
  exists Input, Result, s1.
  repeat split; try done; congruence.
Qed.





(** C5, amended.  Provided that storing a parameter leaves the return
    slot alone, a prologue that completes has bound the return
    representation by the schema of the result type: for an aggregate the
    return slot is the first incoming low-level argument, at the storage
    alignment of the result type; for a result of no scalars there is no
    return slot; for a result of one scalar or of several a local scoped
    slot of the result's storage type was allocated, right after the
    return block was set up, and it is the return slot. *)
Theorem prologue_return_slot (st st' : IRGenFunction) (Input Result : SwiftType) :
  FuncExpr_getType (CurFuncExpr st) = FunctionType Input Result →
  wellBehavedStores (NamedArgs (CurFuncExpr st)) →
  emitPrologue st = Ok ((), st') →
  let resultType := getFragileTypeInfo Result in
  match getSchema resultType with
  | RValueSchema.forAggregate _ _ =>
      ∃ V, CurFnArgs st !! 0 = Some V
           ∧ ReturnSlot st'
             = Some (mkAddress V (StorageAlignment resultType))
  | RValueSchema.forScalars [] =>
      ReturnSlot st' = None
  | RValueSchema.forScalars (_ :: _) =>
      ∃ rest,
        ReturnSlot st'
        = Some (mkAddress
                  (Instruction (NextId st + 3)
                               (PointerTy (StorageType resultType)))
                  (StorageAlignment resultType))
        ∧ Trace st'
          = Trace (afterSetup st)
            ++ ScopedAlloca (NextId st + 3) (StorageType resultType)
                            (StorageAlignment resultType)
            :: rest
  end.
Proof.
  intros Hty Hstores H resultType.
  apply emitPrologue_inv_args in H
    as (Input' & Result' & s1 & Hty' & Hres & Hloop & _ & _ & Hlen); [|done].
  rewrite Hty in Hty'. injection Hty' as <- <-.
  apply emitPrologue_resultSlot_inv in Hres. fold resultType in Hres.
  pose proof (afterSetup_keeps st) as (Hargs0 & _ & _).
  assert (Hid0 : NextId (afterSetup st) = NextId st + 3) by (by destruct st).
  apply parms_loop_inv in Hloop as (_ & _ & Hslot & rest & Htr); [|done].
  unfold resultSlots in Hlen. fold resultType in Hlen.
  destruct (getSchema resultType) as [AggTy A|[|T Tys]].
  - destruct Hres as (V & Harg & _ & ->).
    cbn [RValueSchema.isAggregate] in Hlen.
    exists V. rewrite Hargs0 in Harg. split; [apply Harg; lia|].
    by rewrite Hslot, ReturnSlot_withReturnSlot.
  - destruct Hres as (Hnone & _ & ->). by rewrite Hslot.
  - destruct Hres as (_ & ->).
    exists rest. rewrite Hslot, ReturnSlot_withReturnSlot, Hid0.
    split; [done|].
    by rewrite Htr, Trace_withReturnSlot, Trace_advance, Hid0, <- app_assoc.
Qed.

End PrologueProperties.

(** ** Closures in memory *)

Section ClosureProperties.

Context `{C : Collaborators}.

Lemma FuncTypeInfo_store_run info fn data address st :
  FuncTypeInfo_store info (RValue.forScalars [fn; data]) address st
  = Ok ((), advance (storeEvents info address fn data (BuilderIP st) (NextId st))
                    4 st).
Proof.
  unfold FuncTypeInfo_store, storeEvents, CreateStructGEP, CreateStore.
  cbn [RValue.isScalar RValue.getScalars length Nat.eqb andb].
  erewrite bind_run; [|reflexivity]. cbv zeta.
  erewrite bind_run; [|apply emitInstr_run].
  erewrite bind_run; [|reflexivity].
  erewrite bind_run; last first.
  { erewrite bind_run; [|apply emitInstr_run]. reflexivity. }
  erewrite bind_run; [|apply emitInstr_run].
  erewrite bind_run; [|reflexivity].
  erewrite bind_run; [|apply emitInstr_run].
  norm_state. unfold Emit_ret, fieldAddress, dataAlignment.
  replace (NextId st + 1 + 1) with (NextId st + 2) by lia.
  replace (NextId st + 1 + 1 + 1) with (NextId st + 3) by lia.
  replace (NextId st + 2 + 1) with (NextId st + 3) by lia.
  reflexivity.
Qed.

Lemma FuncTypeInfo_load_run info address st :
  FuncTypeInfo_load info address st
  = Ok (RValue.forScalars [loadedValue address (NextId st + 1) 0;
                           loadedValue address (NextId st + 3) 1],
        advance (loadEvents info address (BuilderIP st) (NextId st)) 4 st).
Proof.
  unfold FuncTypeInfo_load, loadEvents, CreateStructGEP, CreateLoad. cbv zeta.
  erewrite bind_run; [|apply emitInstr_run].
  erewrite bind_run; [|apply emitInstr_run].
  erewrite bind_run; [|apply emitInstr_run].
  erewrite bind_run; [|apply emitInstr_run].
  norm_state. unfold Emit_ret, fieldAddress, dataAlignment, loadedValue.
  replace (NextId st + 1 + 1) with (NextId st + 2) by lia.
  replace (NextId st + 1 + 1 + 1) with (NextId st + 3) by lia.
  replace (NextId st + 2 + 1) with (NextId st + 3) by lia.
  replace (NextId st + 1 - 1) with (NextId st) by lia.
  replace (NextId st + 3 - 1) with (NextId st + 2) by lia.
  reflexivity.
Qed.

Lemma evalValue_setRegister_old (m : Machine) (V : Value) (id n : nat) x :
  match V with Instruction i _ => i < n | _ => True end →
  n ≤ id →
  evalValue (setRegister id x m) V = evalValue m V.
Proof.
  destruct V as [| | |i ty]; simpl; try done.
  intros Hlt Hle. apply lookup_insert_ne. lia.
Qed.

Lemma evalValue_setRegister_new (m : Machine) (id : nat) ty x :
  evalValue (setRegister id x m) (Instruction id ty) = Some x.
Proof. simpl. apply lookup_insert_eq. Qed.

Lemma evalValue_setMemory (m : Machine) (V : Value) a x :
  evalValue (setMemory a x m) V = evalValue m V.
Proof. by destruct V. Qed.

(** Running a field address, a store, a field address and a load. *)
Lemma exec_StructGEP m id bb Ptr Idx b path rest :
  evalValue m Ptr = Some (RtAddress b path) →
  execTrace (Insert id bb (StructGEP Ptr Idx) :: rest) m
  = execTrace rest (setRegister id (RtAddress b (path ++ [Idx])) m).
Proof. intros H. simpl. by rewrite H. Qed.

Lemma exec_Store m id bb Val Ptr align x b path rest :
  evalValue m Val = Some x →
  evalValue m Ptr = Some (RtAddress b path) →
  execTrace (Insert id bb (Store Val Ptr align) :: rest) m
  = execTrace rest (setMemory (b, path) x m).
Proof. intros H1 H2. simpl. by rewrite H1, H2. Qed.

Lemma exec_Load m id bb Ptr align x b path rest :
  evalValue m Ptr = Some (RtAddress b path) →
  Memory m !! (b, path) = Some x →
  execTrace (Insert id bb (Load Ptr align) :: rest) m
  = execTrace rest (setRegister id x m).
Proof. intros H1 H2. simpl. by rewrite H1, H2. Qed.

(** The emitted store followed by the emitted load, run on any machine in
    which the slot is an address and the two stored values are defined:
    the two loads yield the two values. *)
Lemma store_load_exec info address fn data ip ip' id m b path c d :
  match fn with Instruction i _ => i < id | _ => True end →
  match data with Instruction i _ => i < id | _ => True end →
  match getAddress address with Instruction i _ => i < id | _ => True end →
  evalValue m (getAddress address) = Some (RtAddress b path) →
  evalValue m fn = Some c →
  evalValue m data = Some d →
  ∃ m',
    execTrace (storeEvents info address fn data ip id
               ++ loadEvents info address ip' (id + 4)) m = Some m'
    ∧ evalValue m' (loadedValue address (id + 4 + 1) 0) = Some c
    ∧ evalValue m' (loadedValue address (id + 4 + 3) 1) = Some d.
Proof.
  intros Hfn Hdata Haddr Ea Ec Ed.
  unfold storeEvents, loadEvents, fieldAddress, loadedValue. cbn [app].
  erewrite exec_StructGEP; [|exact Ea].
  erewrite exec_Store; last first.
  { apply evalValue_setRegister_new. }
  { by erewrite evalValue_setRegister_old. }
  erewrite exec_StructGEP; last first.
  { rewrite evalValue_setMemory. by erewrite evalValue_setRegister_old. }
  erewrite exec_Store; last first.
  { apply evalValue_setRegister_new. }
  { erewrite evalValue_setRegister_old; [|exact Hdata|lia].
    rewrite evalValue_setMemory. by erewrite evalValue_setRegister_old. }
  erewrite exec_StructGEP; last first.
  { rewrite evalValue_setMemory.
    erewrite evalValue_setRegister_old; [|exact Haddr|lia].
    rewrite evalValue_setMemory. by erewrite evalValue_setRegister_old. }
  erewrite exec_Load; last first.
  { simpl. rewrite lookup_insert_ne.
    - apply lookup_insert_eq.
    - intros [= Heq]. apply app_inv_head in Heq. discriminate. }
  { apply evalValue_setRegister_new. }
  erewrite exec_StructGEP; last first.
  { erewrite evalValue_setRegister_old; [|exact Haddr|lia].
    erewrite evalValue_setRegister_old; [|exact Haddr|lia].
    rewrite evalValue_setMemory.
    erewrite evalValue_setRegister_old; [|exact Haddr|lia].
    rewrite evalValue_setMemory. by erewrite evalValue_setRegister_old. }
  erewrite exec_Load; last first.
  { simpl. apply lookup_insert_eq. }
  { apply evalValue_setRegister_new. }
  eexists. split; [reflexivity|]. split.
  - simpl. rewrite !lookup_insert_ne by lia. apply lookup_insert_eq.
  - simpl. apply lookup_insert_eq.
Qed.

(** C6, amended.  Storing the two-scalar r-value [(codePtr, dataPtr)] with
    [FuncTypeInfo::store] and then loading from the same address with
    [FuncTypeInfo::load] emits two stores, of [codePtr] to field 0 and of
    [dataPtr] to field 1 of the slot, and then two loads from those same
    fields, and yields the two-scalar r-value of the two loads.  When the
    emitted code runs, on any machine where the slot is an address and the
    stored values are defined, the loaded scalars have exactly the values
    of [codePtr] and [dataPtr], the undefined sentinel included.  As
    low-level values the loaded scalars are the new load instructions: they
    are not [codePtr] and [dataPtr], and the loaded context is never the
    undefined sentinel. *)
Theorem closure_round_trip
    (info : FuncTypeInfo) (address : Address) (codePtr dataPtr : Value)
    (st : IRGenFunction) (m : Machine) (b : nat) (path : list nat)
    (c d : RtValue) :
  definedIn st codePtr → definedIn st dataPtr →
  definedIn st (getAddress address) →
  evalValue m (getAddress address) = Some (RtAddress b path) →
  evalValue m codePtr = Some c →
  evalValue m dataPtr = Some d →
  ∃ st1 fn data st2 m',
    FuncTypeInfo_store info (RValue.forScalars [codePtr; dataPtr]) address st
    = Ok ((), st1)
    ∧ FuncTypeInfo_load info address st1 = Ok (RValue.forScalars [fn; data], st2)
    ∧ Trace st2
      = Trace st
        ++ storeEvents info address codePtr dataPtr (BuilderIP st) (NextId st)
        ++ loadEvents info address (BuilderIP st) (NextId st + 4)
    ∧ execTrace (drop (length (Trace st)) (Trace st2)) m = Some m'
    ∧ evalValue m' fn = Some c
    ∧ evalValue m' data = Some d
    ∧ fn = Instruction (NextId st + 5) (getType fn)
    ∧ data = Instruction (NextId st + 7) (getType data)
    ∧ isa_UndefValue data = false.
Proof.
  intros Hc Hd Ha Ea Ec Ed.
  destruct (store_load_exec info address codePtr dataPtr (BuilderIP st)
              (BuilderIP st) (NextId st) m b path c d Hc Hd Ha Ea Ec Ed)
    as (m' & Hexec & Hfn & Hdata).
  eexists _, _, _, _, m'.
  split; [apply FuncTypeInfo_store_run|].
  split; [apply FuncTypeInfo_load_run|].
  rewrite !NextId_advance, !BuilderIP_advance, !Trace_advance.
  rewrite <- app_assoc, drop_app_length.
  split; [reflexivity|]. split; [exact Hexec|].
  split; [exact Hfn|]. split; [exact Hdata|].
  unfold loadedValue. cbn [getType isa_UndefValue].
  repeat split; f_equal; lia.
Qed.

End ClosureProperties.

(** ** The epilogue *)

Section EpilogueProperties.

Context `{C : Collaborators}.

Lemma Builder_SetInsertPoint_run bb st :
  Builder_SetInsertPoint bb st
  = Ok ((), advance [SetInsertPoint bb] 0 (withBuilderIP (Some bb) st)).
Proof.
  unfold Builder_SetInsertPoint.
  erewrite bind_run; [|reflexivity]. apply logEvent_run.
Qed.

Lemma emitEpilogue_resolve_inv RetBB st reachable s1 :
  emitEpilogue_resolve RetBB st = Ok (reachable, s1) →
  ∃ resolution,
    Trace s1 = Trace st ++ resolution ∧ resolutionShape RetBB resolution.
Proof.
  unfold emitEpilogue_resolve, hasValidIP, CreateBr.
  erewrite bind_run; [|reflexivity]. cbv zeta.
  erewrite bind_run; last first.
  { erewrite bind_run; reflexivity. }
  destruct (bool_decide (usesOf RetBB (Trace st) = [])).
  - erewrite bind_run; [|apply logEvent_run].
    destruct (bool_decide (is_Some (BuilderIP st))); cbn [negb];
      intros [= _ <-]; exists [EraseBlock RetBB];
      rewrite Trace_advance; (split; [done|by left]).
  - destruct (BuilderIP st) as [bb|] eqn:Hip.
    + rewrite bool_decide_eq_true_2 by eauto.
      erewrite bind_run; last first.
      { erewrite bind_run; [|apply emitInstr_run]. reflexivity. }
      erewrite bind_run; [|apply Builder_SetInsertPoint_run].
      intros [= _ <-]. eexists. norm_state. rewrite <- !app_assoc. cbn [app].
      split; [reflexivity|]. right; left. rewrite ?Hip. by eexists _, _.
    + rewrite bool_decide_eq_false_2 by (intros [? ?]; discriminate).
      destruct (Nat.eqb (length (usesOf RetBB (Trace st))) 1).
      * destruct (usesOf RetBB (Trace st)) as [|[[BrId Parent] I] rest];
          [discriminate|].
        destruct I; try discriminate.
        destruct Parent as [Pred|]; [|discriminate].
        erewrite bind_run; [|apply Builder_SetInsertPoint_run].
        erewrite bind_run; [|apply logEvent_run].
        erewrite bind_run; [|apply logEvent_run].
        intros [= _ <-]. eexists. norm_state. rewrite <- !app_assoc. cbn [app].
        split; [reflexivity|]. right; right; left. by eexists _, _.
      * erewrite bind_run; [|apply Builder_SetInsertPoint_run].
        intros [= _ <-]. eexists.
        rewrite Trace_advance, Trace_withBuilderIP.
        split; [reflexivity|]. by right; right; right.
Qed.

(** C9, amended.  In an epilogue that completes, the alloca insertion
    point is discarded as the very first step: the erasure is the first
    event the epilogue adds, the control-flow resolution runs on the state
    so obtained and adds its own events right behind it, whichever of its
    branches is taken, and the return is emitted after that, or not at all
    when the epilogue is unreachable.  So the discard comes before the
    return-block resolution and the return emission, and is never the last
    step. *)
Theorem epilogue_discards_alloca_point_first (st : IRGenFunction) u st' :
  emitEpilogue st = Ok (u, st') →
  ∃ allocaPoint RetBB reachable s1 resolution,
    AllocaIP st = Some allocaPoint
    ∧ ReturnBB st = Some RetBB
    ∧ emitEpilogue_resolve RetBB (advance [EraseInstruction allocaPoint] 0 st)
      = Ok (reachable, s1)
    ∧ Trace s1 = Trace st ++ EraseInstruction allocaPoint :: resolution
    ∧ resolutionShape RetBB resolution
    ∧ resolution ≠ []
    ∧ (if reachable then emitEpilogue_return s1 = Ok (u, st')
       else st' = s1).
Proof.
  unfold emitEpilogue. intros H.
  apply bind_inv in H as (s & s0 & Hget & H).
  apply getState_inv in Hget as [-> ->].
  destruct (AllocaIP st) as [allocaPoint|]; [|discriminate].
  destruct (ReturnBB st) as [RetBB|]; [|discriminate].
  apply bind_inv in H as (? & s0 & Hlog & H).
  apply logEvent_inv in Hlog as ->.
  apply bind_inv in H as (reachable & s1 & Hres & H).
  destruct (emitEpilogue_resolve_inv _ _ _ _ Hres) as (resolution & Htr & Hshape).
  exists allocaPoint, RetBB, reachable, s1, resolution.
  rewrite Trace_advance, <- app_assoc in Htr.
  repeat split; try done.
  - destruct Hshape as [->|[(? & ? & ->)|[(? & ? & ->)| ->]]]; discriminate.
  - destruct reachable; [done|]. by apply ret_inv in H as [_ ->].
Qed.

End EpilogueProperties.

(** ** Further properties of the lowering *)

Section FurtherProperties.

Context `{C : Collaborators}.

(** A function that is not local is referred to by its address and the
    undefined sentinel for the context, and nothing is reported; a local
    function is two undefined placeholders, and emission goes on after
    reporting the case as unimplemented. *)
Theorem emitExplodedRValueForFunction_spec
    (Fn : ValueDecl) (explosion : Explosion.t) (st : IRGenFunction) :
  ∃ explosion' st',
    emitExplodedRValueForFunction Fn explosion st = Ok (explosion', st')
    ∧ Trace st' = Trace st
    ∧ Explosion.NextValue explosion' = Explosion.NextValue explosion
    ∧ if isLocalContext (getDeclContext Fn)
      then Explosion.Values explosion'
           = Explosion.Values explosion
             ++ [UndefValue Int8PtrTy; UndefValue Int8PtrTy]
           ∧ Diagnostics (IGM st')
             = Diagnostics (IGM st) ++ ["local function emission"]
      else Explosion.Values explosion'
           = Explosion.Values explosion
             ++ [getAddrOfGlobalFunction Fn; UndefValue Int8PtrTy]
           ∧ st' = st.
Proof.
  unfold emitExplodedRValueForFunction.
  destruct (isLocalContext (getDeclContext Fn)); cbn [negb].
  - eexists _, _. split; [reflexivity|]. destruct st. cbn.
    repeat split; by rewrite <- app_assoc.
  - eexists _, _. split; [reflexivity|]. cbn.
    repeat split; by rewrite <- app_assoc.
Qed.

(** The unary builtins are strict about their arity: with exactly one
    operand the operation is emitted on it, with none or with more the
    call is fatal. *)
Theorem unary_builtin_strict_arity
    (Fn : ValueDecl) (Arg : Expr) (resultType : TypeInfo) (Op : UnaryOp)
    (operands : list Value) (st st1 : IRGenFunction) :
  isBuiltinValue (getName Fn)
  = match Op with Neg => BVK_Neg | Not => BVK_Not end →
  RValueSchema.isScalar (getSchema resultType) = true →
  lowerExpr Arg Minimal st = Ok (operands, st1) →
  match operands with
  | [op] =>
      emitBuiltinCall Fn Arg resultType st
      = Ok (RValue.forScalars [Instruction (NextId st1) (getType op)],
            advance [Insert (NextId st1) (BuilderIP st1) (UnOp Op op)] 1 st1)
  | _ => ∃ msg, emitBuiltinCall Fn Arg resultType st = Fatal msg
  end.
Proof.
  intros Hkind Hscalar Hargs.
  unfold emitBuiltinCall. rewrite Hscalar. cbn [assertion].
  unfold emitExplodedRValue.
  rewrite (bind_run _ _ st st ()); [|reflexivity].
  rewrite (bind_run _ _ st st1 (Explosion.add operands (Explosion.new Minimal)));
    [|unfold Emit_bind; cbn; by rewrite Hargs].
  rewrite Hkind.
  destruct operands as [|op [|op' rest]].
  - destruct Op; eexists; reflexivity.
  - destruct Op; simpl; unfold UNARY_OPERATION, Emit_bind; simpl; emit_done.
  - destruct Op; eexists; reflexivity.
Qed.

Lemma lookup_storeFuncTypeInfo (T : SwiftType) (info : FuncTypeInfo)
    (m : IRGenModule) :
  is_Some (getAs_FunctionType T) →
  lookupFuncTypeInfo T (storeFuncTypeInfo T info m) = Some info.
Proof.
  intros [[I R] Hty]. unfold lookupFuncTypeInfo, storeFuncTypeInfo.
  rewrite Hty. simpl. by rewrite SwiftType_eqb_refl.
Qed.

(** Through the module, too, a signature is derived once per function
    type and flag: the second request returns the same signature and finds
    it in the descriptor the registry keeps. *)
Theorem IRGenModule_getFunctionType_memoized
    (Input Result : SwiftType) (withData : bool) (st : IRGenFunction) :
  let T := FunctionType Input Result in
  ∃ sig st1 st2 info,
    IRGenModule_getFunctionType T withData st = Ok (sig, st1)
    ∧ lookupFuncTypeInfo T (IGM st1) = Some info
    ∧ cachedFunctionType withData info = Some sig
    ∧ IRGenModule_getFunctionType T withData st1 = Ok (sig, st2)
    ∧ lookupFuncTypeInfo T (IGM st2) = Some info
    ∧ Trace st2 = Trace st.
Proof.
  intros T. unfold IRGenModule_getFunctionType.
  destruct (lookupFuncTypeInfo T (IGM st)) as [info0|] eqn:Hlook;
    [|unfold lookupFuncTypeInfo in Hlook; cbn in Hlook;
      destruct (find _ _); discriminate].
  pose proof (getFunctionType_cached info0 withData) as Hcached.
  destruct (FuncTypeInfo_getFunctionType info0 withData) as [sig info] eqn:Hget.
  cbn [fst snd] in Hcached.
  exists sig, (withIGM (storeFuncTypeInfo T info (IGM st)) st),
         (withIGM (storeFuncTypeInfo T info
                     (storeFuncTypeInfo T info (IGM st))) st), info.
  assert (Hl1 : lookupFuncTypeInfo T (storeFuncTypeInfo T info (IGM st))
                = Some info) by (apply lookup_storeFuncTypeInfo; by eexists).
  split.
  { erewrite bind_run; [|reflexivity]. rewrite Hlook, Hget.
    erewrite bind_run; [|reflexivity]. destruct st; reflexivity. }
  split; [by destruct st|]. split; [exact Hcached|]. split.
  { erewrite bind_run; [|reflexivity].
    replace (IGM (withIGM (storeFuncTypeInfo T info (IGM st)) st))
      with (storeFuncTypeInfo T info (IGM st)) by (by destruct st).
    rewrite Hl1, (getFunctionType_hit _ _ _ Hcached).
    erewrite bind_run; [|reflexivity]. destruct st; reflexivity. }
  split; [|by destruct st].
  replace (IGM (withIGM (storeFuncTypeInfo T info
                           (storeFuncTypeInfo T info (IGM st))) st))
    with (storeFuncTypeInfo T info (storeFuncTypeInfo T info (IGM st)))
    by (by destruct st).
  apply lookup_storeFuncTypeInfo. by eexists.
Qed.

End FurtherProperties.

(** ** Signatures: the context argument and the registry *)

Lemma SwiftType_eqb_eq (a b : SwiftType) : SwiftType_eqb a b = true → a = b.
Proof.
  revert a b. fix IH 1. intros [n|xs|i r] [m|ys|i' r']; simpl; try discriminate.
  - intros H%Nat.eqb_eq. by subst.
  - intros H. f_equal. revert ys H.
    induction xs as [|x xs IHxs]; intros [|y ys]; try discriminate; [done|].
    intros [H1 H2]%andb_prop. f_equal; [by apply IH | by apply IHxs].
  - intros [H1 H2]%andb_prop. f_equal; by apply IH.
Qed.

Section SignatureInvariants.
Context `{C : Collaborators}.

(** The two signatures of a function type differ in the context argument
    alone: whatever the descriptor has cached before, the signature with
    data has the return type of the one without and its parameters
    followed by one more, the [i8*] context pointer, in the last position;
    neither is variadic. *)
Theorem signature_context_is_last
    (Input Result : SwiftType) (history history' : list bool) :
  let withData :=
    (FuncTypeInfo_getFunctionType
       (afterCalls (convertFunctionType Input Result) history) true).1 in
  let withoutData :=
    (FuncTypeInfo_getFunctionType
       (afterCalls (convertFunctionType Input Result) history') false).1 in
  getReturnType withData = getReturnType withoutData
  ∧ getParamTypes withData = getParamTypes withoutData ++ [Int8PtrTy]
  ∧ withoutData
    = FunctionTy (getReturnType withoutData) (getParamTypes withoutData) false
  ∧ withData
    = FunctionTy (getReturnType withData) (getParamTypes withData) false.
Proof.
  intros withData withoutData. subst withData withoutData.
  destruct (afterCalls_inv (convertFunctionType Input Result) history
              (convertFunctionType_cachesAgree Input Result)) as (Hok & Hin & Hres).
  destruct (afterCalls_inv (convertFunctionType Input Result) history'
              (convertFunctionType_cachesAgree Input Result)) as (Hok' & Hin' & Hres').
  rewrite (getFunctionType_signature _ true Hok), Hin, Hres.
  rewrite (getFunctionType_signature _ false Hok'), Hin', Hres'.
  unfold signatureRule, contextArg. cbn.
  rewrite app_nil_r, app_assoc. done.
Qed.

(** Looking a function type up in a registry in good order, and filing a
    descriptor in one. *)
Lemma registryAgrees_lookup (T : SwiftType) (m : IRGenModule) (info : FuncTypeInfo) :
  registryAgrees m →
  lookupFuncTypeInfo T m = Some info →
  T = FunctionType (FnTy_Input info) (FnTy_Result info) ∧ cachesAgree info.
Proof.
  intros Hm. unfold lookupFuncTypeInfo.
  destruct (getAs_FunctionType T) as [[Input Result]|] eqn:HT; [|discriminate].
  destruct (find _ (FuncTypeInfos m)) as [[T' info']|] eqn:Hfind.
  - intros [= <-]. apply find_some in Hfind as [Hin Heq].
    apply SwiftType_eqb_eq in Heq. cbn in Heq. subst T'.
    apply Hm. by apply list_elem_of_In.
  - intros [= <-]. split; [|apply convertFunctionType_cachesAgree].
    destruct T; try discriminate. cbn in HT. by injection HT as -> ->.
Qed.

Lemma registryAgrees_store (T : SwiftType) (m : IRGenModule) (info : FuncTypeInfo) :
  registryAgrees m →
  T = FunctionType (FnTy_Input info) (FnTy_Result info) →
  cachesAgree info →
  registryAgrees (storeFuncTypeInfo T info m).
Proof.
  intros Hm HT Hinfo T' info'. unfold storeFuncTypeInfo. cbn.
  intros [[= -> ->]|Hin]%elem_of_cons; [done|].
  apply list_elem_of_filter in Hin as [_ Hin]. by apply Hm.
Qed.

(** Through the module the signature is always the one the rule gives: on
    a registry in good order (the empty registry is one)
    [IRGenModule::getFunctionType] returns the signature of the rule for
    the function type and the flag asked for, changes nothing of the
    function being emitted but the registry, adds no diagnostic, and leaves
    the registry in good order, so that the next request finds it so. *)
Theorem IRGenModule_getFunctionType_signature
    (Input Result : SwiftType) (withData : bool) (st : IRGenFunction) :
  registryAgrees (IGM st) →
  ∃ m',
    IRGenModule_getFunctionType (FunctionType Input Result) withData st
    = Ok (signatureRule Input Result withData, withIGM m' st)
    ∧ registryAgrees m'
    ∧ Diagnostics m' = Diagnostics (IGM st).
Proof.
  intros Hm. unfold IRGenModule_getFunctionType.
  erewrite bind_run; [|reflexivity].
  destruct (lookupFuncTypeInfo (FunctionType Input Result) (IGM st)) as [info|] eqn:Hlook;
    [|unfold lookupFuncTypeInfo in Hlook; cbn in Hlook;
      destruct (find _ _); discriminate].
  destruct (registryAgrees_lookup _ _ _ Hm Hlook) as [[= HI HR] Hok].
  pose proof (getFunctionType_signature info withData Hok) as Hsig.
  pose proof (getFunctionType_cachesAgree info withData Hok) as Hok'.
  destruct (getFunctionType_FnTy info withData) as [HI' HR'].
  destruct (FuncTypeInfo_getFunctionType info withData) as [sig info'].
  cbn [fst snd] in *. rewrite <- HI, <- HR in Hsig. subst sig.
  exists (storeFuncTypeInfo (FunctionType Input Result) info' (IGM st)).
  split; [reflexivity|]. split; [|reflexivity].
  apply registryAgrees_store; [done| |done]. by rewrite HI', HR', <- HI, <- HR.
Qed.

End SignatureInvariants.

(** ** Calls to builtins *)

Section BuiltinCalls.
Context `{C : Collaborators}.

(** The three macros, run on the operands the argument lowered to. *)
Lemma UNARY_OPERATION_run (Op : UnaryOp) (operands : list Value) (st : IRGenFunction) :
  UNARY_OPERATION Op
    (mkArgList (Explosion.add operands (Explosion.new Minimal)) []) st
  = match operands with
    | [] => Fatal "claimNext: explosion has no value left"
    | [op] =>
        Ok (RValue.forScalars [Instruction (NextId st) (getType op)],
            advance [Insert (NextId st) (BuilderIP st) (UnOp Op op)] 1 st)
    | _ :: _ :: _ => Fatal "wrong operands to unary operation"
    end.
Proof.
  destruct operands as [|op [|op' rest]]; [reflexivity| |reflexivity].
  unfold UNARY_OPERATION, Emit_bind; simpl; emit_done.
Qed.

Lemma BINARY_OPERATION_run (Op : BinaryOp) (operands : list Value) (st : IRGenFunction) :
  BINARY_OPERATION Op
    (mkArgList (Explosion.add operands (Explosion.new Minimal)) []) st
  = match operands with
    | [] | [_] => Fatal "claimNext: explosion has no value left"
    | [lhs; rhs] =>
        Ok (RValue.forScalars
              [Instruction (NextId st) (if isCompare Op then Int1Ty else getType lhs)],
            advance [Insert (NextId st) (BuilderIP st) (BinOp Op lhs rhs)] 1 st)
    | _ :: _ :: _ :: _ => Fatal "wrong operands to binary operation"
    end.
Proof.
  destruct operands as [|lhs [|rhs [|extra rest]]]; try reflexivity.
  unfold BINARY_OPERATION, Emit_bind; simpl; emit_done.
Qed.

Lemma BINARY_ARITHMETIC_OPERATION_run (IntOp FPOp : BinaryOp)
    (operands : list Value) (st : IRGenFunction) :
  BINARY_ARITHMETIC_OPERATION IntOp FPOp
    (mkArgList (Explosion.add operands (Explosion.new Minimal)) []) st
  = match operands with
    | [] | [_] => Fatal "claimNext: explosion has no value left"
    | [lhs; rhs] =>
        let Op := if isFloatingPointTy (getType lhs) then FPOp else IntOp in
        Ok (RValue.forScalars
              [Instruction (NextId st) (if isCompare Op then Int1Ty else getType lhs)],
            advance [Insert (NextId st) (BuilderIP st) (BinOp Op lhs rhs)] 1 st)
    | _ :: _ :: _ :: _ => Fatal "wrong operands to binary operation"
    end.
Proof.
  destruct operands as [|lhs [|rhs [|extra rest]]]; try reflexivity.
  unfold BINARY_ARITHMETIC_OPERATION, Emit_bind; simpl.
  destruct (isFloatingPointTy (getType lhs)); simpl; emit_done.
Qed.

(** [emitBuiltinCall] up to the dispatch on the builtin kind. *)
Lemma emitBuiltinCall_lowered (Fn : ValueDecl) (Arg : Expr) (resultType : TypeInfo)
    (operands : list Value) (st st1 : IRGenFunction) :
  RValueSchema.isScalar (getSchema resultType) = true →
  lowerExpr Arg Minimal st = Ok (operands, st1) →
  emitBuiltinCall Fn Arg resultType st
  = let args := mkArgList (Explosion.add operands (Explosion.new Minimal)) [] in
    match isBuiltinValue (getName Fn) with
    | BVK_None => Fatal "not a builtin after all!"
    | BVK_Neg => UNARY_OPERATION Neg args st1
    | BVK_Not => UNARY_OPERATION Not args st1
    | BVK_Add => BINARY_ARITHMETIC_OPERATION Add FAdd args st1
    | BVK_And => BINARY_OPERATION And args st1
    | BVK_FDiv => BINARY_OPERATION FDiv args st1
    | BVK_Mul => BINARY_ARITHMETIC_OPERATION Mul FMul args st1
    | BVK_Or => BINARY_OPERATION Or args st1
    | BVK_SDiv => BINARY_OPERATION SDiv args st1
    | BVK_SDivExact => BINARY_OPERATION ExactSDiv args st1
    | BVK_SRem => BINARY_OPERATION SRem args st1
    | BVK_Sub => BINARY_ARITHMETIC_OPERATION Sub FSub args st1
    | BVK_UDiv => BINARY_OPERATION UDiv args st1
    | BVK_UDivExact => BINARY_OPERATION ExactUDiv args st1
    | BVK_URem => BINARY_OPERATION URem args st1
    | BVK_Xor => BINARY_OPERATION Xor args st1
    | BVK_CmpEQ => BINARY_OPERATION ICmpEQ args st1
    | BVK_CmpNE => BINARY_OPERATION ICmpNE args st1
    | BVK_CmpSLE => BINARY_OPERATION ICmpSLE args st1
    | BVK_CmpSLT => BINARY_OPERATION ICmpSLT args st1
    | BVK_CmpSGE => BINARY_OPERATION ICmpSGE args st1
    | BVK_CmpSGT => BINARY_OPERATION ICmpSGT args st1
    | BVK_CmpULE => BINARY_OPERATION ICmpULE args st1
    | BVK_CmpULT => BINARY_OPERATION ICmpULT args st1
    | BVK_CmpUGE => BINARY_OPERATION ICmpUGE args st1
    | BVK_CmpUGT => BINARY_OPERATION ICmpUGT args st1
    | BVK_FCmpOEQ => BINARY_OPERATION FCmpOEQ args st1
    | BVK_FCmpOGT => BINARY_OPERATION FCmpOGT args st1
    | BVK_FCmpOGE => BINARY_OPERATION FCmpOGE args st1
    | BVK_FCmpOLT => BINARY_OPERATION FCmpOLT args st1
    | BVK_FCmpOLE => BINARY_OPERATION FCmpOLE args st1
    | BVK_FCmpONE => BINARY_OPERATION FCmpONE args st1
    | BVK_FCmpORD => BINARY_OPERATION FCmpORD args st1
    | BVK_FCmpUEQ => BINARY_OPERATION FCmpUEQ args st1
    | BVK_FCmpUGT => BINARY_OPERATION FCmpUGT args st1
    | BVK_FCmpUGE => BINARY_OPERATION FCmpUGE args st1
    | BVK_FCmpULT => BINARY_OPERATION FCmpULT args st1
    | BVK_FCmpULE => BINARY_OPERATION FCmpULE args st1
    | BVK_FCmpUNE => BINARY_OPERATION FCmpUNE args st1
    | BVK_FCmpUNO => BINARY_OPERATION FCmpUNO args st1
    end.
Proof.
  intros Hscalar Hargs.
  unfold emitBuiltinCall. rewrite Hscalar. cbn [assertion].
  unfold emitExplodedRValue.
  rewrite (bind_run _ _ st st ()); [|reflexivity].
  rewrite (bind_run _ _ st st1 (Explosion.add operands (Explosion.new Minimal)));
    [|unfold Emit_bind; cbn; by rewrite Hargs].
  cbv zeta. by destruct (isBuiltinValue (getName Fn)).
Qed.

Lemma emitBuiltinCall_inv (Fn : ValueDecl) (Arg : Expr) (resultType : TypeInfo)
    (st st' : IRGenFunction) (rv : RValue.t) :
  emitBuiltinCall Fn Arg resultType st = Ok (rv, st') →
  RValueSchema.isScalar (getSchema resultType) = true
  ∧ ∃ operands st1, lowerExpr Arg Minimal st = Ok (operands, st1).
Proof.
  unfold emitBuiltinCall. intros H.
  apply bind_inv in H as (? & s0 & Hassert & H).
  apply assertion_inv in Hassert as [Hscalar ->]. split; [done|].
  apply bind_inv in H as (Values & s1 & Hlower & _).
  unfold emitExplodedRValue in Hlower.
  apply bind_inv in Hlower as (vs & s2 & Hlower & _). by exists vs, s2.
Qed.

(** A call whose callee is a declaration of the builtin module, when it is
    emitted at all, is exactly one instruction after the lowering of the
    argument: a unary operation on the one operand or a binary operation on
    the two, and the value of that instruction is the single scalar of the
    result.  The callee is not lowered, nothing is cast and no call
    instruction is emitted. *)
Theorem builtin_call_is_one_instruction
    (E : ApplyExpr) (Fn : ValueDecl) (resultType : TypeInfo)
    (st st' : IRGenFunction) (rv : RValue.t) :
  calledBuiltin E = Some Fn →
  emitApplyExpr E resultType st = Ok (rv, st') →
  ∃ operands st1 i ty,
    lowerExpr (getArg E) Minimal st = Ok (operands, st1)
    ∧ st' = advance [Insert (NextId st1) (BuilderIP st1) i] 1 st1
    ∧ rv = RValue.forScalars [Instruction (NextId st1) ty]
    ∧ ((∃ Op op, operands = [op] ∧ i = UnOp Op op)
       ∨ (∃ Op lhs rhs, operands = [lhs; rhs] ∧ i = BinOp Op lhs rhs)).
Proof.
  intros Hbuiltin. unfold emitApplyExpr. rewrite Hbuiltin. intros H.
  apply bind_inv in H as (? & s0 & Hassert & H).
  apply assertion_inv in Hassert as [_ ->].
  destruct (emitBuiltinCall_inv _ _ _ _ _ _ H) as (Hscalar & operands & st1 & Hlower).
  rewrite (emitBuiltinCall_lowered _ _ _ _ _ _ Hscalar Hlower) in H. cbv zeta in H.
  exists operands, st1.
  destruct (isBuiltinValue (getName Fn));
    rewrite ?UNARY_OPERATION_run, ?BINARY_OPERATION_run,
            ?BINARY_ARITHMETIC_OPERATION_run in H;
    try discriminate H;
    destruct operands as [|a [|b [|c rest]]]; try discriminate H;
    cbv zeta in H; injection H as <- <-;
    eexists _, _; (split; [exact Hlower|]); (split; [reflexivity|]);
    (split; [reflexivity|]);
    first [ left; by eexists _, _ | right; by eexists _, _, _ ].
Qed.

(** Every builtin other than negation and complement takes exactly two
    operands: with two the call is one binary operation on them, in order;
    with fewer the claim of the missing operand is fatal; with more the
    assertion on the leftover operands is. *)
Theorem binary_builtin_strict_arity
    (Fn : ValueDecl) (Arg : Expr) (resultType : TypeInfo)
    (operands : list Value) (st st1 : IRGenFunction) :
  isBinaryBuiltin (isBuiltinValue (getName Fn)) = true →
  RValueSchema.isScalar (getSchema resultType) = true →
  lowerExpr Arg Minimal st = Ok (operands, st1) →
  match operands with
  | [lhs; rhs] =>
      ∃ Op ty,
        emitBuiltinCall Fn Arg resultType st
        = Ok (RValue.forScalars [Instruction (NextId st1) ty],
              advance [Insert (NextId st1) (BuilderIP st1) (BinOp Op lhs rhs)] 1 st1)
  | [] | [_] =>
      emitBuiltinCall Fn Arg resultType st
      = Fatal "claimNext: explosion has no value left"
  | _ =>
      emitBuiltinCall Fn Arg resultType st
      = Fatal "wrong operands to binary operation"
  end.
Proof.
  intros Hkind Hscalar Hlower.
  rewrite (emitBuiltinCall_lowered _ _ _ _ _ _ Hscalar Hlower). cbv zeta.
  destruct (isBuiltinValue (getName Fn)); try discriminate Hkind;
    rewrite ?BINARY_OPERATION_run, ?BINARY_ARITHMETIC_OPERATION_run;
    destruct operands as [|a [|b [|c rest]]]; try reflexivity;
    by eexists _, _.
Qed.

(** [emitBuiltinCall] refuses an aggregate result type before anything is
    lowered, and a name the builtin recognizer does not know once the
    argument has been lowered. *)
Theorem builtin_call_rejections
    (Fn : ValueDecl) (Arg : Expr) (resultType : TypeInfo) (st : IRGenFunction) :
  (RValueSchema.isAggregate (getSchema resultType) = true →
   emitBuiltinCall Fn Arg resultType st = Fatal "builtin type with agg return")
  ∧ (∀ operands st1,
       RValueSchema.isAggregate (getSchema resultType) = false →
       lowerExpr Arg Minimal st = Ok (operands, st1) →
       isBuiltinValue (getName Fn) = BVK_None →
       emitBuiltinCall Fn Arg resultType st = Fatal "not a builtin after all!").
Proof.
  split.
  - intros Hagg. unfold emitBuiltinCall.
    destruct (getSchema resultType); [reflexivity|discriminate].
  - intros operands st1 Hagg Hlower Hnone.
    rewrite (emitBuiltinCall_lowered _ _ _ operands st st1); [|
      by destruct (getSchema resultType) | done].
    by rewrite Hnone.
Qed.

End BuiltinCalls.

Lemma lookup_default_seq {A} (d : A) (l : list A) :
  map (λ j, default d (l !! j)) (seq 0 (length l)) = l.
Proof.
  induction l as [|x l IH]; [done|].
  cbn [length seq map]. rewrite <- fmap_S_seq. f_equal.
  rewrite <- list_fmap_compose. exact IH.
Qed.

(** ** Calls on the general path *)

Section CallTyping.
Context `{C : Collaborators}.

(** On the general path the callee must lower to exactly two values, the
    code pointer and the context: with fewer the claim of the missing one
    is fatal, with more the assertion that nothing is left is. *)
Theorem call_needs_two_callee_values
    (E : ApplyExpr) (resultType : TypeInfo) (vs : list Value)
    (st st1 : IRGenFunction) :
  calledBuiltin E = None →
  lowerExpr (getFn E) Maximal st = Ok (vs, st1) →
  length vs ≠ 2 →
  emitApplyExpr E resultType st
  = Fatal (if decide (length vs < 2)
           then "claimNext: explosion has no value left"
           else "fnValues.empty()").
Proof.
  intros Hgen Hfn Hlen. unfold emitApplyExpr. rewrite Hgen.
  unfold emitApplyExpr_general. cbv zeta.
  erewrite bind_run; last first.
  { unfold emitExplodedRValue. cbn [Explosion.Kind Explosion.new].
    erewrite bind_run; [reflexivity | exact Hfn]. }
  destruct vs as [|fn [|data [|extra rest]]]; cbn [length] in *.
  - erewrite bind_fatal; reflexivity.
  - erewrite bind_run; [|reflexivity]. cbv beta iota.
    erewrite bind_fatal; reflexivity.
  - lia.
  - erewrite bind_run; [|reflexivity]. cbv beta iota.
    erewrite bind_run; [|reflexivity]. cbv beta iota.
    erewrite bind_fatal; reflexivity.
Qed.

Lemma getType_extractValues (sig : LType) (id : nat) (Tys : list LType) :
  getType (callValue sig id) = StructTy Tys →
  map getType (extractValues (callValue sig id) (S (S id)) 0 (length Tys)) = Tys.
Proof.
  intros Hty. unfold extractValues. rewrite <- list_fmap_compose.
  rewrite <- (lookup_default_seq VoidTy Tys) at 2.
  apply list_fmap_ext. intros _ j _. unfold compose. cbn [getType].
  by rewrite Hty.
Qed.

(** A call site that is well typed gives a call that is.  When the callee
    has the function type [Input -> Result] in a registry in good order, the
    expected result type has the schema of [Result], the explicit arguments
    lower to values of the types the input asks for, and a context that is
    passed is an [i8*], then: the callee of the emitted call is a pointer
    to the signature of the rule for the flag chosen, the arguments of the
    call have exactly the parameter types of that signature, that call is
    the only one emitted, and the r-value returned has the shape and the
    types of the result schema. *)
Theorem call_is_well_typed
    (E : ApplyExpr) (resultType : TypeInfo) (st : IRGenFunction)
    (fn data : Value) (argvs : list Value) (st1 st2 : IRGenFunction)
    (info : FuncTypeInfo) (Input Result : SwiftType) :
  generalCall E resultType st fn data argvs st1 st2 info →
  registryAgrees (IGM st2) →
  Expr_getType (getFn E) = FunctionType Input Result →
  getSchema resultType = getSchema (getFragileTypeInfo Result) →
  map getType argvs = inputArgTypes Input →
  (isa_UndefValue data = false → getType data = Int8PtrTy) →
  ∃ rv st' callee callArgs,
    emitApplyExpr E resultType st = Ok (rv, st')
    ∧ Insert (S (NextId st2)) (BuilderIP st2) (Call callee callArgs []) ∈ Trace st'
    ∧ callArguments (drop (length (Trace st2)) (Trace st')) = [callArgs]
    ∧ getType callee
      = PointerTy (signatureRule Input Result (negb (isa_UndefValue data)))
    ∧ map getType callArgs
      = getParamTypes (signatureRule Input Result (negb (isa_UndefValue data)))
    ∧ hasSchema (getSchema resultType) rv.
Proof.
  intros (Hgen & Hfn & Harg & Hinfo) Hreg Hty Hschema Hargs Hdata.
  pose proof (emitApplyExpr_general_run E resultType fn data argvs st st1 st2
                info Hfn Harg Hinfo) as Hrun.
  cbv zeta in Hrun.
  destruct (registryAgrees_lookup _ _ _ Hreg Hinfo) as [HT Hok].
  rewrite Hty in HT. injection HT as HI HR.
  rewrite (getFunctionType_signature info _ Hok), <- HI, <- HR in Hrun.
  set (needsData := negb (isa_UndefValue data)) in *.
  set (sig := signatureRule Input Result needsData) in *.
  unfold emitApplyExpr. rewrite Hgen, Hrun. clear Hrun.
  assert (Hctx : map getType (if needsData then [data] else [])
                 = contextArg needsData).
  { subst needsData. destruct (isa_UndefValue data); [done|].
    cbn. by rewrite Hdata. }
  assert (Hparams : ∀ slot,
            map getType slot = indirectReturnSlot (getSchema resultType) →
            map getType (slot ++ argvs ++ (if needsData then [data] else []))
            = getParamTypes sig).
  { intros slot Hslot. rewrite !map_app, Hslot, Hargs, Hctx, Hschema. done. }
  assert (Hret : getType (callValue sig (NextId st2))
                 = returnTypeRule (getSchema resultType)).
  { by rewrite Hschema. }
  unfold resultSlot in *.
  destruct (getSchema resultType) as [Ty A|Tys] eqn:Hrs; cbn [fst snd] in *.
  - eexists _, _, _, _. split; [reflexivity|].
    rewrite Trace_advance, drop_app_length. unfold callEvents.
    split; [rewrite elem_of_app; right; apply (list_elem_of_lookup_2 _ 1); reflexivity|].
    split; [reflexivity|]. split; [reflexivity|].
    split; [by apply Hparams|]. reflexivity.
  - destruct (Nat.eqb_spec (length Tys) 1) as [Hone|Hnot].
    + eexists _, _, _, _. split; [reflexivity|].
      rewrite Trace_advance, drop_app_length. unfold callEvents.
      split; [rewrite elem_of_app; right; apply (list_elem_of_lookup_2 _ 1); reflexivity|].
      split; [reflexivity|]. split; [reflexivity|].
      split; [by apply Hparams|].
      destruct Tys as [|T [|T' Tys]]; try discriminate Hone.
      cbn. f_equal. exact Hret.
    + eexists _, _, _, _. split; [reflexivity|].
      rewrite Trace_advance, drop_app_length. unfold callEvents.
      split; [rewrite !elem_of_app; right; left; apply (list_elem_of_lookup_2 _ 1); reflexivity|].
      split.
      { cbn. unfold extractEvents, callArguments.
        induction (seq 0 (length Tys)) as [|j js IH]; [done|]. exact IH. }
      split; [reflexivity|]. split; [by apply Hparams|].
      cbn [hasSchema].
      destruct Tys as [|T [|T' Tys]]; [done|done|].
      apply getType_extractValues. exact Hret.
Qed.

(** A direct call of a function.  When the callee lowers to what
    [emitExplodedRValueForFunction] forms for a declaration, its context is
    the undefined sentinel, so the call is emitted on the signature without
    data and passes the result slot, if there is one, and the explicit
    arguments alone.  The code pointer that is cast is the address of the
    function or, for a local function, the undefined placeholder. *)
Theorem function_reference_call_passes_no_context
    (E : ApplyExpr) (Fn : ValueDecl) (resultType : TypeInfo)
    (e : Explosion.t) (argvs : list Value) (st st1 st2 : IRGenFunction)
    (info : FuncTypeInfo) :
  calledBuiltin E = None →
  emitExplodedRValueForFunction Fn (Explosion.new Maximal) st = Ok (e, st1) →
  lowerExpr (getFn E) Maximal st = Ok (Explosion.getAll e, st1) →
  lowerExpr (getArg E) Minimal (resultSlot resultType st1).2 = Ok (argvs, st2) →
  lookupFuncTypeInfo (Expr_getType (getFn E)) (IGM st2) = Some info →
  let callee :=
    if isLocalContext (getDeclContext Fn)
    then UndefValue Int8PtrTy else getAddrOfGlobalFunction Fn in
  let sig := (FuncTypeInfo_getFunctionType info false).1 in
  ∃ rv st' extracts,
    emitApplyExpr E resultType st = Ok (rv, st')
    ∧ Trace st'
      = Trace st2
        ++ callEvents callee sig ((resultSlot resultType st1).1.1 ++ argvs)
             (resultSlot resultType st1).1.2 (BuilderIP st2) (NextId st2)
        ++ extracts
    ∧ callArguments extracts = [].
Proof.
  intros Hgen Hform Hfn Harg Hinfo callee sig.
  assert (He : Explosion.getAll e = [callee; UndefValue Int8PtrTy]).
  { unfold emitExplodedRValueForFunction in Hform. subst callee.
    destruct (isLocalContext (getDeclContext Fn)); cbn in Hform;
      by injection Hform as <- <-. }
  rewrite He in Hfn.
  pose proof (emitApplyExpr_general_run E resultType callee (UndefValue Int8PtrTy)
                argvs st st1 st2 info Hfn Harg Hinfo) as Hrun.
  cbv zeta in Hrun. cbn [isa_UndefValue negb] in Hrun. fold sig in Hrun.
  rewrite app_nil_r in Hrun.
  unfold emitApplyExpr. rewrite Hgen, Hrun. clear Hrun.
  assert (Htr : ∀ evs n m, Trace (advance evs n (withIGM m st2)) = Trace st2 ++ evs).
  { intros evs n m. rewrite Trace_advance. by destruct st2. }
  destruct (getSchema resultType) as [Ty A|Tys].
  - eexists _, _, []. split; [reflexivity|]. by rewrite Htr, app_nil_r.
  - destruct (Nat.eqb (length Tys) 1).
    + eexists _, _, []. split; [reflexivity|]. by rewrite Htr, app_nil_r.
    + eexists _, _, _. split; [reflexivity|]. rewrite Htr.
      split; [reflexivity|].
      unfold extractEvents, callArguments.
      induction (seq 0 (length Tys)) as [|j js IH]; [done|]. exact IH.
Qed.

End CallTyping.

(** ** Exploded calls *)

Section ExplodedCalls.
Context `{C : Collaborators}.

(** The r-value of a call on the general path has the schema of the
    result type of the callee. *)
Lemma emitApplyExpr_conforms
    (E : ApplyExpr) (resultType : TypeInfo) (st : IRGenFunction)
    (fn data : Value) (argvs : list Value) (st1 st2 : IRGenFunction)
    (info : FuncTypeInfo) (Input Result : SwiftType) :
  generalCall E resultType st fn data argvs st1 st2 info →
  registryAgrees (IGM st2) →
  Expr_getType (getFn E) = FunctionType Input Result →
  getSchema resultType = getSchema (getFragileTypeInfo Result) →
  ∃ rv st',
    emitApplyExpr E resultType st = Ok (rv, st')
    ∧ hasSchema (getSchema resultType) rv.
Proof.
  intros (Hgen & Hfn & Harg & Hinfo) Hreg Hty Hschema.
  pose proof (emitApplyExpr_general_run E resultType fn data argvs st st1 st2
                info Hfn Harg Hinfo) as Hrun.
  cbv zeta in Hrun.
  destruct (registryAgrees_lookup _ _ _ Hreg Hinfo) as [HT Hok].
  rewrite Hty in HT. injection HT as HI HR.
  rewrite (getFunctionType_signature info _ Hok), <- HI, <- HR in Hrun.
  set (sig := signatureRule Input Result (negb (isa_UndefValue data))) in *.
  unfold emitApplyExpr. rewrite Hgen, Hrun. clear Hrun.
  assert (Hret : getType (callValue sig (NextId st2))
                 = returnTypeRule (getSchema resultType)).
  { by rewrite Hschema. }
  destruct (getSchema resultType) as [Ty A|Tys].
  - by eexists _, _.
  - destruct (Nat.eqb_spec (length Tys) 1) as [Hone|Hnot].
    + eexists _, _. split; [reflexivity|].
      destruct Tys as [|T [|T' Tys]]; try discriminate Hone.
      cbn. f_equal. exact Hret.
    + eexists _, _. split; [reflexivity|]. cbn [hasSchema].
      destruct Tys as [|T [|T' Tys]]; [done|done|].
      apply getType_extractValues. exact Hret.
Qed.

(** [emitExplodedApplyExpr] emits the call with the descriptor of the
    expression's own type as the expected result type and hands the
    r-value of the call to that descriptor's [explode], once, with the
    explosion it was given and in the state the call left.  On the general
    path, for a callee whose function type has the type of the expression
    as its result, in a registry in good order, that r-value has the
    schema of the descriptor it is handed to. *)
Theorem exploded_apply_hands_over_result
    (explode : TypeInfo → RValue.t → Explosion.t → Emit Explosion.t)
    (E : ApplyExpr) (explosion : Explosion.t) (st : IRGenFunction)
    (fn data : Value) (argvs : list Value) (st1 st2 : IRGenFunction)
    (info : FuncTypeInfo) (Input : SwiftType) :
  let type := getFragileTypeInfo (ApplyExpr_getType E) in
  generalCall E type st fn data argvs st1 st2 info →
  registryAgrees (IGM st2) →
  Expr_getType (getFn E) = FunctionType Input (ApplyExpr_getType E) →
  ∃ rv st',
    emitApplyExpr E type st = Ok (rv, st')
    ∧ hasSchema (getSchema type) rv
    ∧ emitExplodedApplyExpr explode E explosion st
      = explode type rv explosion st'.
Proof.
  intros type Hcall Hreg Hty.
  destruct (emitApplyExpr_conforms E type st fn data argvs st1 st2 info Input
              (ApplyExpr_getType E) Hcall Hreg Hty eq_refl)
    as (rv & st' & Hrun & Hrv).
  exists rv, st'. split; [exact Hrun|]. split; [exact Hrv|].
  unfold emitExplodedApplyExpr. fold type.
  erewrite bind_run; [reflexivity|exact Hrun].
Qed.

End ExplodedCalls.

(** ** Closures, explosions and argument lists *)

Lemma getAll_cons (e : Explosion.t) (v : Value) (rest : list Value) :
  Explosion.getAll e = v :: rest →
  Explosion.claimNext e
  = Ok (v, Explosion.mk (Explosion.Kind e) (Explosion.Values e)
                        (S (Explosion.NextValue e)))
  ∧ Explosion.getAll
      (Explosion.mk (Explosion.Kind e) (Explosion.Values e)
                    (S (Explosion.NextValue e))) = rest.
Proof.
  unfold Explosion.getAll, Explosion.claimNext. intros H. cbn.
  assert (Hl : Explosion.Values e !! Explosion.NextValue e = Some v).
  { pose proof (lookup_drop (Explosion.Values e) (Explosion.NextValue e) 0) as Hd.
    rewrite H, Nat.add_0_r in Hd. by rewrite <- Hd. }
  rewrite Hl. split; [done|].
  rewrite (drop_S _ _ _ Hl) in H. by injection H.
Qed.

Lemma getAll_nil (e : Explosion.t) :
  Explosion.getAll e = [] →
  Explosion.claimNext e = Fatal "claimNext: explosion has no value left".
Proof.
  unfold Explosion.getAll, Explosion.claimNext. intros H.
  pose proof (lookup_drop (Explosion.Values e) (Explosion.NextValue e) 0) as Hd.
  rewrite H, Nat.add_0_r in Hd. by rewrite <- Hd.
Qed.

Section ClosureExplosions.
Context `{C : Collaborators}.

(** [FuncTypeInfo::store] takes an r-value of exactly two scalars: it
    stores the first to field 0 at the alignment of the slot and the second
    to field 1 at the alignment at the offset of the data; an aggregate
    r-value, or any other number of scalars, fails its assertion, before
    anything is emitted. *)
Theorem FuncTypeInfo_store_requires_two_scalars
    (info : FuncTypeInfo) (RV : RValue.t) (address : Address) (st : IRGenFunction) :
  match RV with
  | RValue.forScalars [fn; data] =>
      FuncTypeInfo_store info RV address st
      = Ok ((), advance (storeEvents info address fn data (BuilderIP st) (NextId st))
                        4 st)
  | _ =>
      FuncTypeInfo_store info RV address st
      = Fatal "RV.isScalar() && RV.getScalars().size() == 2"
  end.
Proof.
  destruct RV as [[|fn [|data [|extra vs]]]|a]; try reflexivity.
  apply FuncTypeInfo_store_run.
Qed.

(** Where the descriptor's [getSchema] answers, loading a closure from a
    slot of the descriptor's storage type yields an r-value that has that
    schema: two scalars of the types of the two fields, the results of the
    two loads [FuncTypeInfo::load] emits, and of nothing else. *)
Theorem closure_load_has_schema
    (info : FuncTypeInfo) (schema : RValueSchema.t) (address : Address)
    (st : IRGenFunction) :
  FuncTypeInfo_getSchema info = Ok schema →
  getType (getAddress address) = PointerTy (FuncTypeInfo_StorageType info) →
  ∃ fn data st',
    FuncTypeInfo_load info address st = Ok (RValue.forScalars [fn; data], st')
    ∧ hasSchema schema (RValue.forScalars [fn; data])
    ∧ Trace st' = Trace st ++ loadEvents info address (BuilderIP st) (NextId st).
Proof.
  intros Hschema Hty. eexists _, _, _. split; [apply FuncTypeInfo_load_run|].
  split; [|by rewrite Trace_advance].
  unfold FuncTypeInfo_getSchema in Hschema.
  destruct (FuncTypeInfo_StorageType info) as [| | | | |elts|] eqn:Hst;
    try discriminate.
  destruct (Nat.eqb (length elts) 2); [|discriminate].
  injection Hschema as <-.
  unfold hasSchema, loadedValue, fieldAddress.
  cbn [map getType getPointeeType]. by rewrite Hty.
Qed.

Lemma FuncTypeInfo_storeExplosion_run (info : FuncTypeInfo) (e : Explosion.t)
    (addr : Address) (st : IRGenFunction) :
  FuncTypeInfo_storeExplosion info e addr st
  = match Explosion.getAll e with
    | func :: data :: _ =>
        Ok (Explosion.mk (Explosion.Kind e) (Explosion.Values e)
                         (Explosion.NextValue e + 2),
            advance (storeEvents info addr func data (BuilderIP st) (NextId st)) 4 st)
    | _ => Fatal "claimNext: explosion has no value left"
    end.
Proof.
  unfold FuncTypeInfo_storeExplosion.
  destruct (Explosion.getAll e) as [|func [|data rest]] eqn:Hall.
  - erewrite bind_fatal; [reflexivity|]. unfold liftResult.
    by rewrite (getAll_nil _ Hall).
  - destruct (getAll_cons _ _ _ Hall) as [Hc1 Hrest].
    erewrite bind_run; [|unfold liftResult; by rewrite Hc1]. cbv beta iota.
    erewrite bind_fatal; [reflexivity|]. unfold liftResult.
    by rewrite (getAll_nil _ Hrest).
  - destruct (getAll_cons _ _ _ Hall) as [Hc1 Hrest].
    destruct (getAll_cons _ _ _ Hrest) as [Hc2 _].
    erewrite bind_run; [|unfold liftResult; by rewrite Hc1]. cbv beta iota.
    erewrite bind_run; [|unfold liftResult; by rewrite Hc2]. cbv beta iota.
    erewrite bind_run; [|apply FuncTypeInfo_store_run].
    unfold Emit_ret. cbn [Explosion.Kind Explosion.Values Explosion.NextValue].
    repeat f_equal. lia.
Qed.

Lemma FuncTypeInfo_loadExplosion_run (info : FuncTypeInfo) (addr : Address)
    (e : Explosion.t) (st : IRGenFunction) :
  FuncTypeInfo_loadExplosion info addr e st
  = Ok (Explosion.add [loadedValue addr (NextId st + 1) 0;
                       loadedValue addr (NextId st + 3) 1] e,
        advance (loadEvents info addr (BuilderIP st) (NextId st)) 4 st).
Proof.
  unfold FuncTypeInfo_loadExplosion.
  erewrite bind_run; [|apply FuncTypeInfo_load_run]. reflexivity.
Qed.

(** The views of an exploded closure agree.  [getSchema] and
    [getExplosionSchema] make the same cast and the same assertion, so one
    answers exactly when the other does; the schema then has as many
    scalars as [getExplosionSize] answers, and [getExplosionSchema] has
    appended one scalar element per scalar of the schema, in order.
    [loadExplosion] adds that many values and claims none;
    [storeExplosion] claims that many values and adds none, and is fatal
    when fewer are left to claim. *)
Theorem explosion_size_agrees
    (info : FuncTypeInfo) (kind : ExplosionKind) (addr : Address)
    (e : Explosion.t) (st : IRGenFunction) :
  let n := FuncTypeInfo_getExplosionSize info kind in
  (∀ schema,
     FuncTypeInfo_getSchema info = Ok schema →
     length (RValueSchema.getScalarTypes schema) = n
     ∧ ∀ elements,
         FuncTypeInfo_getExplosionSchema info elements
         = Ok (elements
               ++ map ExplosionSchema.forScalar
                      (RValueSchema.getScalarTypes schema)))
  ∧ (∀ elements elements',
       FuncTypeInfo_getExplosionSchema info elements = Ok elements' →
       ∃ schema, FuncTypeInfo_getSchema info = Ok schema)
  ∧ (∃ e' st' added,
       FuncTypeInfo_loadExplosion info addr e st = Ok (e', st')
       ∧ Explosion.Values e' = Explosion.Values e ++ added
       ∧ length added = n
       ∧ Explosion.NextValue e' = Explosion.NextValue e)
  ∧ (n ≤ length (Explosion.getAll e) →
     ∃ e' st',
       FuncTypeInfo_storeExplosion info e addr st = Ok (e', st')
       ∧ Explosion.Values e' = Explosion.Values e
       ∧ Explosion.NextValue e' = Explosion.NextValue e + n)
  ∧ (length (Explosion.getAll e) < n →
     ∃ msg, FuncTypeInfo_storeExplosion info e addr st = Fatal msg).
Proof.
  intros n. subst n. unfold FuncTypeInfo_getExplosionSize.
  split.
  { intros schema. unfold FuncTypeInfo_getSchema, FuncTypeInfo_getExplosionSchema.
    destruct (FuncTypeInfo_StorageType info) as [| | | | |elts|] eqn:Hty;
      try discriminate.
    destruct (Nat.eqb (length elts) 2); [|discriminate].
    intros [= <-]. split; [reflexivity|]. intros elements.
    unfold ExplosionSchema.add. cbn. by rewrite <- app_assoc. }
  split.
  { intros elements elements'.
    unfold FuncTypeInfo_getSchema, FuncTypeInfo_getExplosionSchema.
    destruct (FuncTypeInfo_StorageType info) as [| | | | |elts|] eqn:Hty;
      try discriminate.
    destruct (Nat.eqb (length elts) 2); [|discriminate].
    intros _. by eexists. }
  split.
  { rewrite FuncTypeInfo_loadExplosion_run. by eexists _, _, _. }
  rewrite FuncTypeInfo_storeExplosion_run.
  destruct (Explosion.getAll e) as [|func [|data rest]]; cbn [length]; split;
    intros Hlen; try lia; try (by eexists); by eexists _, _.
Qed.

(** A closure stored from an explosion and loaded into a new one:
    [storeExplosion] claims the code pointer and the context from the front
    and leaves the rest unclaimed, [loadExplosion] yields two values, and
    when the emitted code runs, on a machine where the slot is an address
    and the claimed values are defined, those two values equal the two
    that were claimed. *)
Theorem explosion_round_trip
    (info : FuncTypeInfo) (address : Address) (e : Explosion.t)
    (kind : ExplosionKind) (codePtr dataPtr : Value) (rest : list Value)
    (st : IRGenFunction) (m : Machine) (b : nat) (path : list nat)
    (c d : RtValue) :
  Explosion.getAll e = codePtr :: dataPtr :: rest →
  definedIn st codePtr → definedIn st dataPtr →
  definedIn st (getAddress address) →
  evalValue m (getAddress address) = Some (RtAddress b path) →
  evalValue m codePtr = Some c →
  evalValue m dataPtr = Some d →
  ∃ e1 st1 e2 st2 fn data m',
    FuncTypeInfo_storeExplosion info e address st = Ok (e1, st1)
    ∧ Explosion.getAll e1 = rest
    ∧ FuncTypeInfo_loadExplosion info address (Explosion.new kind) st1
      = Ok (e2, st2)
    ∧ Explosion.getAll e2 = [fn; data]
    ∧ execTrace (drop (length (Trace st)) (Trace st2)) m = Some m'
    ∧ evalValue m' fn = Some c
    ∧ evalValue m' data = Some d.
Proof.
  intros Hall Hc Hd Ha Ea Ec Ed.
  destruct (store_load_exec info address codePtr dataPtr (BuilderIP st)
              (BuilderIP st) (NextId st) m b path c d Hc Hd Ha Ea Ec Ed)
    as (m' & Hexec & Hfn & Hdata).
  rewrite FuncTypeInfo_storeExplosion_run, Hall.
  eexists _, _, _, _, _, _, m'.
  split; [reflexivity|]. split.
  { destruct (getAll_cons _ _ _ Hall) as [_ Hrest].
    destruct (getAll_cons _ _ _ Hrest) as [_ Hrest'].
    unfold Explosion.getAll in *. cbn in *.
    by replace (Explosion.NextValue e + 2) with (S (S (Explosion.NextValue e)))
      by lia. }
  split; [apply FuncTypeInfo_loadExplosion_run|]. split; [reflexivity|].
  rewrite !NextId_advance, !BuilderIP_advance, !Trace_advance.
  rewrite <- app_assoc, drop_app_length.
  split; [exact Hexec|]. split; [exact Hfn|exact Hdata].
Qed.

Lemma addArg_types (Ty : SwiftType) (rv : RValue.t) (args : ArgList) :
  hasSchema (getSchema (getFragileTypeInfo Ty)) rv →
  map getType (Explosion.Values (ArgList_Values (ArgList_addArg rv args)))
  = addArgType Ty (map getType (Explosion.Values (ArgList_Values args)))
  ∧ Explosion.NextValue (ArgList_Values (ArgList_addArg rv args))
    = Explosion.NextValue (ArgList_Values args)
  ∧ ArgList_Attrs (ArgList_addArg rv args) = ArgList_Attrs args.
Proof.
  rewrite addArgType_app. unfold hasSchema, argGroupTypes.
  destruct (getSchema (getFragileTypeInfo Ty)) as [AggTy A|Tys], rv as [vs|a];
    try done; cbn; intros <-; by rewrite map_app.
Qed.

(** An argument list built with [ArgList::addArg] keeps in step with the
    signature: from r-values that have the schemas of the fields of the
    input, one after the other, the values accumulated have exactly the
    parameter types that [getFunctionType] gives the function type after
    the indirect-return slot, and no attribute is added. *)
Theorem addArg_follows_signature
    (Fields : list SwiftType) (Result : SwiftType) (rvs : list RValue.t) :
  Forall2 (λ Field rv, hasSchema (getSchema (getFragileTypeInfo Field)) rv)
          Fields rvs →
  let args := foldl (λ args rv, ArgList_addArg rv args) (ArgList_new Minimal) rvs in
  getParamTypes
    (FuncTypeInfo_getFunctionType
       (convertFunctionType (TupleType Fields) Result) false).1
  = indirectReturnSlot (getSchema (getFragileTypeInfo Result))
    ++ map getType (Explosion.getAll (ArgList_Values args))
  ∧ ArgList_Attrs args = [].
Proof.
  intros Hall args.
  rewrite getFunctionType_signature by apply convertFunctionType_cachesAgree.
  unfold signatureRule, contextArg, inputArgTypes. cbn [getParamTypes argGroups
    FnTy_Input FnTy_Result convertFunctionType].
  rewrite app_nil_r.
  assert (Hinv : ∀ start,
    let args' := foldl (λ args rv, ArgList_addArg rv args) start rvs in
    map getType (Explosion.Values (ArgList_Values args'))
    = map getType (Explosion.Values (ArgList_Values start))
      ++ flat_map argGroupTypes Fields
    ∧ Explosion.NextValue (ArgList_Values args')
      = Explosion.NextValue (ArgList_Values start)
    ∧ ArgList_Attrs args' = ArgList_Attrs start).
  { clear args. induction Hall as [|F rv Fs rvs' Hrv Hrest IH]; intros start.
    - cbn. by rewrite app_nil_r.
    - cbn [foldl flat_map].
      destruct (IH (ArgList_addArg rv start)) as (H1 & H2 & H3).
      destruct (addArg_types F rv start Hrv) as (G1 & G2 & G3).
      cbv zeta. rewrite H1, H2, H3, G1, G2, G3, addArgType_app.
      by rewrite <- app_assoc. }
  destruct (Hinv (ArgList_new Minimal)) as (H1 & H2 & H3).
  fold args in H1, H2, H3. cbn in H1, H2, H3.
  split; [|exact H3]. f_equal. unfold Explosion.getAll.
  by rewrite H2, drop_0, H1.
Qed.

End ClosureExplosions.

(** ** The prologue and the incoming arguments *)

Section PrologueArguments.
Context `{C : Collaborators}.





End PrologueArguments.

(** ** The state the prologue leaves *)

(** More of the algebra of states. *)
Lemma advance_withLocals L evs n st :
  advance evs n (withLocals L st) = withLocals L (advance evs n st).
Proof. by destruct st. Qed.

Lemma advance_withReturnSlot R evs n st :
  advance evs n (withReturnSlot R st) = withReturnSlot R (advance evs n st).
Proof. by destruct st. Qed.

Lemma withLocals_withLocals L L' st :
  withLocals L (withLocals L' st) = withLocals L st.
Proof. by destruct st. Qed.

Lemma Locals_withLocals L st : Locals (withLocals L st) = L.
Proof. by destruct st. Qed.

Lemma Locals_advance evs n st : Locals (advance evs n st) = Locals st.
Proof. by destruct st. Qed.

Lemma CurFnArgs_withLocals L st : CurFnArgs (withLocals L st) = CurFnArgs st.
Proof. by destruct st. Qed.

Lemma NextId_withLocals L st : NextId (withLocals L st) = NextId st.
Proof. by destruct st. Qed.

Lemma withReturnSlot_same st : withReturnSlot (ReturnSlot st) st = st.
Proof. by destruct st. Qed.

(** Straight-line code leaves the block list alone. *)
Lemma getBasicBlockList_app (tr evs : list Event) :
  getBasicBlockList (tr ++ evs) = foldl replayBlock (getBasicBlockList tr) evs.
Proof. unfold getBasicBlockList. apply foldl_app. Qed.

Lemma replayBlock_straight (bbs : list BasicBlock) (evs : list Event) :
  forallb isStraightLine evs = true → foldl replayBlock bbs evs = bbs.
Proof.
  induction evs as [|e evs IH]; [done|]. cbn [forallb foldl].
  intros [He Hevs]%andb_prop. rewrite <- (IH Hevs) at 2. f_equal.
  destruct e as [id p i| | | | | |]; try discriminate He; reflexivity.
Qed.

Section PrologueState.
Context `{C : Collaborators}.

Lemma emittingStores_wellBehaved (Parms : list ArgDecl) :
  emittingStores Parms → wellBehavedStores Parms.
Proof.
  intros H Parm RV addr st u st' Hin Hst.
  destruct (H Parm RV addr st u st' Hin Hst) as (evs & n & -> & _).
  apply keepsFunctionState_advance.
Qed.

(** One parameter, the loop over the parameters and the whole prologue,
    with stores that only emit. *)
Lemma emitPrologue_parm_emits Parm CurParm st CurParm' st' :
  (∀ RV addr s u s',
     store (getFragileTypeInfo (ArgDecl_getType Parm)) RV addr s = Ok (u, s') →
     ∃ evs n, s' = advance evs n s ∧ forallb isStraightLine evs = true) →
  emitPrologue_parm CurParm Parm st = Ok (CurParm', st') →
  CurParm' ≤ length (CurFnArgs st) →
  let ParmInfo := getFragileTypeInfo (ArgDecl_getType Parm) in
  ∃ parmAddr evs n,
    st' = withLocals (<[ArgDeclId Parm := parmAddr]> (Locals st)) (advance evs n st)
    ∧ forallb isStraightLine evs = true
    ∧ Locals st !! ArgDeclId Parm = None
    ∧ getAlignment parmAddr = StorageAlignment ParmInfo
    ∧ match getSchema ParmInfo with
      | RValueSchema.forAggregate _ _ =>
          CurFnArgs st !! CurParm = Some (getAddress parmAddr)
      | RValueSchema.forScalars _ =>
          getAddress parmAddr
          = Instruction (NextId st) (PointerTy (StorageType ParmInfo))
          ∧ ScopedAlloca (NextId st) (StorageType ParmInfo)
                         (StorageAlignment ParmInfo) ∈ evs
      end.
Proof.
  intros Hstore H Hle ParmInfo. subst ParmInfo.
  unfold emitPrologue_parm in *. cbv zeta in H.
  destruct (getSchema (getFragileTypeInfo (ArgDecl_getType Parm)))
    as [AggTy A|Tys] eqn:Hschema;
    cbn [RValueSchema.isAggregate RValueSchema.isScalar
         RValueSchema.getScalarTypes] in H.
  - apply bind_inv in H as ([parmAddr P1] & s1 & Haddr & H).
    apply bind_inv in Haddr as ([V P] & s2 & Hnext & Hret).
    apply nextParm_inv in Hnext as (-> & -> & Harg).
    apply ret_inv in Hret as [[= -> ->] ->].
    apply bind_inv in H as (P2 & s3 & Hret & H).
    apply ret_inv in Hret as [-> ->].
    apply bind_inv in H as (s4 & s5 & Hget & H).
    apply getState_inv in Hget as [-> ->].
    apply bind_inv in H as (? & s6 & Hassert & H).
    apply assertion_inv in Hassert as [Hnone ->].
    apply bool_decide_eq_true in Hnone.
    apply bind_inv in H as (? & s7 & Hmod & Hret).
    apply modifyState_inv in Hmod as ->.
    apply ret_inv in Hret as [-> ->].
    specialize (Harg ltac:(lia)).
    eexists _, [], 0. rewrite advance_nil. by repeat split.
  - apply bind_inv in H as ([parmAddr P1] & s1 & Haddr & H).
    apply bind_inv in Haddr as (a & s2 & Halloc & Hret).
    rewrite createScopeAlloca_run in Halloc. injection Halloc as <- <-.
    apply ret_inv in Hret as [[= -> ->] ->].
    apply bind_inv in H as (P2 & s3 & Hloop & H).
    apply bind_inv in Hloop as ([Scalars P3] & s4 & Hloop & Hst).
    apply scalars_loop_inv in Hloop as (-> & ->).
    apply bind_inv in Hst as (? & s5 & Hst & Hret).
    apply ret_inv in Hret as [-> ->].
    apply Hstore in Hst as (evs & n & -> & Hevs).
    apply bind_inv in H as (s6 & s7 & Hget & H).
    apply getState_inv in Hget as [-> ->].
    apply bind_inv in H as (? & s8 & Hassert & H).
    apply assertion_inv in Hassert as [Hnone ->].
    apply bool_decide_eq_true in Hnone.
    apply bind_inv in H as (? & s9 & Hmod & Hret).
    apply modifyState_inv in Hmod as ->.
    apply ret_inv in Hret as [-> ->].
    rewrite !Locals_advance in *. rewrite advance_advance.
    eexists _, _, _. split; [reflexivity|].
    split; [exact Hevs|]. split; [exact Hnone|]. split; [reflexivity|].
    split; [reflexivity|]. apply list_elem_of_here.
Qed.

Lemma parms_loop_emits (Parms : list ArgDecl) CurParm st CurParm' st' :
  emittingStores Parms →
  forEach emitPrologue_parm Parms CurParm st = Ok (CurParm', st') →
  CurParm' ≤ length (CurFnArgs st) →
  ∃ L evs n,
    st' = withLocals L (advance evs n st)
    ∧ forallb isStraightLine evs = true
    ∧ NoDup (map ArgDeclId Parms)
    ∧ (∀ Parm, Parm ∈ Parms → Locals st !! ArgDeclId Parm = None)
    ∧ (∀ k, k ∉ map ArgDeclId Parms → L !! k = Locals st !! k)
    ∧ (∀ Parm, Parm ∈ Parms →
         let ParmInfo := getFragileTypeInfo (ArgDecl_getType Parm) in
         ∃ parmAddr,
           L !! ArgDeclId Parm = Some parmAddr
           ∧ getAlignment parmAddr = StorageAlignment ParmInfo
           ∧ match getSchema ParmInfo with
             | RValueSchema.forAggregate _ _ =>
                 getAddress parmAddr ∈ CurFnArgs st
             | RValueSchema.forScalars _ =>
                 ∃ id,
                   NextId st ≤ id
                   ∧ getAddress parmAddr
                     = Instruction id (PointerTy (StorageType ParmInfo))
                   ∧ ScopedAlloca id (StorageType ParmInfo)
                                  (StorageAlignment ParmInfo) ∈ evs
             end).
Proof.
  revert CurParm st. induction Parms as [|Parm Parms IH];
    intros CurParm st Hstores H Hle.
  - simpl in H. unfold Emit_ret in H. injection H as <- <-.
    exists (Locals st), [], 0. rewrite advance_nil.
    split; [by destruct st|]. split; [done|]. split; [constructor|].
    split; [by intros ? ?%elem_of_nil|]. split; [done|].
    by intros ? ?%elem_of_nil.
  - cbn [forEach] in H. apply bind_inv in H as (P1 & s1 & Hparm & Hrest).
    assert (Hrest' : emittingStores Parms).
    { intros P RV addr s u s' HP. apply Hstores. by right. }
    pose proof (parms_loop_inv _ _ _ _ _
                  (emittingStores_wellBehaved _ Hrest') Hrest) as [Hidx _].
    apply emitPrologue_parm_emits in Hparm
      as (a1 & e1 & n1 & -> & He1 & Hnone1 & Halign1 & Hshape1); [| |lia].
    2:{ intros RV addr s u s' Hst. eapply Hstores; [|exact Hst]. by left. }
    apply IH in Hrest as (L & e2 & n2 & -> & He2 & Hnodup & Hfresh & Hout & Hin);
      [|done|by rewrite CurFnArgs_withLocals, CurFnArgs_advance].
    rewrite Locals_withLocals in Hfresh, Hout.
    rewrite CurFnArgs_withLocals, CurFnArgs_advance in Hin.
    rewrite NextId_withLocals, NextId_advance in Hin.
    assert (Hnotin : ArgDeclId Parm ∉ map ArgDeclId Parms).
    { intros (P & Heq & HP)%list_elem_of_fmap.
      specialize (Hfresh P HP). rewrite <- Heq, lookup_insert_eq in Hfresh.
      discriminate. }
    exists L, (e1 ++ e2), (n1 + n2).
    split.
    { by rewrite advance_withLocals, withLocals_withLocals, advance_advance. }
    split; [by rewrite forallb_app, He1, He2|].
    split; [cbn [map]; by apply NoDup_cons_2|].
    split.
    { intros P [->|HP]%elem_of_cons; [done|].
      specialize (Hfresh P HP).
      destruct (decide (ArgDeclId Parm = ArgDeclId P)) as [Heq|Hne].
      - rewrite Heq, lookup_insert_eq in Hfresh. discriminate.
      - by rewrite lookup_insert_ne in Hfresh. }
    split.
    { intros k Hk. cbn [map] in Hk. apply not_elem_of_cons in Hk as [Hk1 Hk2].
      rewrite (Hout k Hk2). by rewrite lookup_insert_ne. }
    intros P [->|HP]%elem_of_cons ParmInfo; subst ParmInfo.
    + exists a1. rewrite (Hout _ Hnotin), lookup_insert_eq.
      split; [done|]. split; [done|].
      destruct (getSchema (getFragileTypeInfo (ArgDecl_getType Parm))).
      * by eapply list_elem_of_lookup_2.
      * destruct Hshape1 as [Haddr Hev]. exists (NextId st).
        split; [lia|]. split; [done|]. apply elem_of_app. by left.
    + destruct (Hin P HP) as (a & Hl & Halign & Hshape).
      exists a. split; [done|]. split; [done|].
      destruct (getSchema (getFragileTypeInfo (ArgDecl_getType P))); [done|].
      destruct Hshape as (id & Hid & Haddr & Hev). exists id.
      split; [lia|]. split; [done|]. apply elem_of_app. by right.
Qed.


(** A function that has a block already has had its prologue. *)
Lemma emitPrologue_nonempty (st : IRGenFunction) :
  getBasicBlockList (Trace st) ≠ [] →
  emitPrologue st = Fatal "prologue already emitted?".
Proof.
  intros Hnot. unfold emitPrologue.
  erewrite bind_fatal; [reflexivity|].
  unfold emitPrologue_setup, createBasicBlock.
  erewrite bind_run; [|apply freshId_run].
  erewrite bind_run; [|reflexivity].
  erewrite bind_fatal; [reflexivity|].
  rewrite Trace_advance, app_nil_r, bool_decide_eq_false_2 by done.
  reflexivity.
Qed.

(** The prologue, run with stores that only emit: the state it leaves. *)
Lemma emitPrologue_emits (st : IRGenFunction) u st' :
  emittingStores (NamedArgs (CurFuncExpr st)) →
  emitPrologue st = Ok (u, st') →
  ∃ Input Result L R evs n,
    FuncExpr_getType (CurFuncExpr st) = FunctionType Input Result
    ∧ getBasicBlockList (Trace st) = []
    ∧ st' = withLocals L (withReturnSlot R (advance evs n (afterSetup st)))
    ∧ forallb isStraightLine evs = true
    ∧ match getSchema (getFragileTypeInfo Result) with
      | RValueSchema.forAggregate _ _ =>
          ∃ V, CurFnArgs st !! 0 = Some V
               ∧ R = Some (mkAddress V (StorageAlignment (getFragileTypeInfo Result)))
      | RValueSchema.forScalars [] => R = None
      | RValueSchema.forScalars (_ :: _) =>
          R = Some (mkAddress
                      (Instruction (NextId st + 3)
                         (PointerTy (StorageType (getFragileTypeInfo Result))))
                      (StorageAlignment (getFragileTypeInfo Result)))
      end
    ∧ NoDup (map ArgDeclId (NamedArgs (CurFuncExpr st)))
    ∧ (∀ Parm, Parm ∈ NamedArgs (CurFuncExpr st) →
               Locals st !! ArgDeclId Parm = None)
    ∧ (∀ k, k ∉ map ArgDeclId (NamedArgs (CurFuncExpr st)) →
            L !! k = Locals st !! k)
    ∧ (∀ Parm, Parm ∈ NamedArgs (CurFuncExpr st) →
         let ParmInfo := getFragileTypeInfo (ArgDecl_getType Parm) in
         ∃ parmAddr,
           L !! ArgDeclId Parm = Some parmAddr
           ∧ getAlignment parmAddr = StorageAlignment ParmInfo
           ∧ match getSchema ParmInfo with
             | RValueSchema.forAggregate _ _ =>
                 getAddress parmAddr ∈ CurFnArgs st
             | RValueSchema.forScalars _ =>
                 ∃ id,
                   NextId st ≤ id
                   ∧ getAddress parmAddr
                     = Instruction id (PointerTy (StorageType ParmInfo))
                   ∧ ScopedAlloca id (StorageType ParmInfo)
                                  (StorageAlignment ParmInfo) ∈ evs
             end).
Proof.
  intros Hstores H.
  assert (Hempty : getBasicBlockList (Trace st) = []).
  { destruct (decide (getBasicBlockList (Trace st) = [])) as [|Hnot]; [done|].
    rewrite (emitPrologue_nonempty _ Hnot) in H. discriminate. }
  apply emitPrologue_inv_args in H
    as (Input & Result & s1 & Hty & Hres & Hloop & Hargs1 & _ & Hlen);
    [|by apply emittingStores_wellBehaved].
  apply emitPrologue_resultSlot_inv in Hres.
  unfold resultSlots in Hlen.
  assert (Hs1 : ∃ R e0 n0,
    s1 = withReturnSlot R (advance e0 n0 (afterSetup st))
    ∧ forallb isStraightLine e0 = true
    ∧ match getSchema (getFragileTypeInfo Result) with
      | RValueSchema.forAggregate _ _ =>
          ∃ V, CurFnArgs st !! 0 = Some V
               ∧ R = Some (mkAddress V (StorageAlignment (getFragileTypeInfo Result)))
      | RValueSchema.forScalars [] => R = None
      | RValueSchema.forScalars (_ :: _) =>
          R = Some (mkAddress
                      (Instruction (NextId st + 3)
                         (PointerTy (StorageType (getFragileTypeInfo Result))))
                      (StorageAlignment (getFragileTypeInfo Result)))
      end).
  { destruct (getSchema (getFragileTypeInfo Result)) as [AggTy A|[|T Tys]].
    - destruct Hres as (V & Harg & _ & ->).
      cbn [RValueSchema.isAggregate] in Hlen.
      eexists _, [], 0. rewrite advance_nil. split; [reflexivity|].
      split; [done|]. exists V. split; [|done].
      rewrite (proj1 (afterSetup_keeps st)) in Harg. apply Harg. lia.
    - destruct Hres as (Hnone & _ & ->).
      exists None, [], 0. rewrite advance_nil, <- Hnone, withReturnSlot_same.
      by rewrite Hnone.
    - destruct Hres as (_ & ->).
      eexists _, _, _. split; [reflexivity|]. split; [reflexivity|].
      by destruct st. }
  destruct Hs1 as (R & e0 & n0 & -> & He0 & HR).
  apply parms_loop_emits in Hloop
    as (L & e2 & n2 & -> & He2 & Hnodup & Hfresh & Hout & Hin);
    [|done|by rewrite Hargs1].
  assert (HL : Locals (withReturnSlot R (advance e0 n0 (afterSetup st)))
               = Locals st) by (by destruct st).
  assert (HA : CurFnArgs (withReturnSlot R (advance e0 n0 (afterSetup st)))
               = CurFnArgs st) by (by destruct st).
  assert (HN : NextId st ≤ NextId (withReturnSlot R (advance e0 n0 (afterSetup st))))
    by (destruct st; cbn; lia).
  rewrite HL in Hfresh, Hout. rewrite HA in Hin.
  exists Input, Result, L, R, (e0 ++ e2), (n0 + n2).
  split; [done|]. split; [done|].
  split; [by rewrite advance_withReturnSlot, advance_advance|].
  split; [by rewrite forallb_app, He0, He2|].
  split; [done|]. split; [done|]. split; [done|]. split; [done|].
  intros Parm HParm ParmInfo. subst ParmInfo.
  destruct (Hin Parm HParm) as (a & Hl & Halign & Hshape).
  exists a. split; [done|]. split; [done|].
  destruct (getSchema (getFragileTypeInfo (ArgDecl_getType Parm))); [done|].
  destruct Hshape as (id & Hid & Haddr & Hev). exists id.
  split; [lia|]. split; [done|]. apply elem_of_app. by right.
Qed.

(** Provided that storing a parameter only emits code, a prologue that
    completes has bound every named parameter in [Locals], each once: the
    declarations are pairwise distinct and none was bound before, no other
    entry of [Locals] has changed, an aggregate parameter is bound to an
    incoming argument itself, and a scalar parameter to a scoped slot of
    its storage type that the prologue allocated, both at the storage
    alignment of the parameter's type. *)
Theorem prologue_binds_parameters (st : IRGenFunction) u st' :
  emittingStores (NamedArgs (CurFuncExpr st)) →
  emitPrologue st = Ok (u, st') →
  let Parms := NamedArgs (CurFuncExpr st) in
  NoDup (map ArgDeclId Parms)
  ∧ (∀ Parm, Parm ∈ Parms → Locals st !! ArgDeclId Parm = None)
  ∧ (∀ k, k ∉ map ArgDeclId Parms → Locals st' !! k = Locals st !! k)
  ∧ (∀ Parm, Parm ∈ Parms →
       let ParmInfo := getFragileTypeInfo (ArgDecl_getType Parm) in
       ∃ parmAddr,
         Locals st' !! ArgDeclId Parm = Some parmAddr
         ∧ getAlignment parmAddr = StorageAlignment ParmInfo
         ∧ match getSchema ParmInfo with
           | RValueSchema.forAggregate _ _ =>
               getAddress parmAddr ∈ CurFnArgs st
           | RValueSchema.forScalars _ =>
               ∃ id,
                 NextId st ≤ id
                 ∧ getAddress parmAddr
                   = Instruction id (PointerTy (StorageType ParmInfo))
                 ∧ ScopedAlloca id (StorageType ParmInfo)
                                (StorageAlignment ParmInfo)
                   ∈ drop (length (Trace st)) (Trace st')
           end).
Proof.
  intros Hstores H Parms. subst Parms.
  apply emitPrologue_emits in H
    as (Input & Result & L & R & evs & n & _ & _ & -> & _ & _
        & Hnodup & Hfresh & Hout & Hin); [|done].
  rewrite Locals_withLocals.
  split; [done|]. split; [done|]. split; [done|].
  intros Parm HParm ParmInfo. subst ParmInfo.
  destruct (Hin Parm HParm) as (a & Hl & Halign & Hshape).
  exists a. split; [done|]. split; [done|].
  destruct (getSchema (getFragileTypeInfo (ArgDecl_getType Parm))); [done|].
  destruct Hshape as (id & Hid & Haddr & Hev). exists id.
  split; [done|]. split; [done|].
  assert (Htr : Trace (withLocals L (withReturnSlot R (advance evs n (afterSetup st))))
                = Trace st ++ setupEvents (NextId st) ++ evs).
  { destruct st. cbn. by rewrite <- app_assoc. }
  rewrite Htr, drop_app_length. apply elem_of_app. by right.
Qed.


(** Provided that storing a parameter only emits straight-line code, a
    prologue that completes started on a function without blocks and
    leaves it with two, the entry block and the return block in that order,
    with the builder positioned in the entry block, the alloca insertion
    point as the first instruction of the entry block, and nothing but
    straight-line code emitted after the return block was appended;
    emitting the prologue a second time is fatal. *)
Theorem prologue_layout (st : IRGenFunction) u st' :
  emittingStores (NamedArgs (CurFuncExpr st)) →
  emitPrologue st = Ok (u, st') →
  let entry := NextId st in
  let ret := NextId st + 2 in
  getBasicBlockList (Trace st) = []
  ∧ getBasicBlockList (Trace st') = [entry; ret]
  ∧ BuilderIP st' = Some entry
  ∧ AllocaIP st' = Some (NextId st + 1)
  ∧ ReturnBB st' = Some ret
  ∧ (∃ body,
       Trace st' = Trace st ++ setupEvents entry ++ body
       ∧ forallb isStraightLine body = true)
  ∧ emitPrologue st' = Fatal "prologue already emitted?".
Proof.
  intros Hstores H entry ret.
  apply emitPrologue_emits in H
    as (Input & Result & L & R & evs & n & _ & Hempty & -> & Hevs & _); [|done].
  assert (Htr : Trace (withLocals L (withReturnSlot R (advance evs n (afterSetup st))))
                = Trace st ++ setupEvents (NextId st) ++ evs).
  { destruct st. cbn. by rewrite <- app_assoc. }
  assert (Hblocks :
    getBasicBlockList
      (Trace (withLocals L (withReturnSlot R (advance evs n (afterSetup st)))))
    = [entry; ret]).
  { rewrite Htr, app_assoc, getBasicBlockList_app, replayBlock_straight by done.
    rewrite getBasicBlockList_app, Hempty. reflexivity. }
  split; [done|]. split; [done|].
  split; [by destruct st|]. split; [by destruct st|]. split; [by destruct st|].
  split; [by exists evs|].
  apply emitPrologue_nonempty. by rewrite Hblocks.
Qed.

End PrologueState.

(** ** The epilogue: resolution and return *)

Lemma usesOf_app (bb : BasicBlock) (tr evs : list Event) :
  usesOf bb (tr ++ evs) = usesAmong bb (foldl replayInstr (liveInstrs tr) evs).
Proof. unfold usesOf, usesAmong, liveInstrs. by rewrite foldl_app. Qed.

(** Erasing instructions never gives a block a use, and erasing its one
    user leaves it without any. *)
Lemma usesAmong_filter_nil (bb : BasicBlock) (P : LiveInstr → Prop)
    `{!∀ x, Decision (P x)} (live : list LiveInstr) :
  usesAmong bb live = [] → usesAmong bb (filter P live) = [].
Proof.
  unfold usesAmong. induction live as [|li live IH]; [done|].
  cbn [flat_map]. intros [H1 H2]%app_eq_nil. rewrite filter_cons.
  destruct (decide (P li)); [|by apply IH].
  cbn [flat_map]. by rewrite H1, IH.
Qed.

Lemma usesAmong_erase_single (bb : BasicBlock) (live : list LiveInstr)
    (x : LiveInstr) :
  usesAmong bb live = [x] →
  usesAmong bb (filter (λ li, li.1.1 ≠ x.1.1) live) = [].
Proof.
  unfold usesAmong. induction live as [|li live IH]; [done|].
  cbn [flat_map]. rewrite filter_cons.
  destruct (blockOperands bb li.2) as [|k] eqn:Hk; cbn [replicate app].
  - intros H. destruct (decide (li.1.1 ≠ x.1.1)); [|by apply IH].
    cbn [flat_map]. rewrite Hk. cbn. by apply IH.
  - intros [= -> Hrest]. apply app_eq_nil in Hrest as [_ Hrest].
    destruct (decide (x.1.1 ≠ x.1.1)); [done|].
    by apply (usesAmong_filter_nil bb).
Qed.

Lemma usesAmong_app (bb : BasicBlock) (l k : list LiveInstr) :
  usesAmong bb (l ++ k) = usesAmong bb l ++ usesAmong bb k.
Proof. apply flat_map_app. Qed.

Lemma usesOf_nil_app (bb : BasicBlock) (tr evs : list Event) :
  usesOf bb tr = [] →
  forallb (addsNoUse bb) evs = true →
  usesOf bb (tr ++ evs) = [].
Proof.
  rewrite usesOf_app. unfold usesOf. fold (usesAmong bb (liveInstrs tr)).
  generalize (liveInstrs tr). clear tr.
  induction evs as [|e evs IH]; intros live Hlive; [done|].
  cbn [forallb foldl]. intros [He Hevs]%andb_prop. apply IH; [|done].
  destruct e as [id p i| | | | |id|b]; cbn [replayInstr]; try done.
  - rewrite usesAmong_app, Hlive. unfold usesAmong. cbn.
    apply Nat.eqb_eq in He. by rewrite He.
  - by apply usesAmong_filter_nil.
  - by apply usesAmong_filter_nil.
Qed.

Lemma isStraightLine_addsNoUse (bb : BasicBlock) (evs : list Event) :
  forallb isStraightLine evs = true → forallb (addsNoUse bb) evs = true.
Proof.
  induction evs as [|e evs IH]; [done|]. cbn [forallb].
  intros [He Hevs]%andb_prop. rewrite (IH Hevs), andb_true_r.
  destruct e as [id p i| | | | | |]; try done. by destruct i.
Qed.

Section EpilogueResolution.
Context `{C : Collaborators}.

Lemma hasValidIP_run (st : IRGenFunction) :
  hasValidIP st = Ok (bool_decide (is_Some (BuilderIP st)), st).
Proof. reflexivity. Qed.

(** The branches of the control-flow resolution, one by one. *)
Lemma resolve_no_uses (RetBB : BasicBlock) (st : IRGenFunction) :
  usesOf RetBB (Trace st) = [] →
  emitEpilogue_resolve RetBB st
  = Ok (bool_decide (is_Some (BuilderIP st)), advance [EraseBlock RetBB] 0 st).
Proof.
  intros Huses. unfold emitEpilogue_resolve.
  erewrite bind_run; [|reflexivity]. cbv zeta.
  erewrite bind_run; [|apply hasValidIP_run].
  rewrite Huses, bool_decide_eq_true_2 by done.
  erewrite bind_run; [|apply logEvent_run].
  by destruct (bool_decide (is_Some (BuilderIP st))).
Qed.

Lemma resolve_branch (RetBB bb : BasicBlock) (st : IRGenFunction) :
  usesOf RetBB (Trace st) ≠ [] →
  BuilderIP st = Some bb →
  emitEpilogue_resolve RetBB st
  = Ok (true,
        advance [Insert (NextId st) (Some bb) (Br RetBB); SetInsertPoint RetBB] 1
                (withBuilderIP (Some RetBB) st)).
Proof.
  intros Huses Hip. unfold emitEpilogue_resolve, CreateBr.
  erewrite bind_run; [|reflexivity]. cbv zeta.
  erewrite bind_run; [|apply hasValidIP_run].
  rewrite bool_decide_eq_false_2 by done.
  rewrite bool_decide_eq_true_2 by (rewrite Hip; eauto).
  erewrite bind_run; last first.
  { erewrite bind_run; [|apply emitInstr_run]. reflexivity. }
  erewrite bind_run; [|apply Builder_SetInsertPoint_run].
  norm_state. rewrite Hip. reflexivity.
Qed.

Lemma resolve_merge (RetBB Pred : BasicBlock) (BrId : nat) (Dest : BasicBlock)
    (st : IRGenFunction) :
  usesOf RetBB (Trace st) = [(BrId, Some Pred, Br Dest)] →
  BuilderIP st = None →
  emitEpilogue_resolve RetBB st
  = Ok (true,
        advance [SetInsertPoint Pred; EraseInstruction BrId; EraseBlock RetBB] 0
                (withBuilderIP (Some Pred) st)).
Proof.
  intros Huses Hip. unfold emitEpilogue_resolve.
  erewrite bind_run; [|reflexivity]. cbv zeta.
  erewrite bind_run; [|apply hasValidIP_run].
  rewrite Huses, Hip.
  rewrite bool_decide_eq_false_2 by done.
  rewrite bool_decide_eq_false_2 by (intros [? ?]; discriminate).
  cbn [length Nat.eqb].
  erewrite bind_run; [|apply Builder_SetInsertPoint_run].
  erewrite bind_run; [|apply logEvent_run].
  erewrite bind_run; [|apply logEvent_run].
  norm_state. reflexivity.
Qed.

Lemma resolve_move (RetBB : BasicBlock) (st : IRGenFunction) :
  2 ≤ length (usesOf RetBB (Trace st)) →
  BuilderIP st = None →
  emitEpilogue_resolve RetBB st
  = Ok (true, advance [SetInsertPoint RetBB] 0 (withBuilderIP (Some RetBB) st)).
Proof.
  intros Huses Hip. unfold emitEpilogue_resolve.
  erewrite bind_run; [|reflexivity]. cbv zeta.
  erewrite bind_run; [|apply hasValidIP_run].
  rewrite Hip.
  rewrite bool_decide_eq_false_2 by (intros E; rewrite E in Huses; cbn in Huses; lia).
  rewrite bool_decide_eq_false_2 by (intros [? ?]; discriminate).
  destruct (Nat.eqb_spec (length (usesOf RetBB (Trace st))) 1) as [E|_]; [lia|].
  erewrite bind_run; [|apply Builder_SetInsertPoint_run]. reflexivity.
Qed.

Lemma resolve_one_use_fatal (RetBB : BasicBlock) (use : LiveInstr)
    (st : IRGenFunction) :
  usesOf RetBB (Trace st) = [use] →
  BuilderIP st = None →
  (∀ Pred Dest, use ≠ (use.1.1, Some Pred, Br Dest)) →
  ∃ msg, emitEpilogue_resolve RetBB st = Fatal msg.
Proof.
  intros Huses Hip Hnot. unfold emitEpilogue_resolve.
  erewrite bind_run; [|reflexivity]. cbv zeta.
  erewrite bind_run; [|apply hasValidIP_run].
  rewrite Huses, Hip.
  rewrite bool_decide_eq_false_2 by done.
  rewrite bool_decide_eq_false_2 by (intros [? ?]; discriminate).
  cbn [length Nat.eqb].
  destruct use as [[BrId [Pred|]] I]; destruct I; try (by eexists).
  by destruct (Hnot Pred Dest).
Qed.

Lemma Trace_resolution evs n x (st : IRGenFunction) :
  drop (length (Trace st)) (Trace (advance evs n (withBuilderIP x st))) = evs.
Proof. by rewrite Trace_advance, Trace_withBuilderIP, drop_app_length. Qed.

(** The control-flow resolution of the epilogue keeps the function
    consistent.  The epilogue is unreachable exactly when the return block
    has no use and the builder has no insertion point; otherwise the
    builder ends up with one.  The return block is erased exactly when it
    has no use, or has one and the builder has no insertion point; whenever
    it is erased nothing refers to it any more, and whenever it is kept the
    builder is positioned in it.  The only instruction the resolution can
    emit is a branch to the return block, at the insertion point the
    builder had. *)
Theorem epilogue_resolution_sound
    (RetBB : BasicBlock) (st : IRGenFunction) (reachable : bool)
    (s1 : IRGenFunction) :
  emitEpilogue_resolve RetBB st = Ok (reachable, s1) →
  let uses := usesOf RetBB (Trace st) in
  let resolution := drop (length (Trace st)) (Trace s1) in
  (reachable = false ↔ uses = [] ∧ BuilderIP st = None)
  ∧ (reachable = true → is_Some (BuilderIP s1))
  ∧ (EraseBlock RetBB ∈ resolution
     ↔ uses = [] ∨ (BuilderIP st = None ∧ length uses = 1))
  ∧ (EraseBlock RetBB ∈ resolution → usesOf RetBB (Trace s1) = [])
  ∧ (EraseBlock RetBB ∉ resolution → BuilderIP s1 = Some RetBB)
  ∧ (∀ id p i, Insert id p i ∈ resolution →
               i = Br RetBB ∧ p = BuilderIP st ∧ is_Some p ∧ uses ≠ []).
Proof.
  intros H uses resolution. subst uses resolution.
  destruct (usesOf RetBB (Trace st)) as [|use rest] eqn:Huses.
  { rewrite (resolve_no_uses _ _ Huses) in H. injection H as <- <-.
    assert (Hdrop : drop (length (Trace st)) (Trace (advance [EraseBlock RetBB] 0 st))
                    = [EraseBlock RetBB])
      by (by rewrite Trace_advance, drop_app_length).
    rewrite Hdrop, BuilderIP_advance, Trace_advance.
    split.
    { rewrite bool_decide_eq_false. split.
      - intros Hnot. split; [done|]. destruct (BuilderIP st); [|done].
        destruct Hnot; eauto.
      - intros [_ ->] [? ?]. discriminate. }
    split; [by intros ?%bool_decide_eq_true|].
    split; [split; [by left|intros _; apply list_elem_of_here]|].
    split; [intros _; by apply usesOf_nil_app|].
    split; [intros Hnot; destruct Hnot; apply list_elem_of_here|].
    intros id p i Hin. apply list_elem_of_singleton in Hin. discriminate. }
  destruct (BuilderIP st) as [bb|] eqn:Hip.
  { rewrite (resolve_branch RetBB bb) in H by (by rewrite ?Huses). 
    injection H as <- <-. rewrite Trace_resolution.
    rewrite BuilderIP_advance, BuilderIP_withBuilderIP.
    split; [split; [discriminate|by intros [? _]]|].
    split; [eauto|].
    split.
    { split.
      - intros Hin. repeat (apply elem_of_cons in Hin as [Hin|Hin];
                            [discriminate|]). by apply elem_of_nil in Hin.
      - intros [?|[? _]]; discriminate. }
    split.
    { intros Hin. repeat (apply elem_of_cons in Hin as [Hin|Hin];
                          [discriminate|]). by apply elem_of_nil in Hin. }
    split; [done|].
    intros id p i Hin. apply elem_of_cons in Hin as [[= -> -> ->]|Hin].
    - split; [done|]. split; [done|]. split; [eauto|done].
    - apply list_elem_of_singleton in Hin. discriminate. }
  destruct rest as [|use' rest].
  { destruct use as [[BrId Parent] I].
    assert (Hshape : ∃ Pred Dest, Parent = Some Pred ∧ I = Br Dest).
    { destruct Parent as [Pred|], I; try (by eexists _, _);
        (destruct (resolve_one_use_fatal RetBB _ st Huses Hip) as [msg Hf];
         [intros P D; cbn; congruence | rewrite Hf in H; discriminate]). }
    destruct Hshape as (Pred & Dest & -> & ->).
    rewrite (resolve_merge _ _ _ _ _ Huses Hip) in H. injection H as <- <-.
    rewrite Trace_resolution.
    rewrite BuilderIP_advance, BuilderIP_withBuilderIP.
    assert (Hin : EraseBlock RetBB
                  ∈ [SetInsertPoint Pred; EraseInstruction BrId; EraseBlock RetBB])
      by (apply (list_elem_of_lookup_2 _ 2); reflexivity).
    split; [split; [discriminate|by intros [? _]]|].
    split; [eauto|].
    split; [split; [by right|done]|].
    split.
    { intros _. rewrite Trace_advance, Trace_withBuilderIP, usesOf_app.
      cbn [foldl replayInstr].
      apply usesAmong_filter_nil.
      apply (usesAmong_erase_single RetBB _ (BrId, Some Pred, Br Dest)).
      exact Huses. }
    split; [intros Hnot; by destruct Hnot|].
    intros id p i Hi. repeat (apply elem_of_cons in Hi as [Hi|Hi];
                              [discriminate|]). by apply elem_of_nil in Hi. }
  rewrite (resolve_move RetBB st) in H by (rewrite ?Huses; cbn; done || lia).
  injection H as <- <-. rewrite Trace_resolution.
  rewrite BuilderIP_advance, BuilderIP_withBuilderIP.
  split; [split; [discriminate|by intros [? _]]|].
  split; [eauto|].
  split.
  { split.
    - intros Hin%list_elem_of_singleton. discriminate.
    - intros [?|[_ ?]]; discriminate. }
  split; [intros Hin%list_elem_of_singleton; discriminate|].
  split; [done|].
  intros id p i Hin%list_elem_of_singleton. discriminate.
Qed.

(** The epilogue of code that has left the builder without an insertion
    point.  When nothing branches to the return block the epilogue is
    unreachable: it erases the alloca insertion point and the return block
    and emits no return.  When the one use of the return block is a
    conditional branch the merge into the predecessor fails its
    assertion. *)
Theorem epilogue_without_insertion_point
    (st : IRGenFunction) (allocaPoint : nat) (RetBB : BasicBlock) :
  AllocaIP st = Some allocaPoint →
  ReturnBB st = Some RetBB →
  BuilderIP st = None →
  let uses := usesOf RetBB (Trace st ++ [EraseInstruction allocaPoint]) in
  (uses = [] →
   emitEpilogue st
   = Ok ((), advance [EraseInstruction allocaPoint; EraseBlock RetBB] 0 st))
  ∧ (∀ id p c t f,
       uses = [(id, p, CondBr c t f)] →
       emitEpilogue st = Fatal "Br->isUnconditional()").
Proof.
  intros Halloca Hret Hip uses. subst uses.
  assert (Hstart : ∀ k : bool → Emit unit,
    Emit_bind getState
      (λ st, match AllocaIP st, ReturnBB st with
             | Some allocaPoint, Some RetBB =>
                 logEvent (EraseInstruction allocaPoint) ;;
                 let* reachable := emitEpilogue_resolve RetBB in
                 k reachable
             | _, _ => fatal "epilogue without a prologue"
             end) st
    = Emit_bind (emitEpilogue_resolve RetBB) k
                (advance [EraseInstruction allocaPoint] 0 st)).
  { intros k. erewrite bind_run; [|reflexivity]. rewrite Halloca, Hret.
    erewrite bind_run; [|apply logEvent_run]. reflexivity. }
  unfold emitEpilogue. rewrite Hstart. clear Hstart.
  split.
  - intros Huses.
    erewrite bind_run; last first.
    { apply resolve_no_uses. by rewrite Trace_advance. }
    rewrite BuilderIP_advance, Hip.
    rewrite bool_decide_eq_false_2 by (intros [? ?]; discriminate).
    by rewrite advance_advance.
  - intros id p c t f Huses.
    erewrite bind_fatal; [reflexivity|].
    unfold emitEpilogue_resolve.
    erewrite bind_run; [|reflexivity]. cbv zeta.
    erewrite bind_run; [|apply hasValidIP_run].
    rewrite Trace_advance, Huses, BuilderIP_advance, Hip.
    rewrite bool_decide_eq_false_2 by done.
    rewrite bool_decide_eq_false_2 by (intros [? ?]; discriminate).
    reflexivity.
Qed.

End EpilogueResolution.

Section EpilogueReturn.
Context `{C : Collaborators}.

Lemma aggregateBefore_step (acc : Value) (id n : nat) :
  aggregateBefore (Instruction id (getType acc)) (id + 1) n
  = aggregateBefore acc id (S n).
Proof. destruct n as [|n]; cbn; f_equal; lia. Qed.

(** The loop that builds the aggregate to return. *)
Lemma insert_loop (pre rest : list Value) (acc : Value) (st : IRGenFunction) :
  forEach (λ Result I,
             let* V := at_index (pre ++ rest) I in
             CreateInsertValue Result V I)
          (seq (length pre) (length rest)) acc st
  = Ok (aggregateBefore acc (NextId st) (length rest),
        advance (insertEvents acc rest (BuilderIP st) (NextId st) (length pre))
                (length rest) st).
Proof.
  revert pre acc st. induction rest as [|V rest IH]; intros pre acc st.
  - cbn. by rewrite advance_nil.
  - cbn [length seq forEach].
    erewrite bind_run; last first.
    { erewrite bind_run; last first.
      { unfold at_index. by rewrite list_lookup_middle. }
      unfold CreateInsertValue. apply emitInstr_run. }
    replace (pre ++ V :: rest) with ((pre ++ [V]) ++ rest)
      by (by rewrite <- app_assoc).
    replace (S (length pre)) with (length (pre ++ [V]))
      by (rewrite length_app; cbn; lia).
    rewrite IH. rewrite advance_advance, NextId_advance, BuilderIP_advance.
    rewrite aggregateBefore_step.
    unfold insertEvents. rewrite imap_cons. cbn [app aggregateBefore].
    rewrite !Nat.add_0_r.
    f_equal. f_equal. f_equal. f_equal.
    apply imap_ext. intros j V' _. unfold compose.
    rewrite aggregateBefore_step, length_app. cbn [length].
    f_equal; [lia|]. f_equal. lia.
Qed.

(** The three ways the epilogue returns. *)
Lemma emitEpilogue_return_aggregate (st : IRGenFunction) (Input Result : SwiftType) :
  FuncExpr_getType (CurFuncExpr st) = FunctionType Input Result →
  RValueSchema.isAggregate (getSchema (getFragileTypeInfo Result)) = true →
  emitEpilogue_return st
  = if from_option (λ a, isa_Argument (getAddress a)) false (ReturnSlot st)
    then Ok ((), advance [Insert (NextId st) (BuilderIP st) RetVoid] 1 st)
    else Fatal "isa<llvm::Argument>(ReturnSlot.getAddress())".
Proof.
  intros Hty Hagg. unfold emitEpilogue_return.
  erewrite bind_run; [|reflexivity]. rewrite Hty. cbn [getAs_FunctionType].
  cbv zeta. rewrite Hagg.
  destruct (from_option _ false (ReturnSlot st)); [|reflexivity].
  erewrite bind_run; [|reflexivity]. unfold CreateRetVoid.
  erewrite bind_run; [|apply emitInstr_run]. reflexivity.
Qed.

Lemma emitEpilogue_return_nothing (st : IRGenFunction) (Input Result : SwiftType) :
  FuncExpr_getType (CurFuncExpr st) = FunctionType Input Result →
  getSchema (getFragileTypeInfo Result) = RValueSchema.forScalars [] →
  emitEpilogue_return st
  = if bool_decide (ReturnSlot st = None)
    then Ok ((), advance [Insert (NextId st) (BuilderIP st) RetVoid] 1 st)
    else Fatal "!ReturnSlot.isValid()".
Proof.
  intros Hty Hschema. unfold emitEpilogue_return.
  erewrite bind_run; [|reflexivity]. rewrite Hty. cbn [getAs_FunctionType].
  cbv zeta. rewrite Hschema.
  cbn [RValueSchema.isAggregate RValueSchema.isScalarN RValueSchema.isScalar
       RValueSchema.getScalarTypes length Nat.eqb andb].
  destruct (bool_decide (ReturnSlot st = None)); [|reflexivity].
  erewrite bind_run; [|reflexivity]. unfold CreateRetVoid.
  erewrite bind_run; [|apply emitInstr_run]. reflexivity.
Qed.

Lemma emitEpilogue_return_scalars (st : IRGenFunction) (Input Result : SwiftType)
    (T : LType) (Tys : list LType) (slot : Address) (vs : list Value)
    (s2 : IRGenFunction) :
  FuncExpr_getType (CurFuncExpr st) = FunctionType Input Result →
  getSchema (getFragileTypeInfo Result) = RValueSchema.forScalars (T :: Tys) →
  ReturnSlot st = Some slot →
  load (getFragileTypeInfo Result) slot st = Ok (RValue.forScalars vs, s2) →
  let evs := returnEvents (CurFnReturnType st) vs (BuilderIP s2) (NextId s2) in
  emitEpilogue_return st = Ok ((), advance evs (length evs) s2).
Proof.
  intros Hty Hschema Hslot Hload evs. subst evs. unfold emitEpilogue_return.
  erewrite bind_run; [|reflexivity]. rewrite Hty. cbn [getAs_FunctionType].
  cbv zeta. rewrite Hschema, Hslot.
  cbn [RValueSchema.isAggregate RValueSchema.isScalarN RValueSchema.isScalar
       RValueSchema.getScalarTypes length Nat.eqb andb].
  erewrite bind_run; [|exact Hload].
  unfold returnEvents, CreateRet.
  destruct vs as [|V [|V' vs]].
  - cbn [RValue.isScalarN RValue.isScalar RValue.getScalars length Nat.eqb andb].
    erewrite bind_run; [|apply (insert_loop [] [])].
    erewrite bind_run; [|apply emitInstr_run].
    cbn. rewrite advance_nil, Nat.add_0_r. reflexivity.
  - cbn [RValue.isScalarN RValue.isScalar RValue.getScalars length Nat.eqb andb].
    erewrite bind_run; [|reflexivity].
    erewrite bind_run; [|apply emitInstr_run]. reflexivity.
  - cbn [RValue.isScalarN RValue.isScalar RValue.getScalars Nat.eqb andb].
    change (length (V :: V' :: vs) =? 1) with false. cbv iota.
    erewrite bind_run; [|apply (insert_loop [] (V :: V' :: vs))].
    erewrite bind_run; [|apply emitInstr_run].
    rewrite advance_advance, NextId_advance, BuilderIP_advance.
    rewrite length_app. unfold insertEvents. rewrite length_imap.
    reflexivity.
Qed.

(** The return the epilogue emits, by the schema of the result type.  An
    aggregate result returns void when the return slot is an incoming
    argument, and is fatal otherwise; a result of no scalars returns void
    when there is no return slot, and is fatal otherwise; in neither case
    is anything loaded.  Any other result is loaded from the return slot:
    one scalar is returned as it is; otherwise the scalars are inserted one
    by one, at the indices 0, 1, ..., into an aggregate of the function's
    return type that starts undefined, each insertion taking the result of
    the one before, and the result of the last is returned. *)
Theorem epilogue_return_by_schema
    (st : IRGenFunction) (Input Result : SwiftType) :
  FuncExpr_getType (CurFuncExpr st) = FunctionType Input Result →
  let resultType := getFragileTypeInfo Result in
  let retVoid := advance [Insert (NextId st) (BuilderIP st) RetVoid] 1 st in
  match getSchema resultType with
  | RValueSchema.forAggregate _ _ =>
      emitEpilogue_return st
      = match ReturnSlot st with
        | Some (mkAddress (Argument _ _) _) => Ok ((), retVoid)
        | _ => Fatal "isa<llvm::Argument>(ReturnSlot.getAddress())"
        end
  | RValueSchema.forScalars [] =>
      emitEpilogue_return st
      = match ReturnSlot st with
        | None => Ok ((), retVoid)
        | Some _ => Fatal "!ReturnSlot.isValid()"
        end
  | RValueSchema.forScalars (_ :: _) =>
      ∀ slot vs s2,
        ReturnSlot st = Some slot →
        load resultType slot st = Ok (RValue.forScalars vs, s2) →
        let evs := returnEvents (CurFnReturnType st) vs (BuilderIP s2) (NextId s2) in
        emitEpilogue_return st = Ok ((), advance evs (length evs) s2)
  end.
Proof.
  intros Hty resultType retVoid. subst resultType retVoid.
  destruct (getSchema (getFragileTypeInfo Result)) as [AggTy A|[|T Tys]] eqn:Hschema.
  - rewrite (emitEpilogue_return_aggregate st Input Result Hty)
      by (by rewrite Hschema).
    destruct (ReturnSlot st) as [[[] ?]|]; reflexivity.
  - rewrite (emitEpilogue_return_nothing st Input Result Hty Hschema).
    by destruct (ReturnSlot st).
  - intros slot vs s2 Hslot Hload.
    by eapply emitEpilogue_return_scalars.
Qed.

(** The epilogue emitted right after the prologue.  Provided that storing
    a parameter only emits straight-line code and that nothing refers to
    the return block beforehand, the epilogue erases the alloca insertion
    point and then the return block, and goes on in the entry block, the
    only block left: a function with an aggregate result, handed an
    argument as its first incoming value, or with a result of no scalars
    gets a void return as its last instruction, and one with scalar
    results returns what it loads from the slot the prologue allocated. *)
Theorem empty_function_epilogue (st : IRGenFunction) u st' :
  emittingStores (NamedArgs (CurFuncExpr st)) →
  usesOf (NextId st + 2) (Trace st) = [] →
  emitPrologue st = Ok (u, st') →
  let entry := NextId st in
  let s1 :=
    advance [EraseInstruction (NextId st + 1); EraseBlock (NextId st + 2)] 0 st' in
  emitEpilogue st' = emitEpilogue_return s1
  ∧ getBasicBlockList (Trace s1) = [entry]
  ∧ BuilderIP s1 = Some entry
  ∧ ∀ Input Result,
      FuncExpr_getType (CurFuncExpr st) = FunctionType Input Result →
      match getSchema (getFragileTypeInfo Result) with
      | RValueSchema.forAggregate _ _ =>
          (∀ V, CurFnArgs st !! 0 = Some V → isa_Argument V = true) →
          emitEpilogue st'
          = Ok ((), advance [Insert (NextId st') (Some entry) RetVoid] 1 s1)
      | RValueSchema.forScalars [] =>
          emitEpilogue st'
          = Ok ((), advance [Insert (NextId st') (Some entry) RetVoid] 1 s1)
      | RValueSchema.forScalars (_ :: _) =>
          ReturnSlot s1
          = Some (mkAddress
                    (Instruction (NextId st + 3)
                       (PointerTy (StorageType (getFragileTypeInfo Result))))
                    (StorageAlignment (getFragileTypeInfo Result)))
      end.
Proof.
  intros Hstores Huses H entry s1.
  apply emitPrologue_emits in H
    as (Input & Result & L & R & evs & n & Hty & Hempty & -> & Hevs & HR & _);
    [|done].
  set (st' := withLocals L (withReturnSlot R (advance evs n (afterSetup st)))) in *.
  assert (Htr : Trace st' = Trace st ++ setupEvents (NextId st) ++ evs).
  { subst st'. destruct st. cbn. by rewrite <- app_assoc. }
  assert (Hip : BuilderIP st' = Some entry) by (by destruct st).
  assert (Hfe : CurFuncExpr s1 = CurFuncExpr st) by (by destruct st).
  assert (Hslot : ReturnSlot s1 = R) by (by destruct st).
  assert (Hid : NextId s1 = NextId st').
  { subst s1. rewrite NextId_advance. lia. }
  assert (Hip1 : BuilderIP s1 = Some entry).
  { subst s1. by rewrite BuilderIP_advance. }
  assert (Hepi : emitEpilogue st' = emitEpilogue_return s1).
  { unfold emitEpilogue.
    erewrite bind_run; [|reflexivity].
    replace (AllocaIP st') with (Some (NextId st + 1)) by (by destruct st).
    replace (ReturnBB st') with (Some (NextId st + 2)) by (by destruct st).
    erewrite bind_run; [|apply logEvent_run].
    erewrite bind_run; last first.
    { apply resolve_no_uses. rewrite Trace_advance, Htr.
      rewrite <- !app_assoc. apply usesOf_nil_app; [done|].
      rewrite !forallb_app, (isStraightLine_addsNoUse _ _ Hevs). reflexivity. }
    rewrite BuilderIP_advance, Hip, bool_decide_eq_true_2 by eauto.
    by rewrite advance_advance. }
  split; [exact Hepi|].
  split.
  { subst s1. rewrite Trace_advance, Htr.
    rewrite getBasicBlockList_app.
    rewrite (app_assoc (Trace st)), getBasicBlockList_app.
    rewrite (replayBlock_straight _ evs) by done.
    rewrite getBasicBlockList_app, Hempty. cbn [foldl setupEvents replayBlock app].
    rewrite !filter_cons, filter_nil.
    rewrite decide_True by lia. by rewrite decide_False by lia. }
  split; [exact Hip1|].
  intros Input' Result' Hty'. rewrite Hty in Hty'. injection Hty' as <- <-.
  rewrite <- Hfe in Hty.
  destruct (getSchema (getFragileTypeInfo Result)) as [AggTy A|[|T Tys]] eqn:Hschema.
  - intros Harg. destruct HR as (V & HV & ->).
    rewrite Hepi, (emitEpilogue_return_aggregate s1 Input Result Hty)
      by (by rewrite Hschema).
    rewrite Hslot. cbn [from_option getAddress]. rewrite (Harg V HV).
    by rewrite Hid, Hip1.
  - rewrite Hepi, (emitEpilogue_return_nothing s1 Input Result Hty Hschema).
    rewrite Hslot, HR, bool_decide_eq_true_2 by done.
    by rewrite Hid, Hip1.
  - by rewrite Hslot.
Qed.

End EpilogueReturn.

(** ** Stores that leave the function state alone *)

Section StoreProperties.

Context `{C : Collaborators}.

Lemma FuncTypeInfo_store_keeps info RV address st u st' :
  FuncTypeInfo_store info RV address st = Ok (u, st') →
  keepsFunctionState st st'.
Proof.
  destruct RV as [[|fn [|data [|extra vs]]]|a]; try discriminate.
  rewrite FuncTypeInfo_store_run. intros [= _ <-].
  apply keepsFunctionState_advance.
Qed.

End StoreProperties.

Section Samples.

Local Existing Instance Sample.collaborators.

Lemma Sample_storeFields_run addr align vs I st :
  ∃ evs n, Sample.storeFields addr align I vs st = Ok ((), advance evs n st).
Proof.
  revert I st. induction vs as [|V vs IH]; intros I st.
  - exists [], 0. by rewrite advance_nil.
  - cbn [Sample.storeFields]. unfold CreateStructGEP, CreateStore.
    erewrite bind_run; [|apply emitInstr_run].
    erewrite bind_run; last first.
    { erewrite bind_run; [|apply emitInstr_run]. reflexivity. }
    destruct (IH (S I) (advance
                [Insert (NextId (advance [Insert (NextId st) (BuilderIP st)
                                            (StructGEP addr I)] 1 st))
                   (BuilderIP (advance [Insert (NextId st) (BuilderIP st)
                                          (StructGEP addr I)] 1 st))
                   (Store V (Instruction (NextId st)
                       (PointerTy (getElementType
                                     (getPointeeType (getType addr)) I)))
                      align)] 1
                (advance [Insert (NextId st) (BuilderIP st) (StructGEP addr I)]
                         1 st))) as (evs & n & ->).
    rewrite !advance_advance. by eexists _, _.
Qed.

Lemma Sample_wellBehavedStores (Parms : list ArgDecl) :
  wellBehavedStores Parms.
Proof.
  intros Parm RV addr st u st' _.
  cbn [getFragileTypeInfo Sample.collaborators].
  destruct (ArgDecl_getType Parm) as [n|Fields|Input Result];
    cbn [Sample.registry].
  - unfold Sample.typeInfoOf.
    destruct (Sample.schemaOf (NamedType n)) as [Ty A|Tys]; cbn [store].
    + discriminate.
    + destruct (Sample_storeFields_run (getAddress addr) (getAlignment addr)
                  (RValue.getScalars RV) 0 st) as (evs & k & ->).
      intros [= _ <-]. apply keepsFunctionState_advance.
  - unfold Sample.typeInfoOf.
    destruct (Sample.schemaOf (TupleType Fields)) as [Ty A|Tys]; cbn [store].
    + discriminate.
    + destruct (Sample_storeFields_run (getAddress addr) (getAlignment addr)
                  (RValue.getScalars RV) 0 st) as (evs & k & ->).
      intros [= _ <-]. apply keepsFunctionState_advance.
  - cbn [store FuncTypeInfo_asTypeInfo FuncTypeInfo_getSchema convertFunctionType
         FuncTypeInfo_StorageType length Nat.eqb]. apply FuncTypeInfo_store_keeps.
Qed.


(** With four or with six incoming arguments the same prologue is fatal.
    With four, the iterator is taken to [arg_end()] and advanced all the
    same; on this target what is there has not the type of the parameter,
    and the assertion on the type fails.  Where nothing looks at what is
    there, as for the result slot of a function without parameters, it is
    the closing assertion that fails. *)
Example prologue_insufficient_arguments :
  emitPrologue (Sample.marshalled (take 4 Sample.marshalledArgs))
  = Fatal "V->getType() == ParmType"
  ∧ emitPrologue (Sample.aggregateFunction [])
    = Fatal "didn't exhaust all parameters?".
Proof. split; vm_compute; reflexivity. Qed.

Example prologue_leftover_arguments :
  emitPrologue (Sample.marshalled
                  (Sample.marshalledArgs ++ [Argument 5 Sample.Int64Ty]))
  = Fatal "didn't exhaust all parameters?".
Proof. vm_compute. reflexivity. Qed.

(** A result of one scalar gets a local return slot, and a result of no
    scalars gets none. *)
Lemma prologue_return_slot_counterexample :
  (getSchema (getFragileTypeInfo Sample.Int) = RValueSchema.forScalars [Sample.Int64Ty]
   ∧ ∃ st',
       emitPrologue Sample.scalarFunction = Ok ((), st')
       ∧ ReturnSlot st'
         = Some (mkAddress (Instruction 3 (PointerTy (StructTy [Sample.Int64Ty]))) 8)
       ∧ Trace st' !! 4 = Some (ScopedAlloca 3 (StructTy [Sample.Int64Ty]) 8))
  ∧ (getSchema (getFragileTypeInfo (TupleType [])) = RValueSchema.forScalars []
     ∧ ∃ st',
         emitPrologue Sample.voidFunction = Ok ((), st')
         ∧ ReturnSlot st' = None
         ∧ Trace st'
           = [AppendBlock 0; SetInsertPoint 0;
              Insert 1 (Some 0) (Alloca Int1Ty); AppendBlock 2]).
Proof.
  split; (split; [reflexivity|]);
    (eexists; split; [vm_compute; reflexivity|]; split; reflexivity).
Qed.

(** The prologue of the aggregate-returning function binds the return
    slot to the first incoming argument. *)
Lemma prologue_return_slot_witness :
  ∃ st',
    emitPrologue (Sample.marshalled Sample.marshalledArgs) = Ok ((), st')
    ∧ ReturnSlot st'
      = Some (mkAddress (Argument 0 (PointerTy Sample.AggTy)) 8).
Proof.
  assert (Hrun : ∃ st', emitPrologue (Sample.marshalled Sample.marshalledArgs)
                        = Ok ((), st'))
    by (eexists; vm_compute; reflexivity).
  destruct Hrun as [st' Hrun]. exists st'. split; [exact Hrun|].
  destruct (prologue_return_slot (C := Sample.collaborators)
              (Sample.marshalled Sample.marshalledArgs) st'
              (TupleType [Sample.Int; Sample.binaryTy; Sample.Int]) Sample.Big
              eq_refl
              (Sample_wellBehavedStores _) Hrun)
    as (V & Harg & Hslot).
  injection Harg as <-. exact Hslot.
Defined.

(** A global function and the undefined sentinel stored into a closure
    slot and loaded back: what comes back are the two load instructions,
    not the values stored, and the context is no longer the sentinel. *)
Lemma closure_round_trip_counterexample :
  let info := convertFunctionType (TupleType [Sample.Int; Sample.Int]) Sample.Int in
  let codePtr := GlobalFunction "f" Int8PtrTy in
  let dataPtr := UndefValue Int8PtrTy in
  ∃ st1 rv st2,
    FuncTypeInfo_store info (RValue.forScalars [codePtr; dataPtr])
                       Sample.closureSlot Sample.caller = Ok ((), st1)
    ∧ FuncTypeInfo_load info Sample.closureSlot st1 = Ok (rv, st2)
    ∧ rv = RValue.forScalars [Instruction 5 Int8PtrTy; Instruction 7 Int8PtrTy]
    ∧ rv ≠ RValue.forScalars [codePtr; dataPtr]
    ∧ isa_UndefValue dataPtr = true
    ∧ isa_UndefValue (Instruction 7 Int8PtrTy) = false.
Proof.
  intros info codePtr dataPtr. eexists _, _, _.
  split; [vm_compute; reflexivity|]. split; [vm_compute; reflexivity|].
  split; [reflexivity|]. split; [discriminate|]. split; reflexivity.
Qed.

(** The same store and load, run on the sample machine. *)
Lemma closure_round_trip_witness :
  let info := convertFunctionType (TupleType [Sample.Int; Sample.Int]) Sample.Int in
  let codePtr := GlobalFunction "f" Int8PtrTy in
  let dataPtr := UndefValue Int8PtrTy in
  ∃ st1 fn data st2 m',
    FuncTypeInfo_store info (RValue.forScalars [codePtr; dataPtr])
                       Sample.closureSlot Sample.caller = Ok ((), st1)
    ∧ FuncTypeInfo_load info Sample.closureSlot st1
      = Ok (RValue.forScalars [fn; data], st2)
    ∧ execTrace (Trace st2) Sample.machine = Some m'
    ∧ evalValue m' fn = Some (RtWord 42)
    ∧ evalValue m' data = Some RtUndef
    ∧ isa_UndefValue data = false.
Proof.
  intros info codePtr dataPtr.
  destruct (closure_round_trip (C := Sample.collaborators) info
              Sample.closureSlot codePtr dataPtr Sample.caller Sample.machine
              0 [] (RtWord 42) RtUndef I I I eq_refl eq_refl eq_refl)
    as (st1 & fn & data & st2 & m' & Hst & Hld & _ & Hexec & Hfn & Hdata
        & _ & _ & Hundef).
  exists st1, fn, data, st2, m'. repeat split; assumption.
Defined.

(** The epilogue of the function from nothing to nothing, right after its
    prologue: the alloca insertion point goes first, and the last thing
    emitted is the return. *)
Lemma epilogue_discard_counterexample :
  ∃ s st',
    emitPrologue Sample.voidFunction = Ok ((), s)
    ∧ AllocaIP s = Some 1
    ∧ emitEpilogue s = Ok ((), st')
    ∧ drop (length (Trace s)) (Trace st')
      = [EraseInstruction 1; EraseBlock 2; Insert 3 (Some 0) RetVoid]
    ∧ last (Trace st') = Some (Insert 3 (Some 0) RetVoid)
    ∧ last (Trace st') ≠ Some (EraseInstruction 1).
Proof.
  eexists _, _. split; [vm_compute; reflexivity|]. split; [reflexivity|].
  split; [vm_compute; reflexivity|]. split; [reflexivity|]. split; [reflexivity|].
  discriminate.
Qed.

Lemma epilogue_discards_alloca_point_first_witness :
  ∃ s st',
    emitPrologue Sample.voidFunction = Ok ((), s)
    ∧ emitEpilogue s = Ok ((), st')
    ∧ ∃ reachable s1 resolution,
        emitEpilogue_resolve 2 (advance [EraseInstruction 1] 0 s)
        = Ok (reachable, s1)
        ∧ Trace s1 = Trace s ++ EraseInstruction 1 :: resolution
        ∧ resolution ≠ [].
Proof.
  assert (Hpro : ∃ s, emitPrologue Sample.voidFunction = Ok ((), s)
                      ∧ AllocaIP s = Some 1 ∧ ReturnBB s = Some 2
                      ∧ ∃ st', emitEpilogue s = Ok ((), st')).
  { eexists. split; [vm_compute; reflexivity|].
    split; [reflexivity|]. split; [reflexivity|].
    eexists. vm_compute. reflexivity. }
  destruct Hpro as (s & Hpro & HA & HR & st' & Hepi).
  destruct (epilogue_discards_alloca_point_first (C := Sample.collaborators)
              s () st' Hepi)
    as (allocaPoint & RetBB & reachable & s1 & resolution & Ha & Hr & Hres
        & Htr & Hshape & Hne & Hret).
  exists s, st'. split; [exact Hpro|]. split; [exact Hepi|].
  rewrite HA in Ha. injection Ha as <-.
  rewrite HR in Hr. injection Hr as <-.
  by exists reachable, s1, resolution.
Defined.

(** The branch that merges the return block into its one predecessor: the
    body has emitted one branch to the return block and left no insertion
    point. *)
Example epilogue_merges_single_predecessor :
  ∃ s st',
    emitPrologue Sample.voidFunction = Ok ((), s)
    ∧ emitEpilogue (withBuilderIP None (advance [Insert 3 (Some 0) (Br 2)] 1 s))
      = Ok ((), st')
    ∧ drop (S (length (Trace s))) (Trace st')
      = [EraseInstruction 1; SetInsertPoint 0; EraseInstruction 3;
         EraseBlock 2; Insert 4 (Some 0) RetVoid].
Proof.
  eexists _, _. split; [vm_compute; reflexivity|].
  split; [vm_compute; reflexivity|]. reflexivity.
Qed.

(** The negation of one double. *)
Lemma unary_builtin_strict_arity_witness :
  let negDecl := mkValueDecl FuncDeclKind "neg" TheBuiltinModule in
  let x := Argument 0 DoubleTy in
  emitBuiltinCall negDecl (Sample.mkExpr Sample.Double [x])
                  (Sample.typeInfoOf Sample.Double) Sample.caller
  = Ok (RValue.forScalars [Instruction 0 DoubleTy],
        advance [Insert 0 None (UnOp Neg x)] 1 Sample.caller).
Proof.
  intros negDecl x.
  exact (unary_builtin_strict_arity (C := Sample.collaborators) negDecl
           (Sample.mkExpr Sample.Double [x]) (Sample.typeInfoOf Sample.Double)
           Neg [x] Sample.caller Sample.caller eq_refl eq_refl eq_refl).
Defined.

(** *** The further properties, on the sample target *)

(** The stores of the sample descriptors emit field addresses and stores,
    and nothing else. *)
Lemma Sample_storeFields_emits addr align vs I st :
  ∃ evs n, Sample.storeFields addr align I vs st = Ok ((), advance evs n st)
           ∧ forallb isStraightLine evs = true.
Proof.
  revert I st. induction vs as [|V vs IH]; intros I st.
  - exists [], 0. by rewrite advance_nil.
  - cbn [Sample.storeFields]. unfold CreateStructGEP, CreateStore.
    erewrite bind_run; [|apply emitInstr_run].
    erewrite bind_run; last first.
    { erewrite bind_run; [|apply emitInstr_run]. reflexivity. }
    match goal with
    | |- ∃ evs n, Sample.storeFields _ _ _ _ ?s = _ ∧ _ =>
        destruct (IH (S I) s) as (evs & n & -> & Hevs)
    end.
    rewrite !advance_advance. eexists _, _. split; [reflexivity|].
    cbn [app forallb isStraightLine andb]. exact Hevs.
Qed.

Lemma Sample_emittingStores (Parms : list ArgDecl) :
  emittingStores Parms.
Proof.
  intros Parm RV addr st u st' _.
  cbn [getFragileTypeInfo Sample.collaborators].
  destruct (ArgDecl_getType Parm) as [n|Fields|Input Result];
    cbn [Sample.registry].
  - unfold Sample.typeInfoOf.
    destruct (Sample.schemaOf (NamedType n)) as [Ty A|Tys]; cbn [store].
    + discriminate.
    + destruct (Sample_storeFields_emits (getAddress addr) (getAlignment addr)
                  (RValue.getScalars RV) 0 st) as (evs & k & -> & Hevs).
      intros [= _ <-]. by exists evs, k.
  - unfold Sample.typeInfoOf.
    destruct (Sample.schemaOf (TupleType Fields)) as [Ty A|Tys]; cbn [store].
    + discriminate.
    + destruct (Sample_storeFields_emits (getAddress addr) (getAlignment addr)
                  (RValue.getScalars RV) 0 st) as (evs & k & -> & Hevs).
      intros [= _ <-]. by exists evs, k.
  - cbn [store FuncTypeInfo_asTypeInfo FuncTypeInfo_getSchema convertFunctionType
         FuncTypeInfo_StorageType length Nat.eqb].
    destruct RV as [[|fn [|data [|extra vs]]]|a]; try discriminate.
    rewrite FuncTypeInfo_store_run. intros [= _ <-].
    by eexists _, _.
Qed.

(** The sample caller starts with an empty registry. *)
Lemma Sample_registryAgrees : registryAgrees (IGM Sample.caller).
Proof. intros T info Hin. by apply elem_of_nil in Hin. Qed.

(** The signature with data of [(Int, Int) -> Int], asked of the module. *)
Lemma IRGenModule_getFunctionType_signature_witness :
  registryAgrees (IGM Sample.caller)
  ∧ ∃ m',
      IRGenModule_getFunctionType Sample.binaryTy true Sample.caller
      = Ok (FunctionTy Sample.Int64Ty
              [Sample.Int64Ty; Sample.Int64Ty; Int8PtrTy] false,
            withIGM m' Sample.caller)
      ∧ registryAgrees m'.
Proof.
  split; [exact Sample_registryAgrees|].
  destruct (IRGenModule_getFunctionType_signature (C := Sample.collaborators)
              (TupleType [Sample.Int; Sample.Int]) Sample.Int true Sample.caller
              Sample_registryAgrees) as (m' & Hrun & Hreg & _).
  exists m'. split; [exact Hrun|exact Hreg].
Defined.

(** The builtin addition of two integers: one instruction, no call. *)
Lemma builtin_call_is_one_instruction_witness :
  let addDecl := mkValueDecl FuncDeclKind "add" TheBuiltinModule in
  let E := mkApplyExpr (C := Sample.collaborators)
             Sample.globalCallee Sample.twoInts Sample.Int (Some addDecl) in
  calledBuiltin E = Some addDecl
  ∧ ∃ rv st' i,
      emitApplyExpr E (Sample.typeInfoOf Sample.Int) Sample.caller = Ok (rv, st')
      ∧ Trace st' = [Insert 0 None i]
      ∧ callArguments (Trace st') = [].
Proof.
  intros addDecl E. split; [reflexivity|].
  assert (Hrun : ∃ rv st', emitApplyExpr E (Sample.typeInfoOf Sample.Int)
                             Sample.caller = Ok (rv, st'))
    by (eexists _, _; vm_compute; reflexivity).
  destruct Hrun as (rv & st' & Hrun).
  destruct (builtin_call_is_one_instruction (C := Sample.collaborators) E addDecl
              (Sample.typeInfoOf Sample.Int) Sample.caller st' rv eq_refl Hrun)
    as (operands & st1 & i & ty & Hlower & -> & _ & Hshape).
  injection Hlower as <- <-.
  eexists rv, _, i. split; [exact Hrun|]. split; [reflexivity|].
  destruct Hshape as [(Op & op & _ & ->)|(Op & lhs & rhs & _ & ->)]; reflexivity.
Defined.

(** The builtin comparison of two integers. *)
Lemma binary_builtin_strict_arity_witness :
  let eqDecl := mkValueDecl FuncDeclKind "cmp_eq" TheBuiltinModule in
  ∃ Op ty,
    emitBuiltinCall eqDecl Sample.twoInts (Sample.typeInfoOf Sample.Int)
                    Sample.caller
    = Ok (RValue.forScalars [Instruction 0 ty],
          advance [Insert 0 None
                     (BinOp Op (Argument 0 Sample.Int64Ty)
                               (Argument 1 Sample.Int64Ty))] 1 Sample.caller).
Proof.
  intros eqDecl.
  exact (binary_builtin_strict_arity (C := Sample.collaborators) eqDecl
           Sample.twoInts (Sample.typeInfoOf Sample.Int)
           [Argument 0 Sample.Int64Ty; Argument 1 Sample.Int64Ty]
           Sample.caller Sample.caller eq_refl eq_refl eq_refl).
Defined.

(** A callee that lowers to a code pointer and nothing more. *)
Lemma call_needs_two_callee_values_witness :
  let callee := Sample.mkExpr Sample.binaryTy [GlobalFunction "f" Int8PtrTy] in
  let E := mkApplyExpr (C := Sample.collaborators)
             callee Sample.twoInts Sample.Int None in
  emitApplyExpr E (Sample.typeInfoOf Sample.Int) Sample.caller
  = Fatal "claimNext: explosion has no value left".
Proof.
  intros callee E.
  exact (call_needs_two_callee_values (C := Sample.collaborators) E
           (Sample.typeInfoOf Sample.Int) [GlobalFunction "f" Int8PtrTy]
           Sample.caller Sample.caller eq_refl eq_refl ltac:(cbn; lia)).
Defined.

(** The call of a closure from two integers to an integer. *)
Lemma call_is_well_typed_witness :
  let E := mkApplyExpr (C := Sample.collaborators)
             Sample.closureCallee Sample.twoInts Sample.Int None in
  let resultType := Sample.typeInfoOf Sample.Int in
  ∃ rv st' callee callArgs,
    emitApplyExpr E resultType Sample.caller = Ok (rv, st')
    ∧ Insert 1 None (Call callee callArgs []) ∈ Trace st'
    ∧ getType callee
      = PointerTy (FunctionTy Sample.Int64Ty
                     [Sample.Int64Ty; Sample.Int64Ty; Int8PtrTy] false)
    ∧ map getType callArgs = [Sample.Int64Ty; Sample.Int64Ty; Int8PtrTy]
    ∧ hasSchema (getSchema resultType) rv.
Proof.
  intros E resultType.
  assert (H : generalCall E resultType Sample.caller (Argument 2 Int8PtrTy)
                (Argument 3 Int8PtrTy)
                [Argument 0 Sample.Int64Ty; Argument 1 Sample.Int64Ty]
                Sample.caller Sample.caller
                (convertFunctionType (TupleType [Sample.Int; Sample.Int])
                                     Sample.Int))
    by (repeat split; reflexivity).
  destruct (call_is_well_typed (C := Sample.collaborators) E resultType
              Sample.caller _ _ _ Sample.caller Sample.caller _
              (TupleType [Sample.Int; Sample.Int]) Sample.Int
              H Sample_registryAgrees eq_refl eq_refl eq_refl (λ _, eq_refl))
    as (rv & st' & callee & callArgs & Hrun & Hin & _ & Hcallee & Hargs & Hrv).
  exists rv, st', callee, callArgs. repeat split; assumption.
Defined.

(** The direct call of the global function [f]. *)
Lemma function_reference_call_passes_no_context_witness :
  let Fn := mkValueDecl FuncDeclKind "f" (ModuleContext 0) in
  let E := mkApplyExpr (C := Sample.collaborators)
             Sample.globalCallee Sample.twoInts Sample.Int None in
  ∃ rv st',
    emitApplyExpr E (Sample.typeInfoOf Sample.Int) Sample.caller = Ok (rv, st')
    ∧ callArguments (Trace st')
      = [[Argument 0 Sample.Int64Ty; Argument 1 Sample.Int64Ty]].
Proof.
  intros Fn E.
  destruct (function_reference_call_passes_no_context (C := Sample.collaborators)
              E Fn (Sample.typeInfoOf Sample.Int)
              (Explosion.add [UndefValue Int8PtrTy]
                 (Explosion.add [GlobalFunction "f" Int8PtrTy]
                    (Explosion.new Maximal)))
              [Argument 0 Sample.Int64Ty; Argument 1 Sample.Int64Ty]
              Sample.caller Sample.caller Sample.caller
              (convertFunctionType (TupleType [Sample.Int; Sample.Int]) Sample.Int)
              eq_refl eq_refl eq_refl eq_refl eq_refl)
    as (rv & st' & extracts & Hrun & Htr & Hex).
  exists rv, st'. split; [exact Hrun|].
  rewrite Htr. unfold callArguments in *. rewrite !flat_map_app, Hex.
  reflexivity.
Defined.

(** A global function and the undefined context, stored from an explosion
    of three values and loaded back, on the sample machine. *)
Lemma explosion_round_trip_witness :
  let info := convertFunctionType (TupleType [Sample.Int; Sample.Int]) Sample.Int in
  let codePtr := GlobalFunction "f" Int8PtrTy in
  let dataPtr := UndefValue Int8PtrTy in
  let e := Explosion.add [codePtr; dataPtr; Argument 1 Sample.Int64Ty]
                         (Explosion.new Maximal) in
  ∃ e1 st1 e2 st2 fn data m',
    FuncTypeInfo_storeExplosion info e Sample.closureSlot Sample.caller
    = Ok (e1, st1)
    ∧ Explosion.getAll e1 = [Argument 1 Sample.Int64Ty]
    ∧ FuncTypeInfo_loadExplosion info Sample.closureSlot (Explosion.new Minimal) st1
      = Ok (e2, st2)
    ∧ Explosion.getAll e2 = [fn; data]
    ∧ execTrace (Trace st2) Sample.machine = Some m'
    ∧ evalValue m' fn = Some (RtWord 42)
    ∧ evalValue m' data = Some RtUndef.
Proof.
  intros info codePtr dataPtr e.
  exact (explosion_round_trip (C := Sample.collaborators) info Sample.closureSlot
           e Minimal codePtr dataPtr [Argument 1 Sample.Int64Ty] Sample.caller
           Sample.machine 0 [] (RtWord 42) RtUndef
           eq_refl I I I eq_refl eq_refl eq_refl).
Defined.

(** An integer, an aggregate and a closure as the three arguments of a
    function. *)
Lemma addArg_follows_signature_witness :
  let rvs := [RValue.forScalars [Argument 0 Sample.Int64Ty];
              RValue.forAggregate (Argument 1 (PointerTy Sample.AggTy));
              RValue.forScalars [Argument 2 Int8PtrTy; Argument 3 Int8PtrTy]] in
  let args := foldl (λ args rv, ArgList_addArg rv args) (ArgList_new Minimal) rvs in
  getParamTypes
    (FuncTypeInfo_getFunctionType
       (convertFunctionType
          (TupleType [Sample.Int; Sample.Big; Sample.binaryTy]) Sample.Int)
       false).1
  = map getType (Explosion.getAll (ArgList_Values args))
  ∧ ArgList_Attrs args = [].
Proof.
  intros rvs args.
  apply (addArg_follows_signature (C := Sample.collaborators)
           [Sample.Int; Sample.Big; Sample.binaryTy] Sample.Int rvs).
  repeat constructor.
Defined.



(** The closure parameter of the five-argument function is bound to a
    scoped slot, and an undeclared parameter is not bound. *)
Lemma prologue_binds_parameters_witness :
  ∃ st' parmAddr id,
    emitPrologue (Sample.marshalled Sample.marshalledArgs) = Ok ((), st')
    ∧ Locals st' !! 11 = Some parmAddr
    ∧ getAlignment parmAddr = 8
    ∧ getAddress parmAddr
      = Instruction id (PointerTy (StructTy [Int8PtrTy; Int8PtrTy]))
    ∧ ScopedAlloca id (StructTy [Int8PtrTy; Int8PtrTy]) 8 ∈ Trace st'
    ∧ Locals st' !! 13 = None.
Proof.
  assert (Hrun : ∃ st', emitPrologue (Sample.marshalled Sample.marshalledArgs)
                        = Ok ((), st'))
    by (eexists; vm_compute; reflexivity).
  destruct Hrun as [st' Hrun].
  destruct (prologue_binds_parameters (C := Sample.collaborators)
              (Sample.marshalled Sample.marshalledArgs) () st'
              (Sample_emittingStores _) Hrun)
    as (_ & _ & Hout & Hin).
  destruct (Hin (mkArgDecl 11 Sample.binaryTy)
              ltac:(apply (list_elem_of_lookup_2 _ 1); reflexivity))
    as (parmAddr & Hl & Halign & id & _ & Haddr & Hev).
  exists st', parmAddr, id.
  split; [exact Hrun|]. split; [exact Hl|]. split; [exact Halign|].
  split; [exact Haddr|]. split; [exact Hev|].
  rewrite (Hout 13); [reflexivity|].
  cbn. intros Hin13.
  repeat (apply elem_of_cons in Hin13 as [Hin13|Hin13]; [discriminate|]).
  by apply elem_of_nil in Hin13.
Defined.

(** The blocks of the five-argument function after its prologue. *)
Lemma prologue_layout_witness :
  ∃ st',
    emitPrologue (Sample.marshalled Sample.marshalledArgs) = Ok ((), st')
    ∧ getBasicBlockList (Trace st') = [0; 2]
    ∧ BuilderIP st' = Some 0
    ∧ AllocaIP st' = Some 1
    ∧ ReturnBB st' = Some 2
    ∧ emitPrologue st' = Fatal "prologue already emitted?".
Proof.
  assert (Hrun : ∃ st', emitPrologue (Sample.marshalled Sample.marshalledArgs)
                        = Ok ((), st'))
    by (eexists; vm_compute; reflexivity).
  destruct Hrun as [st' Hrun].
  destruct (prologue_layout (C := Sample.collaborators)
              (Sample.marshalled Sample.marshalledArgs) () st'
              (Sample_emittingStores _) Hrun)
    as (_ & Hblocks & Hip & Halloca & Hret & _ & Htwice).
  exists st'. repeat split; assumption.
Defined.

(** The resolution for the function from nothing to nothing, right after
    its prologue: the return block is unused and is erased. *)
Lemma epilogue_resolution_sound_witness :
  ∃ s reachable s1,
    emitPrologue Sample.voidFunction = Ok ((), s)
    ∧ emitEpilogue_resolve 2 (advance [EraseInstruction 1] 0 s)
      = Ok (reachable, s1)
    ∧ reachable = true
    ∧ usesOf 2 (Trace s1) = [].
Proof.
  assert (Hrun : ∃ s, emitPrologue Sample.voidFunction = Ok ((), s)
                      ∧ ∃ reachable s1,
                          emitEpilogue_resolve 2 (advance [EraseInstruction 1] 0 s)
                          = Ok (reachable, s1)
                          ∧ reachable = true
                          ∧ EraseBlock 2
                            ∈ drop (length (Trace (advance [EraseInstruction 1] 0 s)))
                                   (Trace s1)).
  { eexists. split; [vm_compute; reflexivity|].
    eexists _, _. split; [vm_compute; reflexivity|]. split; [reflexivity|].
    apply list_elem_of_here. }
  destruct Hrun as (s & Hpro & reachable & s1 & Hres & Hreach & Herase).
  destruct (epilogue_resolution_sound 2 _ reachable s1
              Hres) as (_ & _ & _ & Hnouse & _).
  exists s, reachable, s1. repeat split; try assumption. exact (Hnouse Herase).
Defined.

(** The call of a closure, exploded by appending the scalars of the
    result. *)
Lemma exploded_apply_hands_over_result_witness :
  let E := mkApplyExpr (C := Sample.collaborators)
             Sample.closureCallee Sample.twoInts Sample.Int None in
  let explode := λ (_ : TypeInfo) rv e, Emit_ret (Explosion.add (RValue.getScalars rv) e) in
  ∃ rv st',
    emitApplyExpr E (getFragileTypeInfo Sample.Int) Sample.caller = Ok (rv, st')
    ∧ hasSchema (RValueSchema.forScalars [Sample.Int64Ty]) rv
    ∧ emitExplodedApplyExpr explode E (Explosion.new Maximal) Sample.caller
      = Ok (Explosion.add (RValue.getScalars rv) (Explosion.new Maximal), st').
Proof.
  intros E explode.
  assert (H : generalCall E (getFragileTypeInfo (ApplyExpr_getType E))
                Sample.caller (Argument 2 Int8PtrTy) (Argument 3 Int8PtrTy)
                [Argument 0 Sample.Int64Ty; Argument 1 Sample.Int64Ty]
                Sample.caller Sample.caller
                (convertFunctionType (TupleType [Sample.Int; Sample.Int])
                                     Sample.Int))
    by (repeat split; reflexivity).
  destruct (exploded_apply_hands_over_result (C := Sample.collaborators) explode E
              (Explosion.new Maximal) Sample.caller _ _ _ Sample.caller
              Sample.caller _ (TupleType [Sample.Int; Sample.Int])
              H Sample_registryAgrees eq_refl)
    as (rv & st' & Hrun & Hrv & Hexp).
  exists rv, st'. split; [exact Hrun|]. split; [exact Hrv|]. exact Hexp.
Defined.

(** The function from nothing to nothing after its prologue, with the
    insertion point cleared: unreachable; and with a conditional branch to
    the return block emitted before: fatal. *)
Lemma epilogue_without_insertion_point_witness :
  ∃ s,
    emitPrologue Sample.voidFunction = Ok ((), s)
    ∧ emitEpilogue (withBuilderIP None s)
      = Ok ((), advance [EraseInstruction 1; EraseBlock 2] 0 (withBuilderIP None s))
    ∧ emitEpilogue
        (withBuilderIP None
           (advance [Insert 3 (Some 0) (CondBr (Argument 0 Int1Ty) 2 0)] 1 s))
      = Fatal "Br->isUnconditional()".
Proof.
  eexists. split; [vm_compute; reflexivity|].
  split.
  - match goal with
    | |- emitEpilogue ?s0 = _ =>
        exact (proj1 (epilogue_without_insertion_point (C := Sample.collaborators)
                        s0 1 2 eq_refl eq_refl eq_refl) eq_refl)
    end.
  - match goal with
    | |- emitEpilogue ?s0 = _ =>
        exact (proj2 (epilogue_without_insertion_point (C := Sample.collaborators)
                        s0 1 2 eq_refl eq_refl eq_refl) _ _ _ _ _ eq_refl)
    end.
Defined.

(** The descriptor of [(Int, Int) -> Int]: both views of its schema
    answer, with two scalars. *)
Lemma explosion_size_agrees_witness :
  let info := convertFunctionType (TupleType [Sample.Int; Sample.Int]) Sample.Int in
  FuncTypeInfo_getSchema info
  = Ok (RValueSchema.forScalars [Int8PtrTy; Int8PtrTy])
  ∧ FuncTypeInfo_getExplosionSchema info []
    = Ok [ExplosionSchema.forScalar Int8PtrTy;
          ExplosionSchema.forScalar Int8PtrTy].
Proof.
  intros info. split; [reflexivity|].
  destruct (explosion_size_agrees (C := Sample.collaborators) info Maximal
              Sample.closureSlot (Explosion.new Maximal) Sample.caller)
    as (Hschema & _).
  destruct (Hschema _ eq_refl) as [_ Hex]. exact (Hex []).
Defined.

(** A closure loaded from the sample slot, by the descriptor of
    [(Int, Int) -> Int]. *)
Lemma closure_load_has_schema_witness :
  let info := convertFunctionType (TupleType [Sample.Int; Sample.Int]) Sample.Int in
  FuncTypeInfo_getSchema info
  = Ok (RValueSchema.forScalars [Int8PtrTy; Int8PtrTy])
  ∧ ∃ fn data st',
      FuncTypeInfo_load info Sample.closureSlot Sample.caller
      = Ok (RValue.forScalars [fn; data], st')
      ∧ map getType [fn; data] = [Int8PtrTy; Int8PtrTy].
Proof.
  intros info. split; [reflexivity|].
  destruct (closure_load_has_schema (C := Sample.collaborators) info
              (RValueSchema.forScalars [Int8PtrTy; Int8PtrTy])
              Sample.closureSlot Sample.caller eq_refl eq_refl)
    as (fn & data & st' & Hload & Hschema & _).
  by exists fn, data, st'.
Defined.

(** The return of the function from nothing to a closure: the two loaded
    scalars are inserted into an undefined pair, which is returned. *)
Lemma epilogue_return_by_schema_witness :
  let RetTy := StructTy [Int8PtrTy; Int8PtrTy] in
  ∃ s st',
    emitPrologue Sample.closureFunction = Ok ((), s)
    ∧ emitEpilogue_return (advance [EraseInstruction 1; EraseBlock 2] 0 s)
      = Ok ((), st')
    ∧ drop (length (Trace s) + 6) (Trace st')
      = [Insert 8 (Some 0)
           (InsertValue (UndefValue RetTy) (Instruction 5 Int8PtrTy) 0);
         Insert 9 (Some 0)
           (InsertValue (Instruction 8 RetTy) (Instruction 7 Int8PtrTy) 1);
         Insert 10 (Some 0) (Ret (Instruction 9 RetTy))].
Proof.
  intros RetTy.
  eexists _, _. split; [vm_compute; reflexivity|]. split.
  - match goal with
    | |- emitEpilogue_return ?s2 = _ =>
        eapply (epilogue_return_by_schema (C := Sample.collaborators) s2
                  (TupleType []) Sample.binaryTy eq_refl);
          [reflexivity | vm_compute; reflexivity]
    end.
  - reflexivity.
Defined.

(** The five-argument function with an empty body. *)
Lemma empty_function_epilogue_witness :
  ∃ st' st'',
    emitPrologue (Sample.marshalled Sample.marshalledArgs) = Ok ((), st')
    ∧ emitEpilogue st' = Ok ((), st'')
    ∧ getBasicBlockList (Trace st'') = [0]
    ∧ last (Trace st'') = Some (Insert (NextId st') (Some 0) RetVoid).
Proof.
  assert (Hrun : ∃ st', emitPrologue (Sample.marshalled Sample.marshalledArgs)
                        = Ok ((), st'))
    by (eexists; vm_compute; reflexivity).
  destruct Hrun as [st' Hrun].
  destruct (empty_function_epilogue (C := Sample.collaborators)
              (Sample.marshalled Sample.marshalledArgs) () st'
              (Sample_emittingStores _) eq_refl Hrun)
    as (_ & Hblocks & _ & Hcases).
  pose proof (Hcases _ _ eq_refl ltac:(intros V [= <-]; reflexivity)) as Hepi.
  eexists st', _. split; [exact Hrun|]. split; [exact Hepi|].
  rewrite Trace_advance, getBasicBlockList_app, Hblocks.
  split; [reflexivity|]. by rewrite last_snoc.
Defined.

End Samples.
